(** * Change detection, planning and chunk scheduling of estimate-cost

    A shallow embedding of the planner and run bookkeeping of
    [db_sync_graph/graph.ts], the canonicaliser of [db_sync_graph/hashing.ts],
    the row transformer of [db_sync_graph/transform.ts] and the work queue of
    [cost_estimator/thread_pool.ts], followed by the properties the
    specification states about them.

    Conventions of the embedding.
    - A TypeScript [string] is a Rocq [string]; one character stands for one
      code unit.  [T | null] is [option T].
    - A value used as a condition is tested the way JavaScript tests it: the
      empty string is falsy as well as [null] (see [Js.truthy]).
    - Row counts, chunk counts and ordinal positions are integers ([Z]).
      A number held by a row is a [JsLib.number]: an integer, NaN, an
      infinity or the negative zero; integers are printed in decimal, as
      JavaScript prints them below [10^21] in magnitude.  Numbers with a
      fractional part are outside the model.
    - Plain objects are association lists of their own properties, with
      pairwise distinct keys, in the order of creation; the order of
      enumeration ([JsLib.enumeration_order]) is applied where the code
      enumerates.  Properties inherited from [Object.prototype] are not
      modelled: see [JsLib.Object_prototype_members].  [Map]s that are only
      looked up and updated are [gmap]s, a [Map] that is iterated is an
      insertion-ordered association list. *)

From Stdlib Require Import ZArith List Ascii String Lia Bool Permutation Sorted.
From Stdlib Require Import DecimalString DecimalZ.
From stdpp Require Import base list gmap strings sorting.

Local Open Scope Z_scope.
#[local] Set Warnings "-register-all".

(* ===================================================================== *)
(** * JavaScript primitives used by the sources *)
(* ===================================================================== *)

Module Js.

(** Truthiness of a [string | null]: [null] and the empty string are falsy. *)
Definition truthy (v : option string) : bool :=
  match v with
  | None => false
  | Some s => negb (String.eqb s "")
  end.

(** [a || b] on [string | null | undefined] operands. *)
Definition or_else (a b : option string) : option string :=
  if truthy a then a else b.

(** [a || d] where [d] is a string literal. *)
Definition or_default (a : option string) (d : string) : string :=
  match a with
  | Some s => if String.eqb s "" then d else s
  | None => d
  end.

(** [a ?? b]. *)
Definition nullish {A} (a b : option A) : option A :=
  match a with
  | Some _ => a
  | None => b
  end.

End Js.

(* ===================================================================== *)
(** * db_sync_graph/state.ts *)
(* ===================================================================== *)

Module State.

Inductive RunStatus := running | success | partial_success | failed_run.
Inductive TableMode := full | skip.
Inductive TableResultStatus := reindexed | skipped | failed.
Inductive TextColumnsMode := auto | all.

#[global] Instance RunStatus_eq_dec : EqDecision RunStatus.
Proof. solve_decision. Defined.
#[global] Instance TableMode_eq_dec : EqDecision TableMode.
Proof. solve_decision. Defined.
#[global] Instance TableResultStatus_eq_dec : EqDecision TableResultStatus.
Proof. solve_decision. Defined.

Record ColumnInfo := {
  columnName : string;
  dataType : string;
  isNullable : bool;
  columnDefault : option string;
  ordinalPosition : Z;
  pkPosition : option Z
}.

Record TableInfo := {
  ti_schema : string;
  ti_table : string;
  columns : list ColumnInfo;
  pkColumns : list string;
  updatedAtColumn : option string
}.

Record TableSnapshot := {
  ts_schema : string;
  ts_table : string;
  rowCount : Z;
  maxUpdatedAt : option string;
  maxPkLexicographic : option string;
  schemaHash : string;
  tableHash : string
}.

Record TablePlan := {
  tp_schema : string;
  tp_table : string;
  tp_mode : TableMode;
  tp_reason : string
}.

Record TableRunResult := {
  tr_schema : string;
  tr_table : string;
  tr_mode : TableMode;
  status : TableResultStatus;
  rowsUpserted : Z;
  error : option string
}.

Record RunError := {
  re_tableKey : string;
  message : string
}.

Record RunSummary := {
  tablesTotal : Z;
  tablesReindexed : Z;
  tablesSkipped : Z;
  sum_rowsUpserted : Z;
  errors : list RunError
}.

Record ControlCatalogRecord := {
  cc_schema : string;
  cc_table : string;
  schema_hash : string;
  table_hash : string;
  row_count : Z;
  max_updated_at : option string;
  last_success_run_id : option string;
  last_success_at : option string;
  last_mode : option TableMode;
  last_error : option string
}.

(** `${schema}.${table}` *)
Definition tableKey (schema table : string) : string :=
  schema +:+ "." +:+ table.

Definition defaultRunSummary : RunSummary :=
  {| tablesTotal := 0; tablesReindexed := 0; tablesSkipped := 0;
     sum_rowsUpserted := 0; errors := [] |}.

End State.

(* ===================================================================== *)
(** * db_sync_graph/graph.ts *)
(* ===================================================================== *)

Module Graph.
Import State.

(** What a [catch] clause receives: an [Error] object, or any other thrown
    value, kept here by its [String(error)] rendering. *)
Inductive Thrown :=
| ThrownError (msg : string)
| ThrownOther (rendered : string).

Definition errorMessage (e : Thrown) : string :=
  match e with
  | ThrownError msg => msg
  | ThrownOther rendered => rendered
  end.

Definition getTableModeReason (previousCatalog : option ControlCatalogRecord)
    (schemaHash tableHash : string) : TableMode * string :=
  match previousCatalog with
  | None => (full, "no_previous_catalog")
  | Some prev =>
      if negb (String.eqb (schema_hash prev) schemaHash)
      then (full, "schema_hash_changed")
      else if negb (String.eqb (table_hash prev) tableHash)
      then (full, "table_hash_changed")
      else (skip, "table_hash_unchanged")
  end.

Definition decideTableMode (previousCatalog : option ControlCatalogRecord)
    (schemaHash tableHash : string) (hasPrimaryKey : bool)
    : TableMode * string :=
  if negb hasPrimaryKey then (skip, "skipped_no_pk")
  else getTableModeReason previousCatalog schemaHash tableHash.

Definition is_failed (r : TableRunResult) : bool :=
  bool_decide (status r = failed).

Definition computeRunStatus (fatalError : option string)
    (tableResults : list TableRunResult) : RunStatus :=
  if Js.truthy fatalError then failed_run
  else if existsb is_failed tableResults then partial_success
  else success.

(** One iteration of the loop of [summarizeRun]. *)
Definition summarizeStep (summary : RunSummary) (result : TableRunResult)
    : RunSummary :=
  match status result with
  | reindexed =>
      {| tablesTotal := tablesTotal summary;
         tablesReindexed := tablesReindexed summary + 1;
         tablesSkipped := tablesSkipped summary;
         sum_rowsUpserted := sum_rowsUpserted summary + rowsUpserted result;
         errors := errors summary |}
  | skipped =>
      {| tablesTotal := tablesTotal summary;
         tablesReindexed := tablesReindexed summary;
         tablesSkipped := tablesSkipped summary + 1;
         sum_rowsUpserted := sum_rowsUpserted summary;
         errors := errors summary |}
  | failed =>
      {| tablesTotal := tablesTotal summary;
         tablesReindexed := tablesReindexed summary;
         tablesSkipped := tablesSkipped summary;
         sum_rowsUpserted := sum_rowsUpserted summary;
         errors := errors summary ++
           [ {| re_tableKey := tableKey (tr_schema result) (tr_table result);
                message := Js.or_default (error result) "unknown_table_error" |} ]
      |}
  end.

Definition summarizeRun (tablePlans : list TablePlan)
    (tableResults : list TableRunResult) : RunSummary :=
  fold_left summarizeStep tableResults
    {| tablesTotal := Z.of_nat (length tablePlans);
       tablesReindexed := 0; tablesSkipped := 0;
       sum_rowsUpserted := 0; errors := [] |}.

(** [executePlansWithHandler].  The handler is any computation over a state
    [S] of its own; it either resolves with a row count or throws.  The
    returned list of plans is the sequence of handler calls. *)
Section Execute.
Context {S : Type}.
Variable onFullTable : TablePlan -> S -> S * (Thrown + Z).

Definition skippedResult (p : TablePlan) : TableRunResult :=
  {| tr_schema := tp_schema p; tr_table := tp_table p; tr_mode := tp_mode p;
     status := skipped; rowsUpserted := 0; error := None |}.

Definition reindexedResult (p : TablePlan) (n : Z) : TableRunResult :=
  {| tr_schema := tp_schema p; tr_table := tp_table p; tr_mode := tp_mode p;
     status := reindexed; rowsUpserted := n; error := None |}.

Definition failedResult (p : TablePlan) (e : Thrown) : TableRunResult :=
  {| tr_schema := tp_schema p; tr_table := tp_table p; tr_mode := tp_mode p;
     status := failed; rowsUpserted := 0; error := Some (errorMessage e) |}.

Fixpoint executeLoop (tablePlans : list TablePlan) (st : S)
    (tableResults : list TableRunResult) (calls : list TablePlan)
    : S * list TableRunResult * list TablePlan :=
  match tablePlans with
  | [] => (st, tableResults, calls)
  | tablePlan :: rest =>
      match tp_mode tablePlan with
      | skip =>
          executeLoop rest st (tableResults ++ [skippedResult tablePlan]) calls
      | full =>
          match onFullTable tablePlan st with
          | (st', inr n) =>
              executeLoop rest st'
                (tableResults ++ [reindexedResult tablePlan n])
                (calls ++ [tablePlan])
          | (st', inl e) =>
              executeLoop rest st'
                (tableResults ++ [failedResult tablePlan e])
                (calls ++ [tablePlan])
          end
      end
  end.

Definition executePlansWithHandler (tablePlans : list TablePlan) (st : S)
    : S * list TableRunResult * list TablePlan :=
  executeLoop tablePlans st [] [].
End Execute.

Definition buildCatalogRecord (snapshot : TableSnapshot)
    (result : option TableRunResult) (existing : option ControlCatalogRecord)
    (runId finishedAt : string) (fatalError : option string)
    : ControlCatalogRecord :=
  let failedResult :=
    match result with
    | Some r => is_failed r
    | None => false
    end in
  let tableSucceeded :=
    negb failedResult && negb (Js.truthy fatalError) && bool_decide (is_Some result) in
  {| cc_schema := ts_schema snapshot;
     cc_table := ts_table snapshot;
     schema_hash := schemaHash snapshot;
     table_hash := tableHash snapshot;
     row_count := rowCount snapshot;
     max_updated_at := maxUpdatedAt snapshot;
     last_success_run_id :=
       if tableSucceeded then Some runId
       else Js.or_else (existing ≫= last_success_run_id) None;
     last_success_at :=
       if tableSucceeded then Some finishedAt
       else Js.or_else (existing ≫= last_success_at) None;
     last_mode :=
       Js.nullish (tr_mode <$> result)
         (Js.nullish (existing ≫= last_mode) None);
     last_error :=
       match result with
       | Some r => if is_failed r then error r else fatalError
       | None => fatalError
       end |}.

(** The catalog part of [finalizeRun]: one record per snapshot, looked up
    in [new Map(tableResults...)] (the last result of a key wins) and in
    [catalogByTable]. *)
Definition resultsByTable (tableResults : list TableRunResult)
    : gmap string TableRunResult :=
  fold_left (fun m r => <[tableKey (tr_schema r) (tr_table r) := r]> m)
    tableResults ∅.

Definition finalizeCatalog (tableSnapshots : list TableSnapshot)
    (tableResults : list TableRunResult)
    (catalogByTable : gmap string (option ControlCatalogRecord))
    (runId finishedAt : string) (fatalError : option string)
    : list ControlCatalogRecord :=
  map (fun snapshot =>
         let key := tableKey (ts_schema snapshot) (ts_table snapshot) in
         buildCatalogRecord snapshot
           (resultsByTable tableResults !! key)
           (mjoin (catalogByTable !! key))
           runId finishedAt fatalError)
      tableSnapshots.

End Graph.

(* ===================================================================== *)
(** * JavaScript library functions: sorting, numbers, strings, objects *)
(* ===================================================================== *)

Module JsLib.

(** [Array.prototype.sort] is a stable sort; on a consistent comparator
    its result is that of this insertion sort, where [le x y] says that
    the comparator does not put [y] before [x]. *)
Section Sort.
Context {A : Type} (le : A -> A -> bool).

Fixpoint insert_sorted (x : A) (l : list A) : list A :=
  match l with
  | [] => [x]
  | y :: l' => if le x y then x :: y :: l' else y :: insert_sorted x l'
  end.

Definition stable_sort (l : list A) : list A := foldr insert_sorted [] l.
End Sort.

(** The decimal digits of an integer: [n.toString()] for a bigint, and
    [String(n)] for an integer number below [10^21] in magnitude (from
    there on a number is written with an exponent). *)
Definition number_toString (n : Z) : string :=
  NilZero.string_of_int (Z.to_int n).

(** A number: an integer, or one of the four numbers that are not written
    by the digits of an integer.  Numbers with a fractional part are not
    covered.  From [10^21] on in magnitude JavaScript writes an integer with
    an exponent instead of the digits [number_toString] gives; two numbers
    still have the same text only when they are equal, so that what is
    stated below on texts being equal or different does not depend on the
    magnitude, while a statement that gives the text itself asks for
    [MoreSpec.decimal_numbers]. *)
Inductive number :=
| Int (n : Z)
| NaN
| Infinity
| NegInfinity
| NegZero.

Coercion Int : Z >-> number.

#[global] Instance number_eq_dec : EqDecision number.
Proof. solve_decision. Defined.

(** [String(x)] *)
Definition number_String (x : number) : string :=
  match x with
  | Int n => number_toString n
  | NaN => "NaN"
  | Infinity => "Infinity"
  | NegInfinity => "-Infinity"
  | NegZero => "0"
  end.

(** The text [JSON.stringify] writes for a number: [null] for one that is
    not finite. *)
Definition number_json (x : number) : string :=
  match x with
  | Int n => number_toString n
  | NaN | Infinity | NegInfinity => "null"
  | NegZero => "0"
  end.

(** [String.prototype.toLowerCase] on code units below 256: the letters
    A to Z and the capital letters of Latin-1 (192 to 222, without the
    multiplication sign 215) move up by 32. *)
Definition lower_char (c : ascii) : ascii :=
  let n := N_of_ascii c in
  if ((65 <=? n) && (n <=? 90))%N then ascii_of_N (n + 32)
  else if ((192 <=? n) && (n <=? 222) && negb (n =? 215))%N
  then ascii_of_N (n + 32)
  else c.

Fixpoint toLowerCase (s : string) : string :=
  match s with
  | EmptyString => EmptyString
  | String c s' => String (lower_char c) (toLowerCase s')
  end.

(** [String.prototype.includes]. *)
Fixpoint includes (s sub : string) : bool :=
  String.prefix sub s ||
  match s with
  | EmptyString => false
  | String _ s' => includes s' sub
  end.

(** [Array.prototype.join] on an array of strings. *)
Fixpoint join (sep : string) (parts : list string) : string :=
  match parts with
  | [] => EmptyString
  | [p] => p
  | p :: rest => p +:+ sep +:+ join sep rest
  end.

(** Property access on a plain object, kept by its own properties in the
    order of their creation; the order of enumeration is applied where the
    code enumerates ([enumeration_order] below). *)
Section Props.
Context {A : Type}.

Fixpoint get_prop (key : string) (props : list (string * A)) : option A :=
  match props with
  | [] => None
  | (k, v) :: rest => if String.eqb k key then Some v else get_prop key rest
  end.

(** [obj[key] = v]: an existing property keeps its place. *)
Fixpoint set_prop (key : string) (v : A) (props : list (string * A))
    : list (string * A) :=
  match props with
  | [] => [(key, v)]
  | (k, w) :: rest =>
      if String.eqb k key then (k, v) :: rest
      else (k, w) :: set_prop key v rest
  end.

Definition has_prop (key : string) (props : list (string * A)) : bool :=
  bool_decide (is_Some (get_prop key props)).
End Props.

(** The names every plain object inherits from [Object.prototype].  The
    access [obj[key]] and the test [key in obj] find them also on an
    object without such a property of its own, and an assignment to
    [__proto__] creates no property.  [get_prop], [has_prop] and [set_prop]
    work on the own properties: they are the access, the test and the
    assignment of the code for every name outside this list. *)
Definition Object_prototype_members : list string :=
  [ "constructor"; "__defineGetter__"; "__defineSetter__"; "hasOwnProperty";
    "__lookupGetter__"; "__lookupSetter__"; "isPrototypeOf";
    "propertyIsEnumerable"; "toString"; "valueOf"; "__proto__";
    "toLocaleString" ].

(** A name that is not inherited. *)
Definition own_name (key : string) : bool :=
  negb (existsb (String.eqb key) Object_prototype_members).

(** Array-index keys: canonical decimal strings below [2^32 - 1].  They are
    enumerated first, in ascending numeric order. *)
Definition digit_value (c : ascii) : option N :=
  let n := N_of_ascii c in
  if ((48 <=? n) && (n <=? 57))%N then Some (n - 48)%N else None.

Fixpoint digits_value (acc : N) (s : string) : option N :=
  match s with
  | EmptyString => Some acc
  | String c s' =>
      match digit_value c with
      | Some d => digits_value (acc * 10 + d)%N s'
      | None => None
      end
  end.

Definition array_index (s : string) : option N :=
  match s with
  | EmptyString => None
  | String c rest =>
      if Ascii.eqb c "0" && negb (String.eqb rest "") then None
      else match digits_value 0 s with
           | Some n => if (n <? 4294967295)%N then Some n else None
           | None => None
           end
  end.

Section Enumerate.
Context {A : Type}.

Definition is_index_prop (kv : string * A) : bool :=
  bool_decide (is_Some (array_index kv.1)).

Definition index_le (kv1 kv2 : string * A) : bool :=
  (default 0 (array_index kv1.1) <=? default 0 (array_index kv2.1))%N.

(** The order in which own properties are enumerated, given the order
    in which they were created. *)
Definition enumeration_order (props : list (string * A)) : list (string * A) :=
  stable_sort index_le (filter (fun kv => is_index_prop kv = true) props)
  ++ filter (fun kv => is_index_prop kv = false) props.

(** [Object.fromEntries]. *)
Definition fromEntries (entries : list (string * A)) : list (string * A) :=
  enumeration_order
    (fold_left (fun obj kv => set_prop kv.1 kv.2 obj) entries []).
End Enumerate.

End JsLib.

(* ===================================================================== *)
(** * db_sync_graph/hashing.ts *)
(* ===================================================================== *)

Module Hashing.
Import State JsLib.

(** The values [sortJsonValue] inspects.  A [Date] is kept by the string
    [toISOString()] returns for it; an object by its own enumerable
    properties in enumeration order. *)
Inductive value :=
| VUndefined
| VNull
| VBoolean (b : bool)
| VNumber (x : number)
| VString (s : string)
| VBigInt (n : Z)
| VDate (iso : string)
| VArray (items : list value)
| VObject (props : list (string * value)).

Inductive JsonValue :=
| JNull
| JBoolean (b : bool)
| JNumber (x : number)
| JString (s : string)
| JArray (items : list JsonValue)
| JObject (props : list (string * JsonValue)).

(** [Object.keys(objectValue).sort().map(key => [key, f(objectValue[key])])]
    where [entries] holds [f] of every property. *)
Definition sortedEntries {A} (absent : A) (entries : list (string * A))
    : list (string * A) :=
  map (fun key => (key, default absent (get_prop key entries)))
      (stable_sort String.leb (map fst entries)).

Fixpoint sortJsonValue (v : value) : JsonValue :=
  match v with
  | VUndefined | VNull => JNull
  | VDate iso => JString iso
  | VArray items => JArray (map sortJsonValue items)
  | VObject props =>
      JObject (fromEntries
        (sortedEntries JNull
           (map (fun kv => (kv.1, sortJsonValue kv.2)) props)))
  | VBigInt n => JString (number_toString n)
  | VBoolean b => JBoolean b
  | VNumber x => JNumber x
  | VString s => JString s
  end.

(** [JSON.stringify]: the quotation of a string. *)
Definition dquote : ascii := ascii_of_nat 34.
Definition backslash : ascii := ascii_of_nat 92.

Definition hex_digit (n : N) : ascii :=
  if (n <? 10)%N then ascii_of_N (48 + n) else ascii_of_N (87 + n).

Definition escape_char (c : ascii) : string :=
  let n := N_of_ascii c in
  if (n =? 34)%N then String backslash (String dquote EmptyString)
  else if (n =? 92)%N then String backslash (String backslash EmptyString)
  else if (n =? 8)%N then String backslash "b"
  else if (n =? 9)%N then String backslash "t"
  else if (n =? 10)%N then String backslash "n"
  else if (n =? 12)%N then String backslash "f"
  else if (n =? 13)%N then String backslash "r"
  else if (n <? 32)%N then
    String backslash
      (String "u" (String "0" (String "0"
         (String (hex_digit (n / 16)) (String (hex_digit (n mod 16)) EmptyString)))))
  else String c EmptyString.

Fixpoint escape (s : string) : string :=
  match s with
  | EmptyString => EmptyString
  | String c s' => escape_char c +:+ escape s'
  end.

Definition quote (s : string) : string :=
  String dquote (escape s +:+ String dquote EmptyString).

Fixpoint stringify (j : JsonValue) : string :=
  match j with
  | JNull => "null"
  | JBoolean true => "true"
  | JBoolean false => "false"
  | JNumber x => number_json x
  | JString s => quote s
  | JArray items => "[" +:+ join "," (map stringify items) +:+ "]"
  | JObject props =>
      "{" +:+ join ","
               (map (fun kv => quote kv.1 +:+ ":" +:+ stringify kv.2) props)
          +:+ "}"
  end.

Definition stableStringify (v : value) : string :=
  stringify (sortJsonValue v).

Definition opt_string (s : option string) : value :=
  match s with
  | Some x => VString x
  | None => VNull
  end.

Definition opt_number (n : option Z) : value :=
  match n with
  | Some x => VNumber x
  | None => VNull
  end.

(** The object literal each column is mapped to in [computeSchemaHash]. *)
Definition projectColumn (column : ColumnInfo) : value :=
  VObject [ ("column_name", VString (columnName column));
            ("data_type", VString (dataType column));
            ("is_nullable", VBoolean (isNullable column));
            ("column_default", opt_string (columnDefault column));
            ("pk_position", opt_number (pkPosition column)) ].

Definition ordinal_le (left right : ColumnInfo) : bool :=
  ordinalPosition left - ordinalPosition right <=? 0.

Definition canonicalSchema (columns : list ColumnInfo) : value :=
  VArray (map projectColumn (stable_sort ordinal_le columns)).

Section WithSha256.
(** [crypto.createHash("sha256").update(input, "utf8").digest("hex")] *)
Variable sha256Hex : string -> string.

Definition computeSchemaHash (columns : list ColumnInfo) : string :=
  sha256Hex (stableStringify (canonicalSchema columns)).

Definition computeTableHash (schemaHash : string) (rowCount : Z)
    (maxUpdatedAt maxPkLexicographic : option string) : string :=
  sha256Hex (stableStringify
    (VObject [ ("schema_hash", VString schemaHash);
               ("row_count", VNumber rowCount);
               ("max_updated_at", opt_string maxUpdatedAt);
               ("max_pk_lexicographic", opt_string maxPkLexicographic) ])).

Definition computeRowHash (row : list (string * value)) : string :=
  sha256Hex (stableStringify (VObject row)).
End WithSha256.

End Hashing.

(* ===================================================================== *)
(** * db_sync_graph/transform.ts *)
(* ===================================================================== *)

Module Transform.
Import State JsLib Hashing.

Definition TEXTUAL_DATA_TYPES : list string :=
  [ "text"; "character varying"; "varchar"; "character"; "char"; "citext";
    "json"; "jsonb"; "uuid" ].

Definition isTextualColumn (dataType : string) : bool :=
  let normalizedDataType := toLowerCase dataType in
  existsb (fun candidate => includes normalizedDataType candidate)
          TEXTUAL_DATA_TYPES.

Definition normalizeValue (v : value) : string :=
  match v with
  | VUndefined | VNull => ""
  | VDate iso => iso
  | VArray _ | VObject _ => stableStringify v
  | VString s => s
  | VNumber x => number_String x
  | VBigInt n => number_toString n
  | VBoolean true => "true"
  | VBoolean false => "false"
  end.

(** [row[columnName]], for a column that is not named like a member of
    [Object.prototype]. *)
Definition row_get (row : list (string * value)) (columnName : string) : value :=
  default VUndefined (get_prop columnName row).

Definition is_excluded (excludedColumns : gset string) (column : ColumnInfo) : bool :=
  bool_decide (toLowerCase (columnName column) ∈ excludedColumns).

Definition selectPageContentColumns (tableInfo : TableInfo)
    (textColumnsMode : TextColumnsMode) (excludedColumns : gset string)
    : list string :=
  map columnName
    (List.filter
       (fun column =>
          match textColumnsMode with
          | all => true
          | auto => isTextualColumn (dataType column)
          end)
       (List.filter (fun column => negb (is_excluded excludedColumns column))
          (columns tableInfo))).

Definition pageLine (row : list (string * value)) (columnName : string) : string :=
  let normalized := normalizeValue (row_get row columnName) in
  if (0 <? String.length normalized)%nat
  then columnName +:+ ": " +:+ normalized
  else "".

Definition newline : string := String (ascii_of_nat 10) EmptyString.

Definition createPageContent (row : list (string * value))
    (tableInfo : TableInfo) (textColumnsMode : TextColumnsMode)
    (excludedColumns : gset string) : string :=
  let selectedColumns :=
    selectPageContentColumns tableInfo textColumnsMode excludedColumns in
  let lines :=
    List.filter (fun line => (0 <? String.length line)%nat)
      (map (pageLine row) selectedColumns) in
  if (0 <? length lines)%nat then join newline lines
  else "[" +:+ ti_schema tableInfo +:+ "." +:+ ti_table tableInfo +:+ "] "
       +:+ stableStringify (VObject row).

(** The loop of [extractPrimaryKey]; [inl] is the thrown error.  The test
    [primaryKeyColumn in row] is the test for an own property for a column
    that is not named like a member of [Object.prototype]; the primary key
    is kept in the order of its assignments. *)
Fixpoint extractPrimaryKeyLoop (row : list (string * value))
    (tableInfo : TableInfo) (pkColumns : list string)
    (primaryKey : list (string * value))
    : string + list (string * value) :=
  match pkColumns with
  | [] => inr primaryKey
  | primaryKeyColumn :: rest =>
      if negb (has_prop primaryKeyColumn row)
      then inl ("Missing PK column " +:+ primaryKeyColumn +:+ " in "
                +:+ ti_schema tableInfo +:+ "." +:+ ti_table tableInfo)
      else extractPrimaryKeyLoop row tableInfo rest
             (set_prop primaryKeyColumn (row_get row primaryKeyColumn) primaryKey)
  end.

Definition extractPrimaryKey (row : list (string * value))
    (tableInfo : TableInfo) : string + list (string * value) :=
  extractPrimaryKeyLoop row tableInfo (pkColumns tableInfo) [].

(** The string [buildDocId] hashes. *)
Definition docIdInput (schema table : string)
    (primaryKey : list (string * value)) : string :=
  schema +:+ "." +:+ table +:+ "|" +:+ stableStringify (VObject primaryKey).

Record Metadata := {
  md_schema : string;
  md_table : string;
  pk : list (string * value);
  pk_hash : string;
  updated_at : option string;
  row_hash : string;
  run_id : string
}.

Record Document := {
  pageContent : string;
  metadata : Metadata
}.

Record DbSyncDocument := {
  docId : string;
  document : Document
}.

Section WithSha256.
Variable sha256Hex : string -> string.

Definition buildDocId (schema table : string)
    (primaryKey : list (string * value)) : string :=
  sha256Hex (docIdInput schema table primaryKey).

Definition transformRowToDocument (row : list (string * value))
    (tableInfo : TableInfo) (runId : string)
    (textColumnsMode : TextColumnsMode) (excludedColumns : list string)
    : string + DbSyncDocument :=
  let excluded : gset string := list_to_set (map toLowerCase excludedColumns) in
  match extractPrimaryKey row tableInfo with
  | inl thrown => inl thrown
  | inr primaryKey =>
      let primaryKeyHash := sha256Hex (stableStringify (VObject primaryKey)) in
      let rowHash := computeRowHash sha256Hex row in
      let pageContent :=
        createPageContent row tableInfo textColumnsMode excluded in
      let updatedAt :=
        if Js.truthy (updatedAtColumn tableInfo)
        then Js.or_else
               (Some (normalizeValue
                        (row_get row (default "" (updatedAtColumn tableInfo)))))
               None
        else None in
      inr {| docId := buildDocId (ti_schema tableInfo) (ti_table tableInfo) primaryKey;
             document :=
               {| pageContent := pageContent;
                  metadata :=
                    {| md_schema := ti_schema tableInfo;
                       md_table := ti_table tableInfo;
                       pk := primaryKey;
                       pk_hash := primaryKeyHash;
                       updated_at := updatedAt;
                       row_hash := rowHash;
                       run_id := runId |} |} |}
  end.
End WithSha256.

End Transform.

(* ===================================================================== *)
(** * cost_estimator/thread_pool.ts *)
(* ===================================================================== *)

Module ThreadPool.
Import State JsLib.

Record TableTokenEstimate := {
  te_schema : string;
  te_table : string;
  te_rowCount : Z;
  te_tokenCount : Z
}.

Inductive QueueItem :=
| QTable (tableInfo : TableInfo)
| QChunk (tableInfo : TableInfo) (chunkId : string)
         (offsetStart rowLimit : Z) (tableKey : string).

Record Partial := {
  p_rowCount : Z;
  p_tokenCount : Z
}.

(** [received] is a [Map] that is iterated: its entries are kept in
    insertion order, [set_prop] being [Map.prototype.set]. *)
Record ChunkAggregator := {
  ca_schema : string;
  ca_table : string;
  totalChunks : Z;
  received : list (string * Partial)
}.

Definition tableKey (schema table : string) : string :=
  schema +:+ "." +:+ table.

(** [Math.ceil(rowCount / chunkSize)] on integers, for [chunkSize > 0]. *)
Definition ceil_div (a b : Z) : Z := - ((- a) / b).

(** The chunk items pushed by the inner [for] loop, [i] from 0 below
    [numChunks]. *)
Definition chunkItems (tableInfo : TableInfo) (key : string)
    (numChunks chunkSize : Z) : list QueueItem :=
  map (fun i : nat =>
         QChunk tableInfo (key +:+ "#" +:+ number_toString (Z.of_nat i))
                (Z.of_nat i * chunkSize) chunkSize key)
      (seq 0 (Z.to_nat numChunks)).

Definition buildQueueStep (rowCounts : gmap string Z)
    (largeTableThreshold chunkSize : Z)
    (acc : list QueueItem * gmap string Z) (tableInfo : TableInfo)
    : list QueueItem * gmap string Z :=
  let '(queue, chunkCounts) := acc in
  let key := tableKey (ti_schema tableInfo) (ti_table tableInfo) in
  let rowCount := default 0 (rowCounts !! key) in
  if (largeTableThreshold <=? rowCount) && (0 <? chunkSize) then
    let numChunks := ceil_div rowCount chunkSize in
    (queue ++ chunkItems tableInfo key numChunks chunkSize,
     <[key := numChunks]> chunkCounts)
  else (queue ++ [QTable tableInfo], chunkCounts).

Definition buildQueue (tables : list TableInfo) (rowCounts : gmap string Z)
    (largeTableThreshold chunkSize : Z)
    : list QueueItem * gmap string Z :=
  fold_left (buildQueueStep rowCounts largeTableThreshold chunkSize)
            tables ([], ∅).

(** The [chunk-result] message of a worker. *)
Record ChunkResult := {
  cr_schema : string;
  cr_table : string;
  cr_chunkId : string;
  cr_rowCount : Z;
  cr_tokenCount : Z
}.

(** The callbacks the coordinator invokes, in the order of invocation. *)
Inductive Event :=
| OnChunkComplete (schema table : string) (completedChunks totalChunks : Z)
| OnTableComplete (result : TableTokenEstimate).

(** The part of the coordinator's state [handleChunkResult] touches. *)
Record Coordinator := {
  aggregators : gmap string ChunkAggregator;
  results : list TableTokenEstimate;
  events : list Event
}.

Definition sumPartials (received : list (string * Partial)) : Z * Z :=
  fold_left (fun totals entry =>
               (totals.1 + p_rowCount entry.2, totals.2 + p_tokenCount entry.2))
            received (0, 0).

Definition handleChunkResult (chunkCounts : gmap string Z)
    (data : ChunkResult) (st : Coordinator) : Coordinator :=
  let key := tableKey (cr_schema data) (cr_table data) in
  let totalChunks := default 1 (chunkCounts !! key) in
  let agg :=
    match aggregators st !! key with
    | Some agg => agg
    | None => {| ca_schema := cr_schema data; ca_table := cr_table data;
                 totalChunks := totalChunks; received := [] |}
    end in
  let agg :=
    {| ca_schema := ca_schema agg; ca_table := ca_table agg;
       totalChunks := ThreadPool.totalChunks agg;
       received :=
         set_prop (cr_chunkId data)
           {| p_rowCount := cr_rowCount data; p_tokenCount := cr_tokenCount data |}
           (received agg) |} in
  let events1 :=
    events st ++
    [OnChunkComplete (cr_schema data) (cr_table data)
       (Z.of_nat (length (received agg))) totalChunks] in
  if Z.of_nat (length (received agg)) =? ThreadPool.totalChunks agg then
    let '(totalRows, totalTokens) := sumPartials (received agg) in
    let aggregated :=
      {| te_schema := ca_schema agg; te_table := ca_table agg;
         te_rowCount := totalRows; te_tokenCount := totalTokens |} in
    {| aggregators := delete key (aggregators st);
       results := results st ++ [aggregated];
       events := events1 ++ [OnTableComplete aggregated] |}
  else
    {| aggregators := <[key := agg]> (aggregators st);
       results := results st;
       events := events1 |}.

(** The coordinator handles messages one at a time. *)
Definition handleChunkResults (chunkCounts : gmap string Z)
    (arrivals : list ChunkResult) (st : Coordinator) : Coordinator :=
  fold_left (fun s data => handleChunkResult chunkCounts data s) arrivals st.

End ThreadPool.

(* ===================================================================== *)
(** * The specification's wording, and sample data *)
(* ===================================================================== *)

Module Spec.
Import State Graph.

(** "This run succeeded for that table": no fatal error and a present,
    non-failed result. *)
Definition run_succeeded_for_table (fatalError : option string)
    (result : option TableRunResult) : Prop :=
  fatalError = None /\ exists r, result = Some r /\ status r <> failed.

(** The three fields as the specification describes them: those of the
    current run after a success, those of the existing record otherwise. *)
Definition last_success_fields_as_specified (snapshot : TableSnapshot)
    (result : option TableRunResult) (existing : option ControlCatalogRecord)
    (runId finishedAt : string) (fatalError : option string) : Prop :=
  let record :=
    buildCatalogRecord snapshot result existing runId finishedAt fatalError in
  (run_succeeded_for_table fatalError result ->
     last_success_run_id record = Some runId
     /\ last_success_at record = Some finishedAt
     /\ last_mode record = tr_mode <$> result)
  /\ (~ run_succeeded_for_table fatalError result ->
     last_success_run_id record = existing ≫= last_success_run_id
     /\ last_success_at record = existing ≫= last_success_at
     /\ last_mode record = existing ≫= last_mode).

(** A stored string that is empty is read back as [null]. *)
Definition carried (field : option string) : option string :=
  match field with
  | Some s => if decide (s = "") then None else Some s
  | None => None
  end.

(** What the specification says of the result of one plan, processed in
    the state [st] and leaving the state [st']: a skipped plan gives a
    skipped result with no rows and leaves the state as it is, the handler
    not being called; a full plan calls the handler in [st], leaves the
    state the handler leaves, and gives the handler's row count as a
    reindexed result, or the message of what the handler threw as a failed
    result. *)
Definition plan_result {S : Type}
    (onFullTable : TablePlan -> S -> S * (Thrown + Z))
    (p : TablePlan) (st : S) (r : TableRunResult) (st' : S) : Prop :=
  tr_schema r = tp_schema p /\ tr_table r = tp_table p /\ tr_mode r = tp_mode p
  /\ match tp_mode p with
     | skip =>
         st' = st
         /\ status r = skipped /\ rowsUpserted r = 0 /\ error r = None
     | full =>
         st' = (onFullTable p st).1
         /\ match (onFullTable p st).2 with
            | inr n => status r = reindexed /\ rowsUpserted r = n /\ error r = None
            | inl e => status r = failed /\ rowsUpserted r = 0
                       /\ error r = Some (errorMessage e)
            end
     end.

(** The results of a list of plans processed one after the other, each in
    the state the one before it left. *)
Inductive plan_results {S : Type}
    (onFullTable : TablePlan -> S -> S * (Thrown + Z))
    : S -> list TablePlan -> list TableRunResult -> S -> Prop :=
| plan_results_nil st : plan_results onFullTable st [] [] st
| plan_results_cons st st1 st' p ps r rs :
    plan_result onFullTable p st r st1 ->
    plan_results onFullTable st1 ps rs st' ->
    plan_results onFullTable st (p :: ps) (r :: rs) st'.

Definition is_full (p : TablePlan) : bool := bool_decide (tp_mode p = full).

Definition has_status (s : TableResultStatus) (r : TableRunResult) : bool :=
  bool_decide (status r = s).

Definition sum_Z (l : list Z) : Z := fold_right Z.add 0 l.

(** The error entry of a failed result. *)
Definition error_entry (r : TableRunResult) : RunError :=
  {| re_tableKey := tableKey (tr_schema r) (tr_table r);
     message := Js.or_default (error r) "unknown_table_error" |}.

End Spec.

Module SchedulerSpec.
Import State JsLib ThreadPool Spec.

Definition key_of (data : ChunkResult) : string :=
  tableKey (cr_schema data) (cr_table data).

(** The chunk results of the table with key [k] among the arrivals, in
    their order of arrival. *)
Definition table_chunks (k : string) (arrivals : list ChunkResult)
    : list ChunkResult :=
  filter (fun data => key_of data = k) arrivals.

(** The table-complete callbacks fired for the table with key [k]. *)
Definition completion_of (k : string) (e : Event) : option TableTokenEstimate :=
  match e with
  | OnTableComplete r =>
      if decide (tableKey (te_schema r) (te_table r) = k) then Some r else None
  | OnChunkComplete _ _ _ _ => None
  end.

Definition completions_of (k : string) (evs : list Event)
    : list TableTokenEstimate :=
  omap (completion_of k) evs.

(** Every aggregator is filed under the key of its own table. *)
Definition coordinator_wf (st : Coordinator) : Prop :=
  forall k agg, aggregators st !! k = Some agg ->
                tableKey (ca_schema agg) (ca_table agg) = k.

(** A chunk result that names the table [schema].[table]. *)
Definition own (schema table : string) (data : ChunkResult) : Prop :=
  cr_schema data = schema /\ cr_table data = table.

Definition entry_of (data : ChunkResult) : string * Partial :=
  (cr_chunkId data,
   {| p_rowCount := cr_rowCount data; p_tokenCount := cr_tokenCount data |}).

(** The aggregator of the table after the chunk results [got] arrived and
    before the table is complete. *)
Definition pending (schema table : string) (N : Z) (st : Coordinator)
    (got : list ChunkResult) : Prop :=
  match got with
  | [] => aggregators st !! tableKey schema table = None
  | _ => aggregators st !! tableKey schema table
         = Some {| ca_schema := schema; ca_table := table; totalChunks := N;
                   received := map entry_of got |}
  end.

Definition aggregate_of (schema table : string) (chunks : list ChunkResult)
    : TableTokenEstimate :=
  {| te_schema := schema; te_table := table;
     te_rowCount := sum_Z (map cr_rowCount chunks);
     te_tokenCount := sum_Z (map cr_tokenCount chunks) |}.

Definition initialCoordinator : Coordinator :=
  {| aggregators := ∅; results := []; events := [] |}.

End SchedulerSpec.

Module CanonSpec.
Import State JsLib Hashing.

(** Two values are equal up to the insertion order of object keys: scalars
    are equal, arrays agree element by element in the same order, and
    objects have the same (pairwise distinct) keys with values that agree,
    in any order. *)
Inductive key_order_equiv : value -> value -> Prop :=
| koe_undefined : key_order_equiv VUndefined VUndefined
| koe_null : key_order_equiv VNull VNull
| koe_boolean b : key_order_equiv (VBoolean b) (VBoolean b)
| koe_number x : key_order_equiv (VNumber x) (VNumber x)
| koe_string s : key_order_equiv (VString s) (VString s)
| koe_bigint n : key_order_equiv (VBigInt n) (VBigInt n)
| koe_date iso : key_order_equiv (VDate iso) (VDate iso)
| koe_array items1 items2 :
    Forall2 key_order_equiv items1 items2 ->
    key_order_equiv (VArray items1) (VArray items2)
| koe_object props1 props2 reordered :
    NoDup (map fst props1) ->
    Forall2 (fun kv1 kv2 => kv1.1 = kv2.1 /\ key_order_equiv kv1.2 kv2.2)
            props1 reordered ->
    Permutation reordered props2 ->
    key_order_equiv (VObject props1) (VObject props2).

(** A value all of whose numbers are integers: it holds no [NaN], no
    infinity and no negative zero. *)
Fixpoint integer_numbers (v : value) : bool :=
  match v with
  | VNumber (Int _) => true
  | VNumber _ => false
  | VArray items => forallb integer_numbers items
  | VObject props => forallb (fun kv => integer_numbers kv.2) props
  | _ => true
  end.

(** The entry [sortJsonValue] computes for one property. *)
Definition sortedProp (kv : string * value) : string * JsonValue :=
  (kv.1, sortJsonValue kv.2).

(** The fields of a column that [computeSchemaHash] projects. *)
Definition same_definition (c1 c2 : ColumnInfo) : Prop :=
  columnName c1 = columnName c2
  /\ dataType c1 = dataType c2
  /\ isNullable c1 = isNullable c2
  /\ columnDefault c1 = columnDefault c2
  /\ pkPosition c1 = pkPosition c2.

(** The specification's "varying the primary key changes the id": two keys
    that are not equal up to key order are hashed from different strings. *)
Definition key_change_changes_id_as_specified (schema table : string)
    (primaryKey1 primaryKey2 : list (string * value)) : Prop :=
  ~ key_order_equiv (VObject primaryKey1) (VObject primaryKey2) ->
  Transform.docIdInput schema table primaryKey1
  <> Transform.docIdInput schema table primaryKey2.

End CanonSpec.

(** The shape of the text [JSON.stringify] writes, and how to read one
    quoted character back; they serve to state that the text determines the
    value. *)
Module JsonText.
Import JsLib Hashing.

Definition starts_nondigit (r : string) : Prop :=
  match r with
  | EmptyString => True
  | String c _ => digit_value c = None
  end.

Definition starts_digit (r : string) : Prop :=
  match r with
  | EmptyString => False
  | String c _ => is_Some (digit_value c)
  end.

(** The kind of JSON text a first character announces; 0 for a character
    no value starts with. *)
Definition char_class (c : ascii) : nat :=
  let n := N_of_ascii c in
  if (n =? 110)%N then 1                                   (* n: null *)
  else if ((n =? 116) || (n =? 102))%N then 2              (* t, f: booleans *)
  else if ((n =? 45) || ((48 <=? n) && (n <=? 57)))%N then 3 (* -, digits *)
  else if (n =? 34)%N then 4                               (* quote *)
  else if (n =? 91)%N then 5                               (* [ *)
  else if (n =? 123)%N then 6                              (* { *)
  else 0.

Definition head_class (s : string) : nat :=
  match s with
  | EmptyString => 0
  | String c _ => char_class c
  end.

(** What [JSON.stringify] writes of a value: a number that is not finite
    is written as [null], and negative zero as [0]. *)
Inductive Printed :=
| PNull
| PBoolean (b : bool)
| PNumber (n : Z)
| PString (s : string)
| PArray (items : list Printed)
| PObject (props : list (string * Printed)).

Definition printed_number (x : number) : Printed :=
  match x with
  | Int n => PNumber n
  | NaN | Infinity | NegInfinity => PNull
  | NegZero => PNumber 0
  end.

Fixpoint printed (j : JsonValue) : Printed :=
  match j with
  | JNull => PNull
  | JBoolean b => PBoolean b
  | JNumber x => printed_number x
  | JString s => PString s
  | JArray items => PArray (map printed items)
  | JObject props => PObject (map (fun kv => (kv.1, printed kv.2)) props)
  end.

(** The text of a printed value. *)
Fixpoint print (j : Printed) : string :=
  match j with
  | PNull => "null"
  | PBoolean true => "true"
  | PBoolean false => "false"
  | PNumber n => number_toString n
  | PString s => quote s
  | PArray items => "[" +:+ join "," (map print items) +:+ "]"
  | PObject props =>
      "{" +:+ join ","
               (map (fun kv => quote kv.1 +:+ ":" +:+ print kv.2) props)
          +:+ "}"
  end.

(** A value without a number that [JSON.stringify] rewrites. *)
Definition plain_number (x : number) : bool :=
  match x with
  | Int _ => true
  | _ => false
  end.

Fixpoint plain (j : JsonValue) : bool :=
  match j with
  | JNumber x => plain_number x
  | JArray items => forallb plain items
  | JObject props => forallb (fun kv => plain kv.2) props
  | _ => true
  end.

(** A printed value, read as a value. *)
Fixpoint unprinted (j : Printed) : JsonValue :=
  match j with
  | PNull => JNull
  | PBoolean b => JBoolean b
  | PNumber n => JNumber (Int n)
  | PString s => JString s
  | PArray items => JArray (map unprinted items)
  | PObject props => JObject (map (fun kv => (kv.1, unprinted kv.2)) props)
  end.

Definition value_class (j : Printed) : nat :=
  match j with
  | PNull => 1
  | PBoolean _ => 2
  | PNumber _ => 3
  | PString _ => 4
  | PArray _ => 5
  | PObject _ => 6
  end.

Definition hex_value (c : ascii) : N :=
  let n := N_of_ascii c in
  if (n <? 58)%N then (n - 48)%N else (n - 87)%N.

(** Reads back the character at the head of an escaped string. *)
Definition unescape_head (s : string) : option (ascii * string) :=
  match s with
  | EmptyString => None
  | String c rest =>
      if negb (Ascii.eqb c backslash) then Some (c, rest)
      else match rest with
           | EmptyString => None
           | String e rest' =>
               if Ascii.eqb e dquote then Some (dquote, rest')
               else if Ascii.eqb e backslash then Some (backslash, rest')
               else if Ascii.eqb e "b" then Some (ascii_of_nat 8, rest')
               else if Ascii.eqb e "t" then Some (ascii_of_nat 9, rest')
               else if Ascii.eqb e "n" then Some (ascii_of_nat 10, rest')
               else if Ascii.eqb e "f" then Some (ascii_of_nat 12, rest')
               else if Ascii.eqb e "r" then Some (ascii_of_nat 13, rest')
               else if Ascii.eqb e "u" then
                 match rest' with
                 | String _ (String _ (String h (String l rest''))) =>
                     Some (ascii_of_N (hex_value h * 16 + hex_value l), rest'')
                 | _ => None
                 end
               else None
           end
  end.

(** What follows the first element of a joined list before the closing
    character [close]. *)
Definition join_tail (close : ascii) (parts : list string) (r : string) : string :=
  match parts with
  | [] => String close r
  | _ => String "," (join "," parts +:+ String close r)
  end.

(** The text of one property of an object. *)
Definition propertyText (kv : string * Printed) : string :=
  quote kv.1 +:+ ":" +:+ print kv.2.

End JsonText.

Module Samples.
Import State Graph JsLib.

Definition sampleCatalog (schemaHash tableHash : string) : ControlCatalogRecord :=
  {| cc_schema := "public"; cc_table := "users";
     schema_hash := schemaHash; table_hash := tableHash;
     row_count := 10; max_updated_at := None;
     last_success_run_id := Some "run_0"; last_success_at := Some "t0";
     last_mode := Some skip; last_error := None |}.

Definition sampleSnapshot : TableSnapshot :=
  {| ts_schema := "public"; ts_table := "users"; rowCount := 10;
     maxUpdatedAt := None; maxPkLexicographic := Some "10";
     schemaHash := "s"; tableHash := "t" |}.

Definition failedFullResult : TableRunResult :=
  {| tr_schema := "public"; tr_table := "users"; tr_mode := full;
     status := failed; rowsUpserted := 0; error := Some "table failed" |}.

Definition reindexedResult5 : TableRunResult :=
  {| tr_schema := "public"; tr_table := "users"; tr_mode := full;
     status := reindexed; rowsUpserted := 5; error := None |}.

Definition usersInfo : TableInfo :=
  {| ti_schema := "public"; ti_table := "users";
     columns :=
       [ {| columnName := "id"; dataType := "integer"; isNullable := false;
            columnDefault := None; ordinalPosition := 1; pkPosition := Some 1 |};
         {| columnName := "name"; dataType := "character varying";
            isNullable := false; columnDefault := None; ordinalPosition := 2;
            pkPosition := None |};
         {| columnName := "secret"; dataType := "text"; isNullable := true;
            columnDefault := None; ordinalPosition := 3; pkPosition := None |} ];
     pkColumns := ["id"]; updatedAtColumn := None |}.

Definition chunkResult (chunkId : string) (rows tokens : Z)
    : ThreadPool.ChunkResult :=
  {| ThreadPool.cr_schema := "public"; ThreadPool.cr_table := "users";
     ThreadPool.cr_chunkId := chunkId;
     ThreadPool.cr_rowCount := rows; ThreadPool.cr_tokenCount := tokens |}.

Definition threeChunks : gmap string Z := {[ "public.users" := 3 ]}.

(** The row of the transform test. *)
Definition aliceRow : list (string * Hashing.value) :=
  [ ("id", Hashing.VNumber 1); ("name", Hashing.VString "Alice");
    ("secret", Hashing.VString "token") ].

(** A row whose only textual column that is not excluded holds [null]. *)
Definition secretRow : list (string * Hashing.value) :=
  [ ("id", Hashing.VNumber 1); ("name", Hashing.VNull);
    ("secret", Hashing.VString "token") ].

(** The same object written with its keys in two orders, at both levels. *)
Definition nestedAB : Hashing.value :=
  Hashing.VObject
    [ ("a", Hashing.VNumber 1);
      ("b", Hashing.VObject [ ("x", Hashing.VString "p"); ("y", Hashing.VNull) ]) ].

Definition nestedBA : Hashing.value :=
  Hashing.VObject
    [ ("b", Hashing.VObject [ ("y", Hashing.VNull); ("x", Hashing.VString "p") ]);
      ("a", Hashing.VNumber 1) ].

Definition column (name type : string) (ordinal : Z) : ColumnInfo :=
  {| columnName := name; dataType := type; isNullable := false;
     columnDefault := None; ordinalPosition := ordinal; pkPosition := None |}.

Definition plan (table : string) (mode : TableMode) : TablePlan :=
  {| tp_schema := "public"; tp_table := table; tp_mode := mode;
     tp_reason := "no_previous_catalog" |}.

(** The handler of the integration test: [users] yields 5 rows, any other
    table throws. *)
Definition testHandler (p : TablePlan) (st : unit) : unit * (Thrown + Z) :=
  if String.eqb (tp_table p) "users" then (st, inr 5)
  else (st, inl (ThrownError "table failed")).

End Samples.


(* ===================================================================== *)
(** * Wording of the further properties *)
(* ===================================================================== *)

Module MoreSpec.
Import State JsLib Hashing.

(** The order [computeSchemaHash] sorts the columns by. *)
Definition ordinal_order (c1 c2 : ColumnInfo) : Prop :=
  ordinalPosition c1 <= ordinalPosition c2.

(** A column yields a line of the page content: it is not excluded (names
    compared in lower case), it is textual unless every column is asked
    for, and its value in the row does not normalise to the empty string. *)
Definition yields_line (row : list (string * value))
    (textColumnsMode : TextColumnsMode) (excludedColumns : list string)
    (column : ColumnInfo) : bool :=
  forallb (fun e => negb (String.eqb (toLowerCase e)
                                     (toLowerCase (columnName column))))
          excludedColumns
  && match textColumnsMode with
     | all => true
     | auto => Transform.isTextualColumn (dataType column)
     end
  && negb (String.eqb
             (Transform.normalizeValue
                (Transform.row_get row (columnName column))) "").

Definition line_of (row : list (string * value)) (column : ColumnInfo) : string :=
  columnName column +:+ ": "
  +:+ Transform.normalizeValue (Transform.row_get row (columnName column)).

(** The message of the error thrown for a missing primary-key column. *)
Definition missing_pk_message (tableInfo : TableInfo) (column : string) : string :=
  "Missing PK column " +:+ column +:+ " in "
  +:+ ti_schema tableInfo +:+ "." +:+ ti_table tableInfo.

(** What identifies the document a row is turned into. *)
Definition document_identity (r : string + Transform.DbSyncDocument)
    : string + (string * list (string * value) * string) :=
  match r with
  | inl thrown => inl thrown
  | inr doc =>
      inr (Transform.docId doc,
           Transform.pk (Transform.metadata (Transform.document doc)),
           Transform.pk_hash (Transform.metadata (Transform.document doc)))
  end.

(** The row has the column. *)
Definition present (row : list (string * value)) (column : string) : Prop :=
  is_Some (get_prop column row).

(** A value whose integer numbers are below [10^21] in magnitude, where
    [String(n)] and [JSON.stringify(n)] write the decimal digits. *)
Definition decimal_number (x : number) : bool :=
  match x with
  | Int n => Z.abs n <? 10 ^ 21
  | _ => true
  end.

Fixpoint decimal_numbers (v : value) : bool :=
  match v with
  | VNumber x => decimal_number x
  | VArray items => forallb decimal_numbers items
  | VObject props => forallb (fun kv => decimal_numbers kv.2) props
  | _ => true
  end.

Fixpoint has_char (c : ascii) (s : string) : bool :=
  match s with
  | EmptyString => false
  | String c' s' => Ascii.eqb c' c || has_char c s'
  end.

End MoreSpec.

(* ===================================================================== *)
(** * db_sync_graph/graph.ts: the planning stage *)
(* ===================================================================== *)

Module Planning.
Import State Graph.

(** [new Map(tableSnapshots.map(...))]: a later snapshot of a key replaces
    an earlier one. *)
Definition snapshotByTable (tableSnapshots : list TableSnapshot)
    : gmap string TableSnapshot :=
  fold_left
    (fun m snapshot =>
       <[tableKey (ts_schema snapshot) (ts_table snapshot) := snapshot]> m)
    tableSnapshots ∅.

Definition buildTablePlans (tableInfos : list TableInfo)
    (tableSnapshots : list TableSnapshot)
    (catalogByTable : gmap string (option ControlCatalogRecord))
    : list TablePlan :=
  let snapshotByTable := snapshotByTable tableSnapshots in
  map (fun tableInfo =>
         let key := tableKey (ti_schema tableInfo) (ti_table tableInfo) in
         match snapshotByTable !! key with
         | None =>
             {| tp_schema := ti_schema tableInfo;
                tp_table := ti_table tableInfo;
                tp_mode := skip;
                tp_reason := "snapshot_missing" |}
         | Some snapshot =>
             let decision :=
               decideTableMode (mjoin (catalogByTable !! key))
                 (schemaHash snapshot) (tableHash snapshot)
                 (0 <? Z.of_nat (length (pkColumns tableInfo))) in
             {| tp_schema := ti_schema tableInfo;
                tp_table := ti_table tableInfo;
                tp_mode := decision.1;
                tp_reason := decision.2 |}
         end)
      tableInfos.

End Planning.

(* ===================================================================== *)
(** * db/postgres.ts *)
(* ===================================================================== *)

Module Postgres.
Import State JsLib Hashing Graph.

(** Every double quote of the identifier is written twice. *)
Fixpoint replace_quotes (identifier : string) : string :=
  match identifier with
  | EmptyString => EmptyString
  | String c rest =>
      if Ascii.eqb c dquote
      then String dquote (String dquote (replace_quotes rest))
      else String c (replace_quotes rest)
  end.

Definition quoteIdentifier (identifier : string) : string :=
  String dquote (replace_quotes identifier +:+ String dquote EmptyString).

(** [new Map(columns.map(...))] of [findUpdatedAtColumn]. *)
Definition byLowerName (columns : list ColumnInfo) : gmap string string :=
  fold_left
    (fun m column => <[toLowerCase (columnName column) := columnName column]> m)
    columns ∅.

Fixpoint findUpdatedAtLoop (byLowerName : gmap string string)
    (updatedAtCandidates : list string) : option string :=
  match updatedAtCandidates with
  | [] => None
  | candidate :: rest =>
      let resolved := byLowerName !! toLowerCase candidate in
      if Js.truthy resolved then resolved
      else findUpdatedAtLoop byLowerName rest
  end.

Definition findUpdatedAtColumn (columns : list ColumnInfo)
    (updatedAtCandidates : list string) : option string :=
  findUpdatedAtLoop (byLowerName columns) updatedAtCandidates.

Record ColumnRow := {
  column_name : string;
  data_type : string;
  is_nullable : string;
  column_default : option string;
  ordinal_position : Z
}.

Record PrimaryKeyRow := {
  pk_column_name : string;
  pk_position : Z
}.

(** [discoverTables].  The three queries are the database's answers: the
    base tables of a schema in name order, the columns of a table and the
    columns of its primary key; a query may fail. *)
Section Discover.
Variable queryTables : string -> Thrown + list string.
Variable queryColumns : string -> string -> Thrown + list ColumnRow.
Variable queryPrimaryKey : string -> string -> Thrown + list PrimaryKeyRow.

Definition pkPositions (primaryKeyRows : list PrimaryKeyRow) : gmap string Z :=
  fold_left (fun m pk => <[pk_column_name pk := pk_position pk]> m)
    primaryKeyRows ∅.

Definition columnInfo (pkPositions : gmap string Z) (columnRow : ColumnRow)
    : ColumnInfo :=
  {| columnName := column_name columnRow;
     dataType := data_type columnRow;
     isNullable := String.eqb (is_nullable columnRow) "YES";
     columnDefault := column_default columnRow;
     ordinalPosition := ordinal_position columnRow;
     pkPosition := pkPositions !! column_name columnRow |}.

Fixpoint discoverLoop (sourceSchema : string) (includeAll : bool)
    (allowlist blocklist : gset string) (updatedAtCandidates : list string)
    (tableRows : list string) (tableInfos : list TableInfo)
    : Thrown + list TableInfo :=
  match tableRows with
  | [] => inr tableInfos
  | table_name :: rest =>
      let tableName := toLowerCase table_name in
      if negb includeAll && negb (bool_decide (tableName ∈ allowlist))
      then discoverLoop sourceSchema includeAll allowlist blocklist
             updatedAtCandidates rest tableInfos
      else if bool_decide (tableName ∈ blocklist)
      then discoverLoop sourceSchema includeAll allowlist blocklist
             updatedAtCandidates rest tableInfos
      else
        match queryColumns sourceSchema table_name with
        | inl thrown => inl thrown
        | inr columnRows =>
            match queryPrimaryKey sourceSchema table_name with
            | inl thrown => inl thrown
            | inr primaryKeyRows =>
                let columns :=
                  map (columnInfo (pkPositions primaryKeyRows)) columnRows in
                let updatedAtColumn :=
                  findUpdatedAtColumn columns updatedAtCandidates in
                discoverLoop sourceSchema includeAll allowlist blocklist
                  updatedAtCandidates rest
                  (tableInfos ++
                   [ {| ti_schema := sourceSchema;
                        ti_table := table_name;
                        columns := columns;
                        pkColumns := map pk_column_name primaryKeyRows;
                        updatedAtColumn := updatedAtColumn |} ])
            end
        end
  end.

Definition discoverTables (sourceSchema : string)
    (tableAllowlist : list string) (tableBlocklist : option (list string))
    (updatedAtCandidates : list string) : Thrown + list TableInfo :=
  match queryTables sourceSchema with
  | inl thrown => inl thrown
  | inr discoveredTables =>
      let includeAll := bool_decide ("*" ∈ tableAllowlist) in
      let allowlist : gset string :=
        list_to_set (map toLowerCase tableAllowlist) in
      let blocklist : gset string :=
        list_to_set (map toLowerCase (default [] tableBlocklist)) in
      discoverLoop sourceSchema includeAll allowlist blocklist
        updatedAtCandidates discoveredTables []
  end.
End Discover.

End Postgres.

(* ===================================================================== *)
(** * cost_estimator/estimate_worker.ts *)
(* ===================================================================== *)

Module EstimateWorker.
Import State JsLib Hashing Graph Transform.

Record ProcessPayload := {
  pp_tableInfo : TableInfo;
  pp_dbUrl : string;
  pp_textColumnsMode : TextColumnsMode;
  pp_excludedColumns : list string;
  pp_batchSize : Z
}.

Inductive WorkerRequest :=
| Process (payload : ProcessPayload)
| ProcessChunk (payload : ProcessPayload) (chunkId : string)
               (offsetStart rowLimit : Z)
| Shutdown.

Inductive WorkerResponse :=
| Ready
| ResultMsg (data : ThreadPool.TableTokenEstimate)
| ChunkResultMsg (data : ThreadPool.ChunkResult)
| ErrorMsg (schema table error : string).

Section Worker.
Variable sha256Hex : string -> string.
(** [fetchTableRows] of a table, with [limit] and [offset]. *)
Variable fetchTableRows :
  TableInfo -> Z -> Z -> Thrown + list (list (string * value)).
(** [cachedEncoder.encode(text).length] *)
Variable encodeLength : string -> Z.

Definition countTokens (texts : list string) : Z :=
  fold_left (fun total text => total + encodeLength text) texts 0.

(** The [for] loop over the rows of one page. *)
Fixpoint transformRows (tableInfo : TableInfo)
    (textColumnsMode : TextColumnsMode) (excludedColumns : list string)
    (rows : list (list (string * value))) (pageContents : list string)
    : Thrown + list string :=
  match rows with
  | [] => inr pageContents
  | row :: rest =>
      match transformRowToDocument sha256Hex row tableInfo "cost-estimate"
              textColumnsMode excludedColumns with
      | inl thrown => inl (ThrownError thrown)
      | inr item =>
          transformRows tableInfo textColumnsMode excludedColumns rest
            (pageContents ++ [pageContent (document item)])
      end
  end.

(** The [while (true)] loop of [fetchAndTransform]; [None] when the fuel
    runs out. *)
Fixpoint fetchAndTransformLoop (fuel : nat) (tableInfo : TableInfo)
    (textColumnsMode : TextColumnsMode) (excludedColumns : list string)
    (batchSize : Z) (rowLimit : option Z) (offset fetched : Z)
    (pageContents : list string) : option (Thrown + list string) :=
  match fuel with
  | O => None
  | S fuel =>
      let limit :=
        match rowLimit with
        | Some rowLimit => Z.min batchSize (rowLimit - fetched)
        | None => batchSize
        end in
      if limit <=? 0 then Some (inr pageContents)
      else
        match fetchTableRows tableInfo limit offset with
        | inl thrown => Some (inl thrown)
        | inr rows =>
            if Z.of_nat (length rows) =? 0 then Some (inr pageContents)
            else
              match transformRows tableInfo textColumnsMode excludedColumns
                      rows pageContents with
              | inl thrown => Some (inl thrown)
              | inr pageContents =>
                  let fetched := fetched + Z.of_nat (length rows) in
                  let offset := offset + Z.of_nat (length rows) in
                  if match rowLimit with
                     | Some rowLimit => rowLimit <=? fetched
                     | None => false
                     end
                  then Some (inr pageContents)
                  else fetchAndTransformLoop fuel tableInfo textColumnsMode
                         excludedColumns batchSize rowLimit offset fetched
                         pageContents
              end
        end
  end.

Definition fetchAndTransform (fuel : nat) (tableInfo : TableInfo)
    (textColumnsMode : TextColumnsMode) (excludedColumns : list string)
    (batchSize offsetStart : Z) (rowLimit : option Z)
    : option (Thrown + list string) :=
  fetchAndTransformLoop fuel tableInfo textColumnsMode excludedColumns
    batchSize rowLimit offsetStart 0 [].

Definition processTable (fuel : nat) (payload : ProcessPayload)
    : option (Thrown + ThreadPool.TableTokenEstimate) :=
  match fetchAndTransform fuel (pp_tableInfo payload)
          (pp_textColumnsMode payload) (pp_excludedColumns payload)
          (pp_batchSize payload) 0 None with
  | None => None
  | Some (inl thrown) => Some (inl thrown)
  | Some (inr pageContents) =>
      let tokenCount := countTokens pageContents in
      Some (inr {| ThreadPool.te_schema := ti_schema (pp_tableInfo payload);
                   ThreadPool.te_table := ti_table (pp_tableInfo payload);
                   ThreadPool.te_rowCount := Z.of_nat (length pageContents);
                   ThreadPool.te_tokenCount := tokenCount |})
  end.

Definition processChunk (fuel : nat) (payload : ProcessPayload)
    (chunkId : string) (offsetStart rowLimit : Z)
    : option (Thrown + ThreadPool.ChunkResult) :=
  match fetchAndTransform fuel (pp_tableInfo payload)
          (pp_textColumnsMode payload) (pp_excludedColumns payload)
          (pp_batchSize payload) offsetStart (Some rowLimit) with
  | None => None
  | Some (inl thrown) => Some (inl thrown)
  | Some (inr pageContents) =>
      let tokenCount := countTokens pageContents in
      Some (inr {| ThreadPool.cr_schema := ti_schema (pp_tableInfo payload);
                   ThreadPool.cr_table := ti_table (pp_tableInfo payload);
                   ThreadPool.cr_chunkId := chunkId;
                   ThreadPool.cr_rowCount := Z.of_nat (length pageContents);
                   ThreadPool.cr_tokenCount := tokenCount |})
  end.

(** The message handler: the response posted for a request, if any. *)
Definition onMessage (fuel : nat) (msg : WorkerRequest)
    : option (option WorkerResponse) :=
  match msg with
  | Process payload =>
      match processTable fuel payload with
      | None => None
      | Some (inr result) => Some (Some (ResultMsg result))
      | Some (inl err) =>
          Some (Some (ErrorMsg (ti_schema (pp_tableInfo payload))
                        (ti_table (pp_tableInfo payload)) (errorMessage err)))
      end
  | ProcessChunk payload chunkId offsetStart rowLimit =>
      match processChunk fuel payload chunkId offsetStart rowLimit with
      | None => None
      | Some (inr result) => Some (Some (ChunkResultMsg result))
      | Some (inl err) =>
          Some (Some (ErrorMsg (ti_schema (pp_tableInfo payload))
                        (ti_table (pp_tableInfo payload)) (errorMessage err)))
      end
  | Shutdown => Some None
  end.
End Worker.

End EstimateWorker.

(* ===================================================================== *)
(** * cost_estimator/thread_pool.ts: the requests sent to the workers *)
(* ===================================================================== *)

Module Dispatch.
Import State ThreadPool EstimateWorker.

(** The message [sendNextFromBatch] posts for a queue item. *)
Definition requestOf (dbUrl : string) (textColumnsMode : TextColumnsMode)
    (excludedColumns : list string) (batchSize : Z) (item : QueueItem)
    : WorkerRequest :=
  match item with
  | QTable tableInfo =>
      Process {| pp_tableInfo := tableInfo; pp_dbUrl := dbUrl;
                 pp_textColumnsMode := textColumnsMode;
                 pp_excludedColumns := excludedColumns;
                 pp_batchSize := batchSize |}
  | QChunk tableInfo chunkId offsetStart rowLimit _ =>
      ProcessChunk {| pp_tableInfo := tableInfo; pp_dbUrl := dbUrl;
                      pp_textColumnsMode := textColumnsMode;
                      pp_excludedColumns := excludedColumns;
                      pp_batchSize := batchSize |}
                   chunkId offsetStart rowLimit
  end.

End Dispatch.

(* ===================================================================== *)
(** * Notions used to state further properties *)
(* ===================================================================== *)

Module PlanSpec.
Import State JsLib Hashing Graph.

(** The snapshot the planner uses for a key: the last one taken of it. *)
Definition snapshot_of (key : string) (tableSnapshots : list TableSnapshot)
    : option TableSnapshot :=
  last (filter (fun snapshot =>
                  tableKey (ts_schema snapshot) (ts_table snapshot) = key)
          tableSnapshots).

(** The stored record differs from the snapshot in one of the two hashes. *)
Definition hashes_differ (previous : ControlCatalogRecord)
    (snapshot : TableSnapshot) : Prop :=
  schema_hash previous <> schemaHash snapshot
  \/ table_hash previous <> tableHash snapshot.

Definition is_skip (p : TablePlan) : bool := bool_decide (tp_mode p = skip).

(** PostgreSQL's reading of a quoted identifier at the head of a text: the
    opening quote, then characters up to the first quote that is not
    doubled, a doubled quote standing for one quote. *)
Fixpoint read_quoted_body (text : string) : option (string * string) :=
  match text with
  | EmptyString => None
  | String c rest =>
      if Ascii.eqb c dquote then
        match rest with
        | String c' rest' =>
            if Ascii.eqb c' dquote then
              match read_quoted_body rest' with
              | Some (identifier, after) => Some (String dquote identifier, after)
              | None => None
              end
            else Some (EmptyString, rest)
        | EmptyString => Some (EmptyString, EmptyString)
        end
      else
        match read_quoted_body rest with
        | Some (identifier, after) => Some (String c identifier, after)
        | None => None
        end
  end.

Definition read_quoted (text : string) : option (string * string) :=
  match text with
  | String c rest => if Ascii.eqb c dquote then read_quoted_body rest else None
  | EmptyString => None
  end.

Definition starts_with_quote (text : string) : bool :=
  match text with
  | String c _ => Ascii.eqb c dquote
  | EmptyString => false
  end.

(** A candidate matches a column: the names are equal up to case, and the
    column has a name. *)
Definition matches (candidate : string) (column : ColumnInfo) : Prop :=
  toLowerCase (columnName column) = toLowerCase candidate
  /\ columnName column <> "".

(** The tables [discoverTables] keeps. *)
Definition selected (tableAllowlist : list string)
    (tableBlocklist : option (list string)) (table_name : string) : bool :=
  (bool_decide ("*" ∈ tableAllowlist)
   || existsb (fun name => String.eqb (toLowerCase name) (toLowerCase table_name))
        tableAllowlist)
  && negb (existsb (fun name => String.eqb (toLowerCase name) (toLowerCase table_name))
             (default [] tableBlocklist)).

(** The rows a page-wise reader is to see: those from [offsetStart] on, at
    most [rowLimit] of them. *)
Definition window {A : Type} (table : list A) (offsetStart : Z)
    (rowLimit : option Z) : list A :=
  match rowLimit with
  | Some rowLimit => take (Z.to_nat rowLimit) (drop (Z.to_nat offsetStart) table)
  | None => drop (Z.to_nat offsetStart) table
  end.

(** The table is read in one state: a query answers with the rows of
    [table] at the offset, at most [limit] of them. *)
Definition static_table
    (fetchTableRows : TableInfo -> Z -> Z -> Thrown + list (list (string * value)))
    (tableInfo : TableInfo) (table : list (list (string * value))) : Prop :=
  forall limit offset,
    0 < limit -> 0 <= offset ->
    fetchTableRows tableInfo limit offset
    = inr (take (Z.to_nat limit) (drop (Z.to_nat offset) table)).

(** The page content of a row. *)
Definition page_content_of (tableInfo : TableInfo)
    (textColumnsMode : TextColumnsMode) (excludedColumns : list string)
    (row : list (string * value)) : string :=
  Transform.createPageContent row tableInfo textColumnsMode
    (list_to_set (map toLowerCase excludedColumns)).

Definition has_primary_key (tableInfo : TableInfo)
    (row : list (string * value)) : Prop :=
  Forall (fun column => is_Some (get_prop column row)) (pkColumns tableInfo).

End PlanSpec.

Module DiscoverSpec.
Import State JsLib Graph Postgres.

Section Discover.
Variable queryColumns : string -> string -> Thrown + list ColumnRow.
Variable queryPrimaryKey : string -> string -> Thrown + list PrimaryKeyRow.

(** The primary-key rows of a column, in the database's order. *)
Definition key_rows_of (name : string) (primaryKeyRows : list PrimaryKeyRow)
    : list PrimaryKeyRow :=
  filter (fun pk => pk_column_name pk = name) primaryKeyRows.

(** A recorded column carries every field of its row of the database: the
    name, the data type, the default and the ordinal position as they are,
    nullable exactly when the row says [YES], and as primary-key position
    that of the last primary-key row of the column, if there is one. *)
Definition reports (primaryKeyRows : list PrimaryKeyRow)
    (columnRow : ColumnRow) (column : ColumnInfo) : Prop :=
  columnName column = column_name columnRow
  /\ dataType column = data_type columnRow
  /\ (isNullable column = true <-> is_nullable columnRow = "YES")
  /\ columnDefault column = column_default columnRow
  /\ ordinalPosition column = ordinal_position columnRow
  /\ pkPosition column
     = pk_position <$> last (key_rows_of (column_name columnRow) primaryKeyRows).

(** What [discoverTables] records of one table. *)
Definition describes (sourceSchema : string) (updatedAtCandidates : list string)
    (tableInfo : TableInfo) : Prop :=
  ti_schema tableInfo = sourceSchema
  /\ exists columnRows primaryKeyRows,
      queryColumns sourceSchema (ti_table tableInfo) = inr columnRows
      /\ queryPrimaryKey sourceSchema (ti_table tableInfo) = inr primaryKeyRows
      /\ Forall2 (reports primaryKeyRows) columnRows (columns tableInfo)
      /\ pkColumns tableInfo = map pk_column_name primaryKeyRows
      /\ (forall column,
            column ∈ columns tableInfo ->
            (is_Some (pkPosition column)
             <-> columnName column ∈ pkColumns tableInfo))
      /\ updatedAtColumn tableInfo
         = findUpdatedAtColumn (columns tableInfo) updatedAtCandidates.
End Discover.

End DiscoverSpec.

Module QueueSpec.
Import State JsLib ThreadPool.

Definition key_of_table (tableInfo : TableInfo) : string :=
  tableKey (ti_schema tableInfo) (ti_table tableInfo).

(** The table a queue item belongs to. *)
Definition item_key (item : QueueItem) : string :=
  match item with
  | QTable tableInfo => key_of_table tableInfo
  | QChunk _ _ _ _ key => key
  end.

(** The items of the table with key [key] in a queue, in queue order. *)
Definition items_of (key : string) (queue : list QueueItem) : list QueueItem :=
  filter (fun item => item_key item = key) queue.

End QueueSpec.

(* ===================================================================== *)
(** * db_sync_graph/graph.ts: the handler of a full table *)
(* ===================================================================== *)

Module FullTable.
Import State JsLib Hashing Graph Transform.

(** [buildTableIndexName] of elastic_control.ts. *)
Definition buildTableIndexName (targetIndexPrefix schema table : string)
    : string :=
  toLowerCase (targetIndexPrefix +:+ schema +:+ "_" +:+ table).

(** The fields of the configuration the handler reads. *)
Record Configuration := {
  batchSize : Z;
  targetIndexPrefix : string;
  textColumnsMode : TextColumnsMode;
  excludedColumns : list string
}.

(** The [onFullTable] handler [executeTablePlans] passes to
    [executePlansWithHandler].  [S] is the state of the vector store;
    deleting an index and adding documents may fail, and so may a query. *)
Section OnFullTable.
Context {S : Type}.
Variable sha256Hex : string -> string.
Variable fetchTableRows :
  TableInfo -> Z -> Z -> Thrown + list (list (string * value)).
Variable deleteIfExists : string -> S -> S * option Thrown.
Variable addDocuments :
  string -> list Document -> list string -> S -> S * option Thrown.
Variable configuration : Configuration.
Variable runId : string.

(** [rows.map((row) => transformRowToDocument(...))] *)
Fixpoint transformPage (tableInfo : TableInfo)
    (rows : list (list (string * value))) : Thrown + list DbSyncDocument :=
  match rows with
  | [] => inr []
  | row :: rest =>
      match transformRowToDocument sha256Hex row tableInfo runId
              (textColumnsMode configuration) (excludedColumns configuration) with
      | inl thrown => inl (ThrownError thrown)
      | inr item =>
          match transformPage tableInfo rest with
          | inl thrown => inl thrown
          | inr items => inr (item :: items)
          end
      end
  end.

(** The [while (true)] loop; [None] when the fuel runs out. *)
Fixpoint upsertLoop (fuel : nat) (indexName : string) (tableInfo : TableInfo)
    (rowsUpserted offset : Z) (st : S) : option (S * (Thrown + Z)) :=
  match fuel with
  | O => None
  | Datatypes.S fuel =>
      match fetchTableRows tableInfo (batchSize configuration) offset with
      | inl thrown => Some (st, inl thrown)
      | inr rows =>
          if Z.of_nat (length rows) =? 0 then Some (st, inr rowsUpserted)
          else
            match transformPage tableInfo rows with
            | inl thrown => Some (st, inl thrown)
            | inr docs =>
                match addDocuments indexName (map document docs)
                        (map docId docs) st with
                | (st, Some thrown) => Some (st, inl thrown)
                | (st, None) =>
                    upsertLoop fuel indexName tableInfo
                      (rowsUpserted + Z.of_nat (length docs))
                      (offset + Z.of_nat (length rows)) st
                end
            end
      end
  end.

Definition onFullTable (fuel : nat) (tableInfosByKey : gmap string TableInfo)
    (tablePlan : TablePlan) (st : S) : option (S * (Thrown + Z)) :=
  let key := tableKey (tp_schema tablePlan) (tp_table tablePlan) in
  match tableInfosByKey !! key with
  | None => Some (st, inl (ThrownError ("Missing tableInfo for " +:+ key)))
  | Some tableInfo =>
      let indexName :=
        buildTableIndexName (targetIndexPrefix configuration)
          (ti_schema tableInfo) (ti_table tableInfo) in
      match deleteIfExists indexName st with
      | (st, Some thrown) => Some (st, inl thrown)
      | (st, None) => upsertLoop fuel indexName tableInfo 0 0 st
      end
  end.
End OnFullTable.

End FullTable.

Module FullTableSpec.
Import State JsLib Hashing Graph Transform FullTable.

(** A list cut into pages of [size] elements, the last one possibly
    shorter. *)
Fixpoint pages_upto {A : Type} (fuel size : nat) (l : list A) : list (list A) :=
  match fuel with
  | O => []
  | Datatypes.S fuel =>
      match l with
      | [] => []
      | _ => take size l :: pages_upto fuel size (drop size l)
      end
  end.

Definition pages {A : Type} (size : nat) (l : list A) : list (list A) :=
  pages_upto (length l) size l.

End FullTableSpec.

Module UpsertSpec.
Import State JsLib Hashing Graph Transform FullTable FullTableSpec.

Section Upsert.
Context {S : Type}.
Variable sha256Hex : string -> string.
Variable addDocuments :
  string -> list Document -> list string -> S -> S * option Thrown.
Variable configuration : Configuration.
Variable runId : string.

(** Transforming and adding the pages of rows one after the other, up to
    the first failure; the count is that of the documents added. *)
Fixpoint upsert_pages (indexName : string) (tableInfo : TableInfo)
    (rowPages : list (list (list (string * value)))) (count : Z) (st : S)
    : S * (Thrown + Z) :=
  match rowPages with
  | [] => (st, inr count)
  | rows :: rest =>
      match transformPage sha256Hex configuration runId tableInfo rows with
      | inl thrown => (st, inl thrown)
      | inr docs =>
          match addDocuments indexName (map document docs) (map docId docs) st with
          | (st, Some thrown) => (st, inl thrown)
          | (st, None) =>
              upsert_pages indexName tableInfo rest
                (count + Z.of_nat (length docs)) st
          end
      end
  end.

(** The state of the store after the pages of documents were added. *)
Definition added (indexName : string) (docPages : list (list DbSyncDocument))
    (st : S) : S :=
  fold_left
    (fun st docs =>
       (addDocuments indexName (map document docs) (map docId docs) st).1)
    docPages st.

(** The store accepts every request. *)
Definition store_accepts (deleteIfExists : string -> S -> S * option Thrown)
    : Prop :=
  (forall indexName st, (deleteIfExists indexName st).2 = None)
  /\ (forall indexName docs ids st,
        (addDocuments indexName docs ids st).2 = None).

(** The documents of the rows of a page. *)
Definition documents_of (tableInfo : TableInfo)
    (rows : list (list (string * value))) (docs : list DbSyncDocument) : Prop :=
  Forall2
    (fun row item =>
       transformRowToDocument sha256Hex row tableInfo runId
         (textColumnsMode configuration) (excludedColumns configuration)
       = inr item)
    rows docs.
End Upsert.

End UpsertSpec.

Module MoreSamples.
Import State Hashing Graph Transform FullTable.

(** A store that records the ids it is given, index by index. *)
Definition recordingDelete (indexName : string)
    (st : list (string * list string))
    : list (string * list string) * option Thrown :=
  (List.filter (fun entry => negb (String.eqb entry.1 indexName)) st, None).

Definition recordingAdd (indexName : string) (docs : list Document)
    (ids : list string) (st : list (string * list string))
    : list (string * list string) * option Thrown :=
  (st ++ [(indexName, ids)], None).

(** A table read in one state. *)
Definition tableOf (table : list (list (string * value)))
    (tableInfo : TableInfo) (limit offset : Z)
    : Thrown + list (list (string * value)) :=
  inr (take (Z.to_nat limit) (drop (Z.to_nat offset) table)).

Definition sampleConfiguration (batchSize : Z) : Configuration :=
  {| batchSize := batchSize; targetIndexPrefix := "db_table_";
     textColumnsMode := auto; excludedColumns := ["secret"] |}.

(** A row without the primary-key column [id]. *)
Definition keylessRow : list (string * value) := [ ("name", VString "Bob") ].

End MoreSamples.

(* ===================================================================== *)
(** * db_sync_graph/graph.ts: the last stage of a run *)
(* ===================================================================== *)

Module Finalize.
Import State Graph.

(** [RunRecord] of elastic_control.ts. *)
Record RunRecordError := {
  rr_table : string;
  rr_message : string
}.

Record RunRecord := {
  run_id : string;
  started_at : string;
  finished_at : option string;
  rr_status : RunStatus;
  tables_total : Z;
  tables_reindexed : Z;
  tables_skipped : Z;
  rows_upserted : Z;
  rr_errors : list RunRecordError
}.

(** The fields of the state [finalizeRun] reads. *)
Record DbSyncState := {
  st_runId : string;
  st_startedAt : option string;
  st_fatalError : option string;
  st_tableSnapshots : list TableSnapshot;
  st_tablePlans : list TablePlan;
  st_tableResults : list TableRunResult;
  st_catalogByTable : gmap string (option ControlCatalogRecord)
}.

(** The update [finalizeRun] returns; a field it leaves out is [None]. *)
Record Update := {
  u_status : RunStatus;
  u_finishedAt : string;
  u_summary : option RunSummary;
  u_fatalError : option (option string)
}.

(** The names of the two control indexes, from the configuration. *)
Record ControlIndexes := {
  controlCatalogIndex : string;
  controlRunsIndex : string
}.

(** [S] is the state of the control store.  Reading the configuration and
    creating the client may throw, and so may every write. *)
Section FinalizeRun.
Context {S : Type}.
Variable connect : Thrown + ControlIndexes.
Variable putCatalogRecord :
  string -> ControlCatalogRecord -> S -> S * option Thrown.
Variable putRunRecord : string -> string -> RunRecord -> S -> S * option Thrown.

(** The [for] loop over the snapshots. *)
Fixpoint putCatalogRecords (indexName : string) (state : DbSyncState)
    (finishedAt : string) (resultsByTable : gmap string TableRunResult)
    (tableSnapshots : list TableSnapshot) (st : S) : S * option Thrown :=
  match tableSnapshots with
  | [] => (st, None)
  | snapshot :: rest =>
      let key := tableKey (ts_schema snapshot) (ts_table snapshot) in
      let result := resultsByTable !! key in
      let existing := mjoin (st_catalogByTable state !! key) in
      let record :=
        buildCatalogRecord snapshot result existing (st_runId state) finishedAt
          (st_fatalError state) in
      match putCatalogRecord indexName record st with
      | (st, Some thrown) => (st, Some thrown)
      | (st, None) =>
          putCatalogRecords indexName state finishedAt resultsByTable rest st
      end
  end.

(** The [catch] clause. *)
Definition failedUpdate (state : DbSyncState) (finishedAt : string)
    (error : Thrown) : Update :=
  {| u_status := failed_run;
     u_finishedAt := finishedAt;
     u_summary := None;
     u_fatalError :=
       Some (Some (default (errorMessage error) (st_fatalError state))) |}.

Definition runErrors (state : DbSyncState) (summary : RunSummary)
    : list RunError :=
  errors summary
  ++ (if Js.truthy (st_fatalError state)
      then [ {| re_tableKey := "bootstrap";
                message := default "" (st_fatalError state) |} ]
      else []).

Definition runRecord (state : DbSyncState) (finishedAt : string) : RunRecord :=
  let summary :=
    summarizeRun (st_tablePlans state) (st_tableResults state) in
  {| run_id := st_runId state;
     started_at := Js.or_default (st_startedAt state) finishedAt;
     finished_at := Some finishedAt;
     rr_status := computeRunStatus (st_fatalError state) (st_tableResults state);
     tables_total := tablesTotal summary;
     tables_reindexed := tablesReindexed summary;
     tables_skipped := tablesSkipped summary;
     rows_upserted := sum_rowsUpserted summary;
     rr_errors :=
       map (fun error => {| rr_table := re_tableKey error;
                            rr_message := message error |})
         (runErrors state summary) |}.

Definition finalizeRun (state : DbSyncState) (finishedAt : string) (st : S)
    : S * Update :=
  match connect with
  | inl error => (st, failedUpdate state finishedAt error)
  | inr configuration =>
      let resultsByTable := resultsByTable (st_tableResults state) in
      match putCatalogRecords (controlCatalogIndex configuration) state
              finishedAt resultsByTable (st_tableSnapshots state) st with
      | (st, Some error) => (st, failedUpdate state finishedAt error)
      | (st, None) =>
          let summary :=
            summarizeRun (st_tablePlans state) (st_tableResults state) in
          let status :=
            computeRunStatus (st_fatalError state) (st_tableResults state) in
          match putRunRecord (controlRunsIndex configuration) (st_runId state)
                  (runRecord state finishedAt) st with
          | (st, Some error) => (st, failedUpdate state finishedAt error)
          | (st, None) =>
              (st,
               {| u_status := status;
                  u_finishedAt := finishedAt;
                  u_summary :=
                    Some {| tablesTotal := tablesTotal summary;
                            tablesReindexed := tablesReindexed summary;
                            tablesSkipped := tablesSkipped summary;
                            sum_rowsUpserted := sum_rowsUpserted summary;
                            errors := runErrors state summary |};
                  u_fatalError := None |})
          end
      end
  end.
End FinalizeRun.

(** The reducer of the [fatalError] channel of state.ts, applied to the
    update of a stage. *)
Definition reduceFatalError (existing : option string)
    (update : option (option string)) : option string :=
  match update with
  | None => existing
  | Some incoming =>
      match incoming with
      | Some message => Some message
      | None => existing
      end
  end.

End Finalize.

Module FinalizeSpec.
Import State Graph Finalize.

Section Store.
Context {S : Type}.
Variable putCatalogRecord :
  string -> ControlCatalogRecord -> S -> S * option Thrown.

(** The state of the control store after the catalog records were
    written. *)
Definition written (indexName : string) (records : list ControlCatalogRecord)
    (st : S) : S :=
  fold_left (fun st record => (putCatalogRecord indexName record st).1)
    records st.
End Store.

(** The records of the catalog for a state. *)
Definition catalog_records (state : DbSyncState) (finishedAt : string)
    : list ControlCatalogRecord :=
  finalizeCatalog (st_tableSnapshots state) (st_tableResults state)
    (st_catalogByTable state) (st_runId state) finishedAt (st_fatalError state).

End FinalizeSpec.

Module FinalizeSamples.
Import State Graph Finalize Samples.

(** A control store that records the ids of the documents written. *)
Definition recordCatalog (indexName : string) (record : ControlCatalogRecord)
    (st : list string) : list string * option Thrown :=
  (st ++ [indexName +:+ "/" +:+ cc_schema record +:+ "." +:+ cc_table record],
   None).

Definition recordRun (indexName runId : string) (record : RunRecord)
    (st : list string) : list string * option Thrown :=
  (st ++ [indexName +:+ "/" +:+ runId], None).

Definition defaultIndexes : ControlIndexes :=
  {| controlCatalogIndex := "db_sync_catalog";
     controlRunsIndex := "db_sync_runs" |}.

(** The state after a run in which the only table failed. *)
Definition failedTableState : DbSyncState :=
  {| st_runId := "run_1"; st_startedAt := Some "2026-01-01T00:00:00.000Z";
     st_fatalError := None;
     st_tableSnapshots := [sampleSnapshot];
     st_tablePlans := [plan "users" full];
     st_tableResults := [failedFullResult];
     st_catalogByTable := ∅ |}.

End FinalizeSamples.

(* ===================================================================== *)
(** * Properties of the planner and of the run bookkeeping *)
(* ===================================================================== *)

Section PlannerProperties.
Import State Graph Spec Samples.

Lemma eqb_false_of_neq (a b : string) : a <> b -> String.eqb a b = false.
Proof. intros H. by apply String.eqb_neq. Qed.

(** C1: [decideTableMode] applies the planner rules in strict
    top-to-bottom precedence: without a primary key the table is skipped
    whatever the catalog and the hashes are; otherwise a missing catalog
    record gives a full run; otherwise a differing schema hash gives
    [schema_hash_changed] even when the table hash matches; otherwise a
    differing table hash gives [table_hash_changed]; otherwise the table is
    skipped as unchanged. *)
Theorem C1_decideTableMode_precedence :
  forall (previousCatalog : option ControlCatalogRecord)
         (schemaHash tableHash : string) (hasPrimaryKey : bool),
    (hasPrimaryKey = false ->
       decideTableMode previousCatalog schemaHash tableHash hasPrimaryKey
       = (skip, "skipped_no_pk"))
    /\ (hasPrimaryKey = true -> previousCatalog = None ->
       decideTableMode previousCatalog schemaHash tableHash hasPrimaryKey
       = (full, "no_previous_catalog"))
    /\ (forall prev, hasPrimaryKey = true -> previousCatalog = Some prev ->
       schema_hash prev <> schemaHash ->
       decideTableMode previousCatalog schemaHash tableHash hasPrimaryKey
       = (full, "schema_hash_changed"))
    /\ (forall prev, hasPrimaryKey = true -> previousCatalog = Some prev ->
       schema_hash prev = schemaHash -> table_hash prev <> tableHash ->
       decideTableMode previousCatalog schemaHash tableHash hasPrimaryKey
       = (full, "table_hash_changed"))
    /\ (forall prev, hasPrimaryKey = true -> previousCatalog = Some prev ->
       schema_hash prev = schemaHash -> table_hash prev = tableHash ->
       decideTableMode previousCatalog schemaHash tableHash hasPrimaryKey
       = (skip, "table_hash_unchanged")).
Proof.
  intros previousCatalog schemaHash tableHash hasPrimaryKey.
  unfold decideTableMode, getTableModeReason.
  repeat split.
  - intros ->. reflexivity.
  - intros -> ->. reflexivity.
  - intros prev -> -> Hs. cbn. by rewrite (eqb_false_of_neq _ _ Hs).
  - intros prev -> -> Hs Ht. cbn.
    rewrite Hs, String.eqb_refl. cbn. by rewrite (eqb_false_of_neq _ _ Ht).
  - intros prev -> -> Hs Ht. cbn.
    by rewrite Hs, Ht, !String.eqb_refl.
Qed.

Lemma C1_decideTableMode_precedence_witness :
  decideTableMode (Some (sampleCatalog "s" "t")) "s" "t" false
    = (skip, "skipped_no_pk")
  /\ decideTableMode None "s" "t" true = (full, "no_previous_catalog")
  /\ decideTableMode (Some (sampleCatalog "old" "t")) "s" "t" true
    = (full, "schema_hash_changed")
  /\ decideTableMode (Some (sampleCatalog "s" "old")) "s" "t" true
    = (full, "table_hash_changed")
  /\ decideTableMode (Some (sampleCatalog "s" "t")) "s" "t" true
    = (skip, "table_hash_unchanged").
Proof.
  split; [|split; [|split; [|split]]].
  - apply (C1_decideTableMode_precedence
             (Some (sampleCatalog "s" "t")) "s" "t" false); reflexivity.
  - apply (C1_decideTableMode_precedence None "s" "t" true); reflexivity.
  - eapply (C1_decideTableMode_precedence
              (Some (sampleCatalog "old" "t")) "s" "t" true);
      [reflexivity | reflexivity | discriminate].
  - eapply (C1_decideTableMode_precedence
              (Some (sampleCatalog "s" "old")) "s" "t" true);
      [reflexivity | reflexivity | reflexivity | discriminate].
  - eapply (C1_decideTableMode_precedence
              (Some (sampleCatalog "s" "t")) "s" "t" true); reflexivity.
Defined.

End PlannerProperties.

Section CatalogProperties.
Import State Graph Spec Samples.

Lemma is_failed_true (r : TableRunResult) : is_failed r = true <-> status r = failed.
Proof. unfold is_failed. by rewrite bool_decide_eq_true. Qed.

Lemma is_failed_false (r : TableRunResult) : is_failed r = false <-> status r <> failed.
Proof. unfold is_failed. by rewrite bool_decide_eq_false. Qed.

Lemma or_else_None (field : option string) : Js.or_else field None = carried field.
Proof.
  destruct field as [s|]; [|done].
  unfold Js.or_else, carried, Js.truthy.
  destruct (decide (s = "")) as [->|Hne]; [done|].
  by rewrite (eqb_false_of_neq _ _ Hne).
Qed.

(** With a fatal error that is [null] or a non-empty message, the
    [tableSucceeded] flag is the specification's notion of success. *)
Lemma tableSucceeded_iff (fatalError : option string) (result : option TableRunResult) :
  fatalError <> Some "" ->
  negb (match result with Some r => is_failed r | None => false end)
    && negb (Js.truthy fatalError) && bool_decide (is_Some result) = true
  <-> run_succeeded_for_table fatalError result.
Proof.
  intros Hfatal. unfold run_succeeded_for_table. split.
  - rewrite !andb_true_iff, !negb_true_iff, bool_decide_eq_true.
    intros [[Hfailed Htruthy] [r ->]]. split.
    + destruct fatalError as [msg|]; [|done]. cbn in Htruthy.
      apply negb_false_iff, String.eqb_eq in Htruthy. by subst.
    + exists r. split; [done|]. by apply is_failed_false.
  - intros [-> (r & -> & Hst)]. cbn.
    apply is_failed_false in Hst. by rewrite Hst.
Qed.

(** C2, as the code has it: [last_success_run_id] and [last_success_at] are
    those of the current run when the run succeeded for the table, and
    otherwise those of the existing record (none when there is no record or
    the stored string is empty); [last_mode] is the mode of this run's
    result whenever the table has a result, failed or not, and is carried
    forward only without one.  It is stated for a fatal error that is
    [null] or a non-empty message. *)
Theorem C2_last_success_carried_forward :
  forall (snapshot : TableSnapshot) (result : option TableRunResult)
         (existing : option ControlCatalogRecord) (runId finishedAt : string)
         (fatalError : option string),
    fatalError <> Some "" ->
    let record :=
      buildCatalogRecord snapshot result existing runId finishedAt fatalError in
    (run_succeeded_for_table fatalError result ->
       last_success_run_id record = Some runId
       /\ last_success_at record = Some finishedAt
       /\ last_mode record = tr_mode <$> result)
    /\ (~ run_succeeded_for_table fatalError result ->
       last_success_run_id record = carried (existing ≫= last_success_run_id)
       /\ last_success_at record = carried (existing ≫= last_success_at))
    /\ (forall r, result = Some r -> last_mode record = Some (tr_mode r))
    /\ (result = None -> last_mode record = existing ≫= last_mode).
Proof.
  intros snapshot result existing runId finishedAt fatalError Hfatal record.
  pose proof (tableSucceeded_iff fatalError result Hfatal) as Hiff.
  subst record. unfold buildCatalogRecord. cbn.
  split; [|split; [|split]].
  - intros Hok. apply Hiff in Hok. rewrite Hok.
    split; [done|]. split; [done|].
    destruct result as [r|]; [done|]. by rewrite andb_false_r in Hok.
  - intros Hnot.
    destruct (negb _ && negb _ && bool_decide _) eqn:Hflag.
    + exfalso. by apply Hnot, Hiff.
    + by rewrite !or_else_None.
  - by intros r ->.
  - intros ->. cbn. by destruct (existing ≫= last_mode).
Qed.

Lemma C2_last_success_carried_forward_witness :
  let record :=
    buildCatalogRecord sampleSnapshot (Some failedFullResult)
      (Some (sampleCatalog "s" "t")) "run_1" "t1" None in
  last_success_run_id record = Some "run_0"
  /\ last_success_at record = Some "t0"
  /\ last_mode record = Some full.
Proof.
  pose proof (C2_last_success_carried_forward sampleSnapshot
                (Some failedFullResult) (Some (sampleCatalog "s" "t"))
                "run_1" "t1" None) as H.
  destruct H as (_ & Hcarry & Hmode & _); [discriminate|].
  destruct Hcarry as [Hid Hat].
  { intros (_ & r & Hr & Hst). injection Hr as <-. by apply Hst. }
  split; [exact Hid|]. split; [exact Hat|].
  exact (Hmode failedFullResult eq_refl).
Defined.

(** C2 as the specification words it does not hold: a failed run of a
    table rewrites [last_mode] although the run did not succeed. *)
Lemma C2_last_mode_rewritten_on_failure :
  ~ last_success_fields_as_specified sampleSnapshot (Some failedFullResult)
      (Some (sampleCatalog "s" "t")) "run_1" "t1" None.
Proof.
  intros [_ Hcarry].
  destruct Hcarry as (_ & _ & Hmode).
  - intros (_ & r & Hr & Hst). injection Hr as <-. by apply Hst.
  - discriminate Hmode.
Qed.

(** Through [finalizeRun]: every persisted record is built from the
    snapshot, the last result of the table and its catalog entry. *)
Lemma finalizeCatalog_records tableSnapshots tableResults catalogByTable
    runId finishedAt fatalError :
  Forall2
    (fun snapshot record =>
       let key := tableKey (ts_schema snapshot) (ts_table snapshot) in
       record = buildCatalogRecord snapshot
                  (resultsByTable tableResults !! key)
                  (mjoin (catalogByTable !! key))
                  runId finishedAt fatalError)
    tableSnapshots
    (finalizeCatalog tableSnapshots tableResults catalogByTable
       runId finishedAt fatalError).
Proof.
  unfold finalizeCatalog.
  induction tableSnapshots as [|s l IH]; cbn; constructor; done.
Qed.

End CatalogProperties.

Section ExecutionProperties.
Import State Graph Spec Samples.
Context {S : Type}.
Variable onFullTable : TablePlan -> S -> S * (Thrown + Z).

Lemma skippedResult_ok (p : TablePlan) (st : S) :
  tp_mode p = skip -> plan_result onFullTable p st (skippedResult p) st.
Proof. intros Hm. unfold plan_result. rewrite Hm. by cbn. Qed.

Lemma handler_result_ok (p : TablePlan) (st st' : S) (outcome : Thrown + Z) :
  tp_mode p = full -> onFullTable p st = (st', outcome) ->
  plan_result onFullTable p st
    match outcome with
    | inr n => reindexedResult p n
    | inl e => failedResult p e
    end
    st'.
Proof.
  intros Hm Hcall. unfold plan_result. rewrite Hm, Hcall.
  destruct outcome as [e|n]; cbn; repeat split; done.
Qed.

(** The loop invariant: the accumulated results and calls only grow, by one
    result per plan and one call per full plan, each plan being processed
    in the state the plan before it left. *)
Lemma executeLoop_spec (tablePlans : list TablePlan) :
  forall (st : S) (acc : list TableRunResult) (calls : list TablePlan),
    exists st' tableResults,
      executeLoop onFullTable tablePlans st acc calls
      = (st', acc ++ tableResults, calls ++ List.filter is_full tablePlans)
      /\ plan_results onFullTable st tablePlans tableResults st'.
Proof.
  induction tablePlans as [|p rest IH]; intros st acc calls; cbn.
  - exists st, []. rewrite !app_nil_r. split; [done | constructor].
  - unfold is_full at 1. destruct (tp_mode p) eqn:Hm; cbn.
    + destruct (onFullTable p st) as [st1 outcome] eqn:Hcall.
      pose proof (handler_result_ok p st st1 outcome Hm Hcall) as Hres.
      destruct outcome as [e|n];
        (edestruct IH as (st' & rs & -> & Hall);
         eexists st', (_ :: rs); rewrite <- !app_assoc; cbn;
         split; [reflexivity | by econstructor]).
    + destruct (IH st (acc ++ [skippedResult p]) calls) as (st' & rs & -> & Hall).
      exists st', (skippedResult p :: rs). rewrite <- app_assoc. cbn.
      split; [done|]. econstructor; [by apply skippedResult_ok | done].
Qed.

Lemma plan_results_length (tablePlans : list TablePlan)
    (tableResults : list TableRunResult) (st st' : S) :
  plan_results onFullTable st tablePlans tableResults st' ->
  length tableResults = length tablePlans.
Proof. induction 1; cbn; congruence. Qed.

(** C5: [executePlansWithHandler] returns exactly one result per plan, in
    plan order; the plans are processed one after the other, each in the
    state the one before it left; a skipped plan yields [skipped] with no
    rows, without a handler call and without a change of state; a full plan
    calls the handler once, in the state reached, and yields [reindexed]
    with the handler's row count, or [failed] with no rows and the error
    message when the handler throws; the remaining plans are processed all
    the same, from the state that call left.  The handler is called for the
    full plans, in their order, and for no other plan. *)
Theorem C5_executePlansWithHandler_results :
  forall (tablePlans : list TablePlan) (st : S),
    exists st' tableResults,
      executePlansWithHandler onFullTable tablePlans st
      = (st', tableResults, List.filter is_full tablePlans)
      /\ length tableResults = length tablePlans
      /\ plan_results onFullTable st tablePlans tableResults st'.
Proof.
  intros tablePlans st.
  destruct (executeLoop_spec tablePlans st [] []) as (st' & rs & Heq & Hall).
  exists st', rs. split; [exact Heq|]. split; [|exact Hall].
  by eapply plan_results_length.
Qed.

End ExecutionProperties.

Section RunStatusProperties.
Import State Graph Spec Samples.

Lemma computeRunStatus_cases (fatalError : option string)
    (tableResults : list TableRunResult) :
  (Js.truthy fatalError = true ->
     computeRunStatus fatalError tableResults = failed_run)
  /\ (Js.truthy fatalError = false ->
      Exists (fun r => status r = failed) tableResults ->
      computeRunStatus fatalError tableResults = partial_success)
  /\ (Js.truthy fatalError = false ->
      Forall (fun r => status r <> failed) tableResults ->
      computeRunStatus fatalError tableResults = success).
Proof.
  unfold computeRunStatus. split; [|split].
  - by intros ->.
  - intros -> Hex.
    assert (existsb is_failed tableResults = true) as ->; [|done].
    apply existsb_exists. apply Exists_exists in Hex as (r & Hin & Hst).
    exists r. split; [by apply list_elem_of_In | by apply is_failed_true].
  - intros -> Hall.
    assert (existsb is_failed tableResults = false) as ->; [|done].
    apply not_true_is_false. intros (r & Hin & Hst)%existsb_exists.
    apply is_failed_true in Hst.
    rewrite Forall_forall in Hall. apply (Hall r); [|done].
    by apply list_elem_of_In.
Qed.

(** The state of the summary after the loop of [summarizeRun], from any
    starting summary. *)
Lemma summarize_fold (tableResults : list TableRunResult) :
  forall summary : RunSummary,
    let final := fold_left summarizeStep tableResults summary in
    tablesTotal final = tablesTotal summary
    /\ tablesReindexed final
       = tablesReindexed summary
         + Z.of_nat (length (List.filter (has_status reindexed) tableResults))
    /\ tablesSkipped final
       = tablesSkipped summary
         + Z.of_nat (length (List.filter (has_status skipped) tableResults))
    /\ sum_rowsUpserted final
       = sum_rowsUpserted summary
         + sum_Z (map rowsUpserted (List.filter (has_status reindexed) tableResults))
    /\ errors final
       = errors summary
         ++ map error_entry (List.filter (has_status failed) tableResults).
Proof.
  induction tableResults as [|r rest IH]; intros summary; cbn.
  - rewrite app_nil_r. unfold sum_Z. cbn. repeat split; lia.
  - destruct (IH (summarizeStep summary r)) as (Ht & Hr & Hs & Hu & He).
    cbn in Ht, Hr, Hs, Hu, He. rewrite Ht, Hr, Hs, Hu, He.
    unfold summarizeStep, has_status, sum_Z.
    destruct (status r) eqn:Hst; cbn; rewrite ?Hst;
      repeat ((case_bool_decide; [|done]) || (case_bool_decide; [done|]));
      cbn; rewrite <- ?app_assoc; repeat split; try done; lia.
Qed.

Lemma summarizeRun_counts (tablePlans : list TablePlan)
    (tableResults : list TableRunResult) :
  let summary := summarizeRun tablePlans tableResults in
  tablesTotal summary = Z.of_nat (length tablePlans)
  /\ tablesReindexed summary
     = Z.of_nat (length (List.filter (has_status reindexed) tableResults))
  /\ tablesSkipped summary
     = Z.of_nat (length (List.filter (has_status skipped) tableResults))
  /\ sum_rowsUpserted summary
     = sum_Z (map rowsUpserted (List.filter (has_status reindexed) tableResults))
  /\ errors summary
     = map error_entry (List.filter (has_status failed) tableResults).
Proof.
  unfold summarizeRun.
  destruct (summarize_fold tableResults
              {| tablesTotal := Z.of_nat (length tablePlans);
                 tablesReindexed := 0; tablesSkipped := 0;
                 sum_rowsUpserted := 0; errors := [] |})
    as (Ht & Hr & Hs & Hu & He).
  cbn in *. by rewrite Ht, Hr, Hs, Hu, He.
Qed.

(** C6 fails on a fatal error whose message is empty: the value is not
    [null], yet [computeRunStatus] does not answer [failed]; it reports
    [success], or [partial_success] when a table failed. *)
Theorem C6_empty_fatal_error_not_failed :
  computeRunStatus (Some "") [] = success
  /\ computeRunStatus (Some "") [reindexedResult5; failedFullResult]
     = partial_success.
Proof. split; reflexivity. Qed.

End RunStatusProperties.

(* ===================================================================== *)
(** * Properties of the chunk aggregation *)
(* ===================================================================== *)

Section ChunkAggregation.
Import State JsLib ThreadPool Spec SchedulerSpec Samples.

(** [Map.prototype.set] of a key that is not in the map appends it. *)
Lemma set_prop_fresh {A} (key : string) (v : A) (props : list (string * A)) :
  key ∉ map fst props -> set_prop key v props = props ++ [(key, v)].
Proof.
  induction props as [|[k w] rest IH]; cbn; [done|].
  rewrite not_elem_of_cons. intros [Hne Hrest].
  destruct (String.eqb_spec k key) as [->|_]; [done|].
  by rewrite IH.
Qed.

Lemma sumPartials_fold (rec : list (string * Partial)) :
  forall rows tokens,
    fold_left (fun totals entry =>
                 (totals.1 + p_rowCount entry.2, totals.2 + p_tokenCount entry.2))
              rec (rows, tokens)
    = (rows + sum_Z (map (fun e => p_rowCount e.2) rec),
       tokens + sum_Z (map (fun e => p_tokenCount e.2) rec)).
Proof.
  unfold sum_Z.
  induction rec as [|e rest IH]; intros rows tokens; cbn.
  - f_equal; lia.
  - rewrite IH. cbn. f_equal; lia.
Qed.

Lemma sumPartials_entries (got : list ChunkResult) :
  sumPartials (map entry_of got)
  = (sum_Z (map cr_rowCount got), sum_Z (map cr_tokenCount got)).
Proof.
  unfold sumPartials. rewrite sumPartials_fold, !map_map. cbn.
  by rewrite !Z.add_0_l.
Qed.

Lemma sum_Z_Permutation (l1 l2 : list Z) :
  Permutation l1 l2 -> sum_Z l1 = sum_Z l2.
Proof.
  unfold sum_Z. induction 1; cbn; lia.
Qed.

Variable chunkCounts : gmap string Z.

(** A chunk result of another table leaves the table with key [k] alone. *)
Lemma handle_other_table (k : string) (data : ChunkResult) (st : Coordinator) :
  key_of data <> k -> coordinator_wf st ->
  let st1 := handleChunkResult chunkCounts data st in
  aggregators st1 !! k = aggregators st !! k
  /\ completions_of k (events st1) = completions_of k (events st)
  /\ coordinator_wf st1.
Proof.
  intros Hne Hwf st1. subst st1. unfold completions_of.
  unfold handleChunkResult. fold (key_of data).
  set (agg0 := match aggregators st !! key_of data with
               | Some agg => agg
               | None => _
               end).
  assert (tableKey (ca_schema agg0) (ca_table agg0) = key_of data) as Hkey.
  { subst agg0. destruct (aggregators st !! key_of data) eqn:Hl; [|done].
    by apply Hwf. }
  cbn [received ThreadPool.totalChunks ca_schema ca_table].
  destruct (_ =? _).
  - destruct (sumPartials _) as [rows tokens]. cbn.
    split; [by apply lookup_delete_ne|]. split.
    + rewrite !omap_app. cbn.
      rewrite Hkey. destruct (decide (key_of data = k)); [done|].
      by rewrite !app_nil_r.
    + intros k' agg Hl. cbn in Hl. apply lookup_delete_Some in Hl as [_ Hl]. by apply Hwf.
  - cbn. split; [by apply lookup_insert_ne|]. split.
    + rewrite omap_app. cbn. by rewrite app_nil_r.
    + intros k' agg Hl. cbn in Hl. apply lookup_insert_Some in Hl as [[<- <-]|[_ Hl]].
      * exact Hkey.
      * by apply Hwf.
Qed.

Section OneTable.
Variables (schema table : string) (N : Z).
Hypothesis expected : chunkCounts !! tableKey schema table = Some N.

Local Abbreviation k := (tableKey schema table).

(** The aggregator [handleChunkResult] works on, after the arrival. *)
Lemma handle_own_chunk (data : ChunkResult) (st : Coordinator)
    (got : list ChunkResult) :
  own schema table data -> coordinator_wf st -> pending schema table N st got ->
  cr_chunkId data ∉ map cr_chunkId got ->
  let st1 := handleChunkResult chunkCounts data st in
  coordinator_wf st1
  /\ (Z.of_nat (length (got ++ [data])) <> N ->
      pending schema table N st1 (got ++ [data])
      /\ completions_of k (events st1) = completions_of k (events st))
  /\ (Z.of_nat (length (got ++ [data])) = N ->
      aggregators st1 !! k = None
      /\ completions_of k (events st1)
         = completions_of k (events st)
           ++ [aggregate_of schema table (got ++ [data])]).
Proof.
  intros [Hs Ht] Hwf Hpend Hfresh st1. subst st1. unfold completions_of.
  unfold handleChunkResult.
  rewrite Hs, Ht, expected. fold k. cbn [default].
  set (agg0 := match aggregators st !! k with
               | Some agg => agg
               | None => _
               end).
  assert (agg0 = {| ca_schema := schema; ca_table := table; totalChunks := N;
                    received := map entry_of got |}) as ->.
  { subst agg0. unfold pending in Hpend. fold k in Hpend.
    destruct got; by rewrite Hpend. }
  cbn [received ThreadPool.totalChunks ca_schema ca_table].
  rewrite set_prop_fresh.
  2:{ by rewrite map_map. }
  change [(cr_chunkId data, _)] with (map entry_of [data]).
  rewrite <- map_app, length_map.
  destruct (Z.eqb_spec (Z.of_nat (length (got ++ [data]))) N) as [Heq|Hne].
  - rewrite sumPartials_entries. cbn.
    split; [|split; [done|]].
    + intros k' agg Hl. cbn in Hl. apply lookup_delete_Some in Hl as [_ Hl]. by apply Hwf.
    + intros _. split; [by apply lookup_delete_eq|].
      rewrite !omap_app. cbn. fold k.
      destruct (decide (k = k)); [|done]. by rewrite app_nil_r.
  - cbn. split; [|split; [|done]].
    + intros k' agg Hl. cbn in Hl. apply lookup_insert_Some in Hl as [[<- <-]|[_ Hl]];
        [done | by apply Hwf].
    + intros _. split.
      * unfold pending. fold k. cbn [aggregators]. rewrite lookup_insert_eq.
        by destruct got.
      * rewrite omap_app. cbn. by rewrite app_nil_r.
Qed.

Lemma table_chunks_own_cons (data : ChunkResult) (arrivals : list ChunkResult) :
  key_of data = k ->
  table_chunks k (data :: arrivals) = data :: table_chunks k arrivals.
Proof. intros H. unfold table_chunks. by rewrite filter_cons_True. Qed.

Lemma table_chunks_other_cons (data : ChunkResult) (arrivals : list ChunkResult) :
  key_of data <> k ->
  table_chunks k (data :: arrivals) = table_chunks k arrivals.
Proof. intros H. unfold table_chunks. by rewrite filter_cons_False. Qed.

(** The invariant of the message loop, for the chunks of one table among
    arbitrary chunk results of other tables. *)
Lemma handleChunkResults_progress (arrivals : list ChunkResult) :
  0 < N ->
  forall (st : Coordinator) (got : list ChunkResult),
    coordinator_wf st -> pending schema table N st got ->
    Forall (own schema table) (table_chunks k arrivals) ->
    NoDup (map cr_chunkId (got ++ table_chunks k arrivals)) ->
    let st' := handleChunkResults chunkCounts arrivals st in
    let all := got ++ table_chunks k arrivals in
    coordinator_wf st'
    /\ (Z.of_nat (length all) < N ->
        pending schema table N st' all
        /\ completions_of k (events st') = completions_of k (events st))
    /\ (Z.of_nat (length all) = N -> table_chunks k arrivals <> [] ->
        aggregators st' !! k = None
        /\ completions_of k (events st')
           = completions_of k (events st) ++ [aggregate_of schema table all]).
Proof.
  intros Hpos.
  induction arrivals as [|data rest IH]; intros st got Hwf Hpend Hown Hnodup.
  - cbn. rewrite app_nil_r. split; [done|]. split; [done|]. by intros _ [].
  - unfold handleChunkResults. cbn [fold_left].
    fold (handleChunkResults chunkCounts rest (handleChunkResult chunkCounts data st)).
    destruct (decide (key_of data = k)) as [Hk|Hk].
    + rewrite table_chunks_own_cons in * by done.
      apply Forall_cons in Hown as [Hdata Hown].
      assert (cr_chunkId data ∉ map cr_chunkId got) as Hfresh.
      { rewrite map_app in Hnodup. cbn in Hnodup.
        apply NoDup_app in Hnodup as (_ & Hdisj & _).
        intros Hin. apply (Hdisj _ Hin). by left. }
      destruct (handle_own_chunk data st got Hdata Hwf Hpend Hfresh)
        as (Hwf1 & Hmore & Hlast).
      set (st1 := handleChunkResult chunkCounts data st) in *.
      destruct (decide (Z.of_nat (length (got ++ [data])) = N)) as [Hfull|Hpart].
      * destruct (Hlast Hfull) as [Hnone Hev1].
        assert (NoDup (map cr_chunkId ([] ++ table_chunks k rest))) as Hnodup'.
        { rewrite map_app in Hnodup. cbn in Hnodup.
          apply NoDup_app in Hnodup as (_ & _ & Hnd).
          by apply NoDup_cons in Hnd as [_ ?]. }
        destruct (IH st1 [] Hwf1 Hnone Hown Hnodup') as (Hwf' & Hlt' & _).
        cbn [app] in Hlt'.
        split; [exact Hwf'|]. split.
        -- intros Hlt. exfalso. rewrite length_app in *. cbn in *. lia.
        -- intros Hlen _.
           assert (table_chunks k rest = []) as Hrest.
           { apply length_zero_iff_nil. rewrite length_app in *. cbn in *. lia. }
           rewrite Hrest in *. cbn in Hlt'.
           destruct (Hlt' Hpos) as [Hp' Hev']. split; [exact Hp'|].
           by rewrite Hev', Hev1.
      * destruct (Hmore Hpart) as [Hpend1 Hev1].
        assert (NoDup (map cr_chunkId ((got ++ [data]) ++ table_chunks k rest)))
          as Hnodup'.
        { by rewrite <- app_assoc. }
        destruct (IH st1 (got ++ [data]) Hwf1 Hpend1 Hown Hnodup')
          as (Hwf' & Hlt' & Heq').
        rewrite <- app_assoc in Hlt', Heq'. cbn [app] in Hlt', Heq'.
        split; [exact Hwf'|]. split.
        -- intros Hlt. destruct (Hlt' Hlt) as [Hp' Hev']. split; [exact Hp'|].
           by rewrite Hev', Hev1.
        -- intros Hlen _.
           assert (table_chunks k rest <> []) as Hrest.
           { intros Hnil. rewrite Hnil in Hlen. by apply Hpart. }
           destruct (Heq' Hlen Hrest) as [Hn' Hev']. split; [exact Hn'|].
           by rewrite Hev', Hev1.
    + rewrite table_chunks_other_cons in * by done.
      destruct (handle_other_table k data st Hk Hwf) as (Hagg & Hev1 & Hwf1).
      set (st1 := handleChunkResult chunkCounts data st) in *.
      assert (pending schema table N st1 got) as Hpend1.
      { unfold pending in *. fold k in Hpend |- *. rewrite Hagg. exact Hpend. }
      destruct (IH st1 got Hwf1 Hpend1 Hown Hnodup) as (Hwf' & Hlt' & Heq').
      split; [exact Hwf'|]. split.
      * intros Hlt. destruct (Hlt' Hlt) as [Hp' Hev']. split; [exact Hp'|].
        by rewrite Hev', Hev1.
      * intros Hlen Hne. destruct (Heq' Hlen Hne) as [Hn' Hev'].
        split; [exact Hn'|]. by rewrite Hev', Hev1.
Qed.

End OneTable.

Lemma aggregate_of_Permutation schema table (l1 l2 : list ChunkResult) :
  Permutation l1 l2 -> aggregate_of schema table l1 = aggregate_of schema table l2.
Proof.
  intros Hp. unfold aggregate_of.
  f_equal; apply sum_Z_Permutation; by apply Permutation_map.
Qed.

(** C3: for a table split into [N] chunks, whatever the order in which its
    [N] distinct chunk results arrive, and whatever chunk results of other
    tables arrive in between, [onTableComplete] fires for the table exactly
    once, not before all [N] results have been received, with the sums of
    the chunks' row and token counts; the aggregate does not depend on the
    order of arrival. *)
Theorem C3_table_complete_exactly_once :
  forall (schema table : string) (N : Z) (arrivals : list ChunkResult)
         (st : Coordinator),
    let k := tableKey schema table in
    let chunks := table_chunks k arrivals in
    chunkCounts !! k = Some N -> 0 < N ->
    coordinator_wf st -> aggregators st !! k = None ->
    Forall (own schema table) chunks ->
    NoDup (map cr_chunkId chunks) ->
    Z.of_nat (length chunks) = N ->
    completions_of k (events (handleChunkResults chunkCounts arrivals st))
    = completions_of k (events st) ++ [aggregate_of schema table chunks]
    /\ (forall before after, arrivals = before ++ after ->
          table_chunks k after <> [] ->
          completions_of k (events (handleChunkResults chunkCounts before st))
          = completions_of k (events st))
    /\ (forall arrivals', Permutation arrivals arrivals' ->
          completions_of k (events (handleChunkResults chunkCounts arrivals' st))
          = completions_of k (events (handleChunkResults chunkCounts arrivals st))).
Proof.
  intros schema table N arrivals st k chunks Hexp Hpos Hwf Hnone Hown Hnodup Hlen.
  assert (chunks <> []) as Hne.
  { intros Hnil. rewrite Hnil in Hlen. cbn in Hlen. lia. }
  assert (completions_of k (events (handleChunkResults chunkCounts arrivals st))
          = completions_of k (events st) ++ [aggregate_of schema table chunks])
    as Hall.
  { destruct (handleChunkResults_progress schema table N Hexp arrivals Hpos
                st [] Hwf Hnone Hown Hnodup) as (_ & _ & Hdone).
    by destruct (Hdone Hlen Hne). }
  split; [exact Hall|]. split.
  - intros before after -> Hafter.
    subst chunks.
    assert (table_chunks k (before ++ after)
            = table_chunks k before ++ table_chunks k after) as Happ
      by apply filter_app.
    rewrite Happ in *. clear Happ.
    apply Forall_app in Hown as [Hown _].
    rewrite map_app in Hnodup. apply NoDup_app in Hnodup as (Hnodup & _ & _).
    destruct (handleChunkResults_progress schema table N Hexp before Hpos
                st [] Hwf Hnone Hown Hnodup) as (_ & Hpart & _).
    cbn [app] in Hpart. apply Hpart.
    rewrite length_app in Hlen.
    destruct (table_chunks k after); [done|]. cbn in Hlen. fold k. lia.
  - intros arrivals' Hperm. rewrite Hall.
    assert (Permutation chunks (table_chunks k arrivals')) as Hchunks.
    { subst chunks. unfold table_chunks. by rewrite Hperm. }
    rewrite (aggregate_of_Permutation schema table _ _ Hchunks).
    assert (Forall (own schema table) (table_chunks k arrivals')) as Hown'
      by (by rewrite <- Hchunks).
    assert (NoDup (map cr_chunkId ([] ++ table_chunks k arrivals'))) as Hnodup'.
    { cbn [app].
      assert (map cr_chunkId chunks ≡ₚ map cr_chunkId (table_chunks k arrivals'))
        as Hp by (by apply Permutation_map).
      by rewrite <- Hp. }
    destruct (handleChunkResults_progress schema table N Hexp arrivals' Hpos
                st [] Hwf Hnone Hown' Hnodup') as (_ & _ & Hdone).
    cbn [app] in Hdone. fold k in Hdone. apply Hdone.
    + rewrite <- Hlen. f_equal. symmetry. by apply Permutation_length.
    + intros Hnil. rewrite Hnil in Hchunks.
      by apply Permutation_nil_r in Hchunks.
Qed.

End ChunkAggregation.

Section ChunkAggregationWitness.
Import State JsLib ThreadPool Spec SchedulerSpec Samples.

Lemma initialCoordinator_wf : coordinator_wf initialCoordinator.
Proof. intros k agg H. cbn in H. by rewrite lookup_empty in H. Qed.

Lemma C3_table_complete_exactly_once_witness :
  completions_of "public.users"
    (events (handleChunkResults threeChunks
               [chunkResult "public.users#1" 2 20;
                chunkResult "public.users#0" 1 10;
                chunkResult "public.users#2" 3 30]
               initialCoordinator))
  = [ {| te_schema := "public"; te_table := "users";
         te_rowCount := 6; te_tokenCount := 60 |} ].
Proof.
  pose proof (C3_table_complete_exactly_once threeChunks "public" "users" 3
                [chunkResult "public.users#1" 2 20;
                 chunkResult "public.users#0" 1 10;
                 chunkResult "public.users#2" 3 30]
                initialCoordinator) as H.
  cbv zeta in H.
  destruct H as [H _].
  - reflexivity.
  - lia.
  - exact initialCoordinator_wf.
  - reflexivity.
  - vm_compute. repeat constructor.
  - apply (bool_decide_unpack _). by vm_compute.
  - reflexivity.
  - exact H.
Defined.

End ChunkAggregationWitness.

(* ===================================================================== *)
(** * Properties of the work queue *)
(* ===================================================================== *)

Section QueueProperties.
Import State JsLib ThreadPool Spec SchedulerSpec Samples.

Variable rowCounts : gmap string Z.
Variables largeTableThreshold chunkSize : Z.

(** A table is split only when [chunkSize > 0]. *)
Lemma buildQueueStep_whole_table queue chunkCounts tableInfo :
  chunkSize <= 0 ->
  buildQueueStep rowCounts largeTableThreshold chunkSize
    (queue, chunkCounts) tableInfo
  = (queue ++ [QTable tableInfo], chunkCounts).
Proof.
  intros Hsize. unfold buildQueueStep.
  assert ((0 <? chunkSize) = false) as -> by (apply Z.ltb_ge; lia).
  by rewrite andb_false_r.
Qed.

Lemma buildQueue_whole_tables (tables : list TableInfo) :
  chunkSize <= 0 ->
  buildQueue tables rowCounts largeTableThreshold chunkSize
  = (map QTable tables, ∅).
Proof.
  intros Hsize. unfold buildQueue.
  change (map QTable tables) with ([] ++ map QTable tables).
  generalize (@nil QueueItem) as queue.
  induction tables as [|t rest IH]; intros queue; cbn [fold_left map].
  - by rewrite app_nil_r.
  - rewrite buildQueueStep_whole_table by done.
    rewrite IH. by rewrite <- app_assoc.
Qed.

(** A table without a row count counts 0 rows, and stays whole when the
    threshold is positive. *)
Lemma buildQueueStep_absent queue chunkCounts tableInfo :
  rowCounts !! tableKey (ti_schema tableInfo) (ti_table tableInfo) = None ->
  0 < largeTableThreshold ->
  buildQueueStep rowCounts largeTableThreshold chunkSize
    (queue, chunkCounts) tableInfo
  = (queue ++ [QTable tableInfo], chunkCounts).
Proof.
  intros Habsent Hth. unfold buildQueueStep. rewrite Habsent. cbn [default].
  assert ((largeTableThreshold <=? 0) = false) as -> by (apply Z.leb_gt; lia).
  done.
Qed.

(** When a table is split, the number of chunk items is the recorded
    chunk count, and it is [ceil(rowCount / chunkSize)]. *)
Lemma ceil_div_spec (a b : Z) :
  0 < b -> (ceil_div a b - 1) * b < a <= ceil_div a b * b.
Proof.
  intros Hb. unfold ceil_div.
  pose proof (Z.div_mod (- a) b ltac:(lia)) as Hdm.
  pose proof (Z.mod_pos_bound (- a) b Hb) as Hmod.
  nia.
Qed.

Lemma length_chunkItems tableInfo key numChunks :
  length (chunkItems tableInfo key numChunks chunkSize) = Z.to_nat numChunks.
Proof. unfold chunkItems. by rewrite length_map, length_seq. Qed.

End QueueProperties.

Section QueueDefect.
Import State JsLib ThreadPool Spec SchedulerSpec Samples.

(** C10 fails when the threshold is not positive: a table without a row
    count counts 0 rows, 0 reaches the threshold, the table is split into
    [ceil(0 / chunkSize) = 0] chunks, and nothing at all is enqueued for
    it. *)
Theorem C10_absent_row_count_enqueues_nothing :
  (buildQueue [usersInfo] ∅ 0 10000).1 = []
  /\ (buildQueue [usersInfo] ∅ 0 10000).2 !! "public.users" = Some 0.
Proof. split; reflexivity. Qed.

End QueueDefect.

(* ===================================================================== *)
(** * Properties of the stable sort *)
(* ===================================================================== *)

Section SortProperties.
Import JsLib.
Context {A : Type}.

Lemma insert_sorted_Permutation (le : A -> A -> bool) (x : A) (l : list A) :
  insert_sorted le x l ≡ₚ x :: l.
Proof.
  induction l as [|y l IH]; cbn; [done|].
  destruct (le x y); [done|]. rewrite IH. apply Permutation_swap.
Qed.

Lemma stable_sort_Permutation (le : A -> A -> bool) (l : list A) :
  stable_sort le l ≡ₚ l.
Proof.
  induction l as [|x l IH]; cbn; [done|].
  by rewrite insert_sorted_Permutation, IH.
Qed.

Lemma elem_of_stable_sort (le : A -> A -> bool) (l : list A) (x : A) :
  x ∈ stable_sort le l <-> x ∈ l.
Proof. by rewrite stable_sort_Permutation. Qed.

(** Sorting commutes with a map that preserves the comparison. *)
Lemma insert_sorted_map {B} (f : B -> A) (le : A -> A -> bool) (x : B) (l : list B) :
  insert_sorted le (f x) (map f l)
  = map f (insert_sorted (fun a b => le (f a) (f b)) x l).
Proof.
  induction l as [|y l IH]; cbn; [done|].
  destruct (le (f x) (f y)); cbn; [done|]. by rewrite IH.
Qed.

Lemma stable_sort_map {B} (f : B -> A) (le : A -> A -> bool) (l : list B) :
  stable_sort le (map f l) = map f (stable_sort (fun a b => le (f a) (f b)) l).
Proof.
  induction l as [|x l IH]; cbn; [done|].
  fold (stable_sort le (map f l)). rewrite IH.
  apply insert_sorted_map.
Qed.

(** Only the comparisons between elements of the list matter. *)
Lemma insert_sorted_ext (le1 le2 : A -> A -> bool) (x : A) (l : list A) :
  (forall y, y ∈ l -> le1 x y = le2 x y) ->
  insert_sorted le1 x l = insert_sorted le2 x l.
Proof.
  induction l as [|y l IH]; intros Hext; cbn; [done|].
  rewrite <- (Hext y) by left. destruct (le1 x y); [done|].
  f_equal. apply IH. intros z Hz. apply Hext. by right.
Qed.

Lemma stable_sort_ext (le1 le2 : A -> A -> bool) (l : list A) :
  (forall x y, x ∈ l -> y ∈ l -> le1 x y = le2 x y) ->
  stable_sort le1 l = stable_sort le2 l.
Proof.
  induction l as [|x l IH]; intros Hext; cbn; [done|].
  fold (stable_sort le1 l). fold (stable_sort le2 l).
  rewrite <- IH.
  - apply insert_sorted_ext. intros y Hy.
    apply elem_of_stable_sort in Hy. apply Hext; [by left | by right].
  - intros y z Hy Hz. apply Hext; by right.
Qed.

(** The result is sorted when the comparison decides a total relation. *)
Section Order.
Variable le : A -> A -> bool.
Variable R : relation A.
Hypothesis le_R : forall x y, le x y = true <-> R x y.
Context `{!Total R}.

Lemma insert_sorted_Sorted (x : A) (l : list A) :
  Sorted R l -> Sorted R (insert_sorted le x l).
Proof.
  induction l as [|y l IH]; intros Hs; cbn.
  - by repeat constructor.
  - destruct (le x y) eqn:Hxy.
    + constructor; [done|]. constructor. by apply le_R.
    + assert (R y x) as Hyx.
      { destruct (total R x y) as [Hr|Hr]; [|done].
        apply le_R in Hr. congruence. }
      apply Sorted_inv in Hs as [Hs Hhd].
      constructor; [by apply IH|].
      destruct l as [|z l]; cbn.
      * by constructor.
      * destruct (le x z); constructor; [done|]. by apply HdRel_inv in Hhd.
Qed.

Lemma stable_sort_Sorted (l : list A) : Sorted R (stable_sort le l).
Proof.
  induction l as [|x l IH]; cbn; [constructor|].
  by apply insert_sorted_Sorted.
Qed.

(** On a total order the sorted list depends on the elements only. *)
Lemma stable_sort_unique `{!Transitive R, !AntiSymm (=) R} (l1 l2 : list A) :
  l1 ≡ₚ l2 -> stable_sort le l1 = stable_sort le l2.
Proof.
  intros Hp. apply (Sorted_unique R); try apply stable_sort_Sorted.
  by rewrite !stable_sort_Permutation.
Qed.
End Order.

End SortProperties.

Lemma String_leb_le (x y : string) : String.leb x y = true <-> String.le x y.
Proof. unfold String.le. by rewrite Is_true_true. Qed.

Lemma sort_keys_Permutation (keys1 keys2 : list string) :
  keys1 ≡ₚ keys2 ->
  JsLib.stable_sort String.leb keys1 = JsLib.stable_sort String.leb keys2.
Proof. apply (stable_sort_unique String.leb String.le String_leb_le). Qed.

(* ===================================================================== *)
(** * The canonical form does not depend on the order of keys *)
(* ===================================================================== *)

Section CanonicalForm.
Import State JsLib Hashing CanonSpec.

Lemma value_ind_nested (P : value -> Prop) :
  P VUndefined -> P VNull ->
  (forall b, P (VBoolean b)) -> (forall n, P (VNumber n)) ->
  (forall s, P (VString s)) -> (forall n, P (VBigInt n)) ->
  (forall iso, P (VDate iso)) ->
  (forall items, Forall P items -> P (VArray items)) ->
  (forall props, Forall (fun kv => P kv.2) props -> P (VObject props)) ->
  forall v, P v.
Proof.
  intros Hu Hn Hb Hnum Hs Hbig Hd Harr Hobj. fix IH 1.
  intros [ | |b|n|s|n|iso|items|props];
    [apply Hu|apply Hn|apply Hb|apply Hnum|apply Hs|apply Hbig|apply Hd| | ].
  - apply Harr. induction items as [|x items IHitems]; constructor; [apply IH|done].
  - apply Hobj. induction props as [|[key x] props IHprops]; constructor;
      [apply IH|done].
Qed.

Lemma get_prop_Permutation {B} (key : string) (l1 l2 : list (string * B)) :
  NoDup (map fst l1) -> l1 ≡ₚ l2 -> get_prop key l1 = get_prop key l2.
Proof.
  intros Hnd Hp. induction Hp as [|[k v] l l' Hp IH|[k1 v1] [k2 v2] l|l l' l'' Hp1 IH1 Hp2 IH2].
  - done.
  - cbn in *. apply NoDup_cons in Hnd as [_ Hnd]. by rewrite IH.
  - cbn in *. apply NoDup_cons in Hnd as [Hne _].
    apply not_elem_of_cons in Hne as [Hne _].
    destruct (String.eqb_spec k1 key) as [->|], (String.eqb_spec k2 key) as [->|];
      done.
  - rewrite IH1 by done. apply IH2.
    assert (map fst l ≡ₚ map fst l') as Hk by (by apply Permutation_map).
    by rewrite <- Hk.
Qed.

Lemma sortedEntries_Permutation {B} (absent : B) (e1 e2 : list (string * B)) :
  NoDup (map fst e1) -> e1 ≡ₚ e2 ->
  sortedEntries absent e1 = sortedEntries absent e2.
Proof.
  intros Hnd Hp. unfold sortedEntries.
  rewrite (sort_keys_Permutation (map fst e1) (map fst e2))
    by (by apply Permutation_map).
  apply map_ext. intros key. by rewrite (get_prop_Permutation key e1 e2).
Qed.

Lemma Forall2_map_eq {X Y Z} (f : X -> Z) (g : Y -> Z) (R : X -> Y -> Prop)
    (l1 : list X) (l2 : list Y) :
  Forall2 R l1 l2 -> (forall x y, x ∈ l1 -> R x y -> f x = g y) ->
  map f l1 = map g l2.
Proof.
  induction 1 as [|x y l l' Hxy Hall IH]; intros Hfg; cbn; [done|].
  f_equal; [apply Hfg; [by left | done]|].
  apply IH. intros a b Ha. apply Hfg. by right.
Qed.

(** The canonical JSON value of two values that differ in key order only. *)
Lemma sortJsonValue_key_order (v1 : value) :
  forall v2, key_order_equiv v1 v2 -> sortJsonValue v1 = sortJsonValue v2.
Proof.
  induction v1 as [ | |b|n|s|n|iso|items IH|props IH] using value_ind_nested;
    intros v2 Hequiv; inversion Hequiv as
      [ | | | | | | |items1 items2 Hitems|props1 props2 reordered Hnd Hprops Hperm];
    subst; try done.
  - cbn. f_equal. rewrite Forall_forall in IH.
    apply (Forall2_map_eq _ _ _ _ _ Hitems). intros x y Hx Hxy. by apply IH.
  - cbn. do 2 f_equal. rewrite Forall_forall in IH.
    assert (map (fun kv => (kv.1, sortJsonValue kv.2)) props
            = map (fun kv => (kv.1, sortJsonValue kv.2)) reordered) as Hsame.
    { apply (Forall2_map_eq _ _ _ _ _ Hprops).
      intros [k1 x1] [k2 x2] Hin [Hk Hx]. cbn in *. subst.
      f_equal. by apply (IH _ Hin). }
    rewrite Hsame.
    apply sortedEntries_Permutation.
    + by rewrite <- Hsame, map_map.
    + by apply Permutation_map.
Qed.

Lemma stableStringify_key_order (v1 v2 : value) :
  key_order_equiv v1 v2 -> stableStringify v1 = stableStringify v2.
Proof. intros H. unfold stableStringify. by rewrite (sortJsonValue_key_order v1 v2). Qed.

End CanonicalForm.

(* ===================================================================== *)
(** * The canonical text determines the canonical value *)
(* ===================================================================== *)

Section StringifyInjective.
Import State JsLib Hashing CanonSpec JsonText.

#[local] Arguments String.append : simpl nomatch.

Lemma app_String (c : ascii) (s t : string) :
  String c s +:+ t = String c (s +:+ t).
Proof. reflexivity. Qed.

Lemma str_app_assoc (s t u : string) : (s +:+ t) +:+ u = s +:+ (t +:+ u).
Proof. induction s as [|c s IH]; cbn; [done|]. by rewrite IH. Qed.

Lemma str_app_nil_r (s : string) : s +:+ "" = s.
Proof. induction s as [|c s IH]; cbn; [done|]. by rewrite IH. Qed.

Lemma str_app_length (s t : string) :
  String.length (s +:+ t) = (String.length s + String.length t)%nat.
Proof. induction s as [|c s IH]; cbn; [done|]. by rewrite IH. Qed.

(** Right cancellation. *)
Lemma str_app_inv_tail (s1 s2 t : string) : s1 +:+ t = s2 +:+ t -> s1 = s2.
Proof.
  revert s2. induction s1 as [|c1 s1 IH]; intros [|c2 s2] H; cbn in H.
  - done.
  - exfalso. apply (f_equal String.length) in H. cbn in H.
    rewrite str_app_length in H. lia.
  - exfalso. apply (f_equal String.length) in H. cbn in H.
    rewrite str_app_length in H. lia.
  - injection H as -> H. f_equal. by apply IH.
Qed.

(** ** Numbers *)

Lemma string_of_uint_prefix_inj (u1 : Decimal.uint) :
  forall (u2 : Decimal.uint) (r1 r2 : string),
    starts_nondigit r1 -> starts_nondigit r2 ->
    NilEmpty.string_of_uint u1 +:+ r1 = NilEmpty.string_of_uint u2 +:+ r2 ->
    u1 = u2 /\ r1 = r2.
Proof.
  induction u1 as [|u1 IH|u1 IH|u1 IH|u1 IH|u1 IH|u1 IH|u1 IH|u1 IH|u1 IH|u1 IH];
    intros [|u2|u2|u2|u2|u2|u2|u2|u2|u2|u2] r1 r2 H1 H2 Heq; cbn in Heq;
    try discriminate Heq;
    try (subst; cbn in *; discriminate);
    try (injection Heq as Heq; destruct (IH _ _ _ H1 H2 Heq); by subst).
  done.
Qed.

Lemma string_of_uint_nonnil (u : Decimal.uint) (r : string) :
  u <> Decimal.Nil ->
  NilZero.string_of_uint u = NilEmpty.string_of_uint u
  /\ head_class (NilEmpty.string_of_uint u +:+ r) = 3%nat
  /\ starts_digit (NilEmpty.string_of_uint u +:+ r).
Proof.
  destruct u; [done|..]; intros _; (split; [done|]); (split; [done|]); by eexists.
Qed.

Lemma to_int_nonnil (n : Z) :
  exists u, u <> Decimal.Nil
            /\ (Z.to_int n = Decimal.Pos u \/ Z.to_int n = Decimal.Neg u).
Proof.
  destruct n as [|p|p]; cbn.
  - exists (Decimal.D0 Decimal.Nil). split; [done | by left].
  - exists (Pos.to_uint p). split; [apply DecimalPos.Unsigned.to_uint_nonnil | by left].
  - exists (Pos.to_uint p). split; [apply DecimalPos.Unsigned.to_uint_nonnil | by right].
Qed.

Lemma number_toString_head (n : Z) (r : string) :
  head_class (number_toString n +:+ r) = 3%nat.
Proof.
  unfold number_toString.
  destruct (to_int_nonnil n) as (u & Hu & [-> | ->]); cbn.
  - by destruct (string_of_uint_nonnil u r Hu) as (-> & ? & _).
  - done.
Qed.

Lemma number_toString_prefix_inj (n1 n2 : Z) (r1 r2 : string) :
  starts_nondigit r1 -> starts_nondigit r2 ->
  number_toString n1 +:+ r1 = number_toString n2 +:+ r2 ->
  n1 = n2 /\ r1 = r2.
Proof.
  intros H1 H2. unfold number_toString.
  destruct (to_int_nonnil n1) as (u1 & Hu1 & Hn1).
  destruct (to_int_nonnil n2) as (u2 & Hu2 & Hn2).
  destruct (string_of_uint_nonnil u1 r1 Hu1) as (Hz1 & _ & Hc1).
  destruct (string_of_uint_nonnil u2 r2 Hu2) as (Hz2 & _ & Hc2).
  destruct Hn1 as [Hn1|Hn1], Hn2 as [Hn2|Hn2]; rewrite Hn1, Hn2; cbn;
    rewrite Hz1, Hz2; intros Heq.
  - destruct (string_of_uint_prefix_inj u1 u2 r1 r2 H1 H2 Heq) as [-> ->].
    split; [|done]. apply DecimalZ.to_int_inj. by rewrite Hn1, Hn2.
  - exfalso. rewrite Heq in Hc1. cbn in Hc1. by destruct Hc1.
  - exfalso. rewrite <- Heq in Hc2. cbn in Hc2. by destruct Hc2.
  - injection Heq as Heq.
    destruct (string_of_uint_prefix_inj u1 u2 r1 r2 H1 H2 Heq) as [-> ->].
    split; [|done]. apply DecimalZ.to_int_inj. by rewrite Hn1, Hn2.
Qed.

(** ** Quoted strings *)

Lemma unescape_escape_char (c : ascii) (t : string) :
  unescape_head (escape_char c +:+ t) = Some (c, t).
Proof. destruct c as [[] [] [] [] [] [] [] []]; reflexivity. Qed.

Lemma escape_char_prefix_inj (c1 c2 : ascii) (t1 t2 : string) :
  escape_char c1 +:+ t1 = escape_char c2 +:+ t2 -> c1 = c2 /\ t1 = t2.
Proof.
  intros Heq. apply (f_equal unescape_head) in Heq.
  rewrite !unescape_escape_char in Heq. by injection Heq.
Qed.

Lemma escape_char_not_dquote (c : ascii) (t r : string) :
  escape_char c +:+ t <> String dquote r.
Proof.
  intros Heq. pose proof (f_equal unescape_head Heq) as Hu.
  rewrite unescape_escape_char in Hu. cbn in Hu. injection Hu as -> ->.
  discriminate Heq.
Qed.

Lemma escape_prefix_inj (s1 : string) :
  forall (s2 r1 r2 : string),
    escape s1 +:+ String dquote r1 = escape s2 +:+ String dquote r2 ->
    s1 = s2 /\ r1 = r2.
Proof.
  induction s1 as [|c1 s1 IH]; intros [|c2 s2] r1 r2 Heq; cbn [escape] in Heq;
    rewrite ?str_app_assoc in Heq.
  - cbn in Heq. by injection Heq.
  - exfalso. symmetry in Heq. by apply escape_char_not_dquote in Heq.
  - exfalso. by apply escape_char_not_dquote in Heq.
  - apply escape_char_prefix_inj in Heq as [-> Heq].
    by destruct (IH _ _ _ Heq) as [-> ->].
Qed.

Lemma quote_app (s r : string) :
  quote s +:+ r = String dquote (escape s +:+ String dquote r).
Proof. unfold quote. cbn. by rewrite str_app_assoc. Qed.

Lemma quote_prefix_inj (s1 s2 r1 r2 : string) :
  quote s1 +:+ r1 = quote s2 +:+ r2 -> s1 = s2 /\ r1 = r2.
Proof.
  rewrite !quote_app. intros Heq. injection Heq as Heq.
  by apply escape_prefix_inj.
Qed.

(** ** Arrays and objects *)

Lemma join_cons_tail (close : ascii) (p : string) (parts : list string) (r : string) :
  join "," (p :: parts) +:+ String close r = p +:+ join_tail close parts r.
Proof.
  destruct parts as [|q parts]; cbn [join join_tail]; [done|].
  by rewrite !str_app_assoc.
Qed.

Section JoinInjective.
Context {X : Type} (pr : X -> string) (close : ascii).
Hypothesis close_class : char_class close = 0%nat.
Hypothesis close_not_comma : close <> ","%char.
Hypothesis close_nondigit : digit_value close = None.
Hypothesis pr_head : forall x r, head_class (pr x +:+ r) <> 0%nat.

Lemma join_tail_nondigit (parts : list string) (r : string) :
  starts_nondigit (join_tail close parts r).
Proof. by destruct parts. Qed.

Lemma join_prefix_inj (xs : list X) :
  Forall (fun x => forall y r1 r2,
            starts_nondigit r1 -> starts_nondigit r2 ->
            pr x +:+ r1 = pr y +:+ r2 -> x = y /\ r1 = r2) xs ->
  forall (ys : list X) (r1 r2 : string),
    join "," (map pr xs) +:+ String close r1
    = join "," (map pr ys) +:+ String close r2 ->
    xs = ys /\ r1 = r2.
Proof.
  induction xs as [|x xs IH]; intros Hall [|y ys] r1 r2 Heq; cbn [map] in Heq.
  - cbn in Heq. by injection Heq.
  - exfalso. rewrite join_cons_tail in Heq. cbn [join] in Heq.
    apply (f_equal head_class) in Heq. cbn in Heq. rewrite close_class in Heq.
    by eapply pr_head.
  - exfalso. rewrite join_cons_tail in Heq. cbn [join] in Heq.
    apply (f_equal head_class) in Heq. cbn in Heq. rewrite close_class in Heq.
    by eapply pr_head.
  - rewrite !join_cons_tail in Heq.
    apply Forall_cons in Hall as [Hx Hxs].
    apply Hx in Heq as [-> Htail]; try apply join_tail_nondigit.
    destruct xs as [|x' xs], ys as [|y' ys]; cbn [map join_tail] in Htail.
    + by injection Htail as ->.
    + exfalso. injection Htail as Hc _. by apply close_not_comma.
    + exfalso. injection Htail as Hc _. by apply close_not_comma.
    + injection Htail as Htail.
      destruct (IH Hxs (y' :: ys) r1 r2 Htail) as [-> ->]. done.
Qed.
End JoinInjective.

Lemma Printed_ind_nested (P : Printed -> Prop) :
  P PNull -> (forall b, P (PBoolean b)) -> (forall n, P (PNumber n)) ->
  (forall s, P (PString s)) ->
  (forall items, Forall P items -> P (PArray items)) ->
  (forall props, Forall (fun kv => P kv.2) props -> P (PObject props)) ->
  forall j, P j.
Proof.
  intros Hn Hb Hnum Hs Harr Hobj. fix IH 1.
  intros [|b|n|s|items|props];
    [apply Hn|apply Hb|apply Hnum|apply Hs| | ].
  - apply Harr. induction items as [|x items IHitems]; constructor; [apply IH|done].
  - apply Hobj. induction props as [|[key x] props IHprops]; constructor;
      [apply IH|done].
Qed.

Lemma print_array_app (items : list Printed) (r : string) :
  print (PArray items) +:+ r
  = String "[" (join "," (map print items) +:+ String "]" r).
Proof. cbn [print]. rewrite !str_app_assoc. done. Qed.

Lemma print_object_app (props : list (string * Printed)) (r : string) :
  print (PObject props) +:+ r
  = String "{" (join "," (map propertyText props) +:+ String "}" r).
Proof. cbn [print]. rewrite !str_app_assoc. done. Qed.

Lemma print_head (j : Printed) (r : string) :
  head_class (print j +:+ r) = value_class j.
Proof.
  destruct j as [|[]|n|s|items|props];
    first [done | apply number_toString_head
          | (cbn [print]; by rewrite quote_app)].
Qed.

Lemma propertyText_head (kv : string * Printed) (r : string) :
  head_class (propertyText kv +:+ r) <> 0%nat.
Proof. unfold propertyText. by rewrite str_app_assoc, quote_app. Qed.

(** The text of a value, followed by anything that does not start with a
    digit, determines the value and what follows. *)
Lemma print_prefix_inj (j1 : Printed) :
  forall (j2 : Printed) (r1 r2 : string),
    starts_nondigit r1 -> starts_nondigit r2 ->
    print j1 +:+ r1 = print j2 +:+ r2 ->
    j1 = j2 /\ r1 = r2.
Proof.
  induction j1 as [|b1|n1|s1|items1 IH|props1 IH] using Printed_ind_nested;
    intros j2 r1 r2 H1 H2 Heq;
    pose proof (f_equal head_class Heq) as Hclass;
    rewrite !print_head in Hclass;
    destruct j2 as [|b2|n2|s2|items2|props2]; try discriminate Hclass;
    clear Hclass.
  - cbn in Heq. by injection Heq.
  - destruct b1, b2; cbn in Heq; try discriminate Heq; by injection Heq.
  - cbn [print] in Heq.
    by destruct (number_toString_prefix_inj _ _ _ _ H1 H2 Heq) as [-> ->].
  - cbn [print] in Heq.
    by destruct (quote_prefix_inj _ _ _ _ Heq) as [-> ->].
  - rewrite !print_array_app in Heq. injection Heq as Heq.
    assert (forall x r, head_class (print x +:+ r) <> 0%nat) as Hhead.
    { intros x r. rewrite print_head. by destruct x. }
    by destruct (join_prefix_inj print "]" eq_refl ltac:(done) eq_refl
                   Hhead items1 IH items2 r1 r2 Heq) as [-> ->].
  - rewrite !print_object_app in Heq. injection Heq as Heq.
    assert (Forall (fun x => forall y t1 t2,
                      starts_nondigit t1 -> starts_nondigit t2 ->
                      propertyText x +:+ t1 = propertyText y +:+ t2 ->
                      x = y /\ t1 = t2) props1) as Hall.
    { eapply Forall_impl; [exact IH|].
      intros [k1 x1] Hx [k2 x2] t1 t2 Ht1 Ht2 Hkv. cbn [fst snd] in Hx.
      unfold propertyText in Hkv. cbn [fst snd] in Hkv.
      rewrite !str_app_assoc in Hkv.
      apply quote_prefix_inj in Hkv as [-> Hkv].
      cbn in Hkv. injection Hkv as Hkv.
      by destruct (Hx _ _ _ Ht1 Ht2 Hkv) as [-> ->]. }
    by destruct (join_prefix_inj propertyText "}" eq_refl ltac:(done) eq_refl
                   propertyText_head props1 Hall props2 r1 r2 Heq) as [-> ->].
Qed.

Lemma print_inj (j1 j2 : Printed) : print j1 = print j2 -> j1 = j2.
Proof.
  intros Heq.
  destruct (print_prefix_inj j1 j2 "" "") as [-> _]; try done.
  by rewrite !str_app_nil_r.
Qed.

Lemma JsonValue_ind_nested (P : JsonValue -> Prop) :
  P JNull -> (forall b, P (JBoolean b)) -> (forall x, P (JNumber x)) ->
  (forall s, P (JString s)) ->
  (forall items, Forall P items -> P (JArray items)) ->
  (forall props, Forall (fun kv => P kv.2) props -> P (JObject props)) ->
  forall j, P j.
Proof.
  intros Hn Hb Hnum Hs Harr Hobj. fix IH 1.
  intros [|b|x|s|items|props];
    [apply Hn|apply Hb|apply Hnum|apply Hs| | ].
  - apply Harr. induction items as [|x items IHitems]; constructor; [apply IH|done].
  - apply Hobj. induction props as [|[key x] props IHprops]; constructor;
      [apply IH|done].
Qed.

(** [JSON.stringify] writes the text of the printed value. *)
Lemma stringify_printed (j : JsonValue) : stringify j = print (printed j).
Proof.
  induction j as [|b|x|s|items IH|props IH] using JsonValue_ind_nested;
    cbn [stringify printed print]; try done.
  - by destruct x.
  - do 3 f_equal. rewrite map_map. apply map_ext_in.
    intros j Hj. rewrite Forall_forall in IH. by apply IH, list_elem_of_In.
  - do 3 f_equal. rewrite map_map. apply map_ext_in.
    intros [key j] Hj. rewrite Forall_forall in IH. cbn [fst snd].
    apply list_elem_of_In in Hj. pose proof (IH (key, j) Hj) as Hkv.
    cbn [snd] in Hkv. by rewrite Hkv.
Qed.

(** Two values have the same text exactly when they are printed alike. *)
Lemma stringify_inj (j1 j2 : JsonValue) :
  stringify j1 = stringify j2 <-> printed j1 = printed j2.
Proof.
  rewrite !stringify_printed. split; [apply print_inj | by intros ->].
Qed.

(** Two values have the same canonical text exactly when their canonical
    JSON values are printed alike. *)
Lemma stableStringify_inj (v1 v2 : value) :
  stableStringify v1 = stableStringify v2
  <-> printed (sortJsonValue v1) = printed (sortJsonValue v2).
Proof. unfold stableStringify. apply stringify_inj. Qed.

(** A value without a rewritten number is read back from its printed
    form. *)
Lemma unprinted_printed (j : JsonValue) :
  plain j = true -> unprinted (printed j) = j.
Proof.
  induction j as [|b|x|s|items IH|props IH] using JsonValue_ind_nested;
    cbn [plain printed unprinted]; try done.
  - by destruct x.
  - intros Hplain. f_equal. rewrite map_map.
    rewrite <- (map_id items) at 2. apply map_ext_in.
    intros j Hj. rewrite Forall_forall in IH. rewrite forallb_forall in Hplain.
    apply IH; [by apply list_elem_of_In | by apply Hplain].
  - intros Hplain. f_equal. rewrite map_map.
    rewrite <- (map_id props) at 2. apply map_ext_in.
    intros [key j] Hj. rewrite Forall_forall in IH.
    rewrite forallb_forall in Hplain. cbn [fst snd]. f_equal.
    apply (IH (key, j)); [by apply list_elem_of_In | by apply (Hplain (key, j))].
Qed.

Lemma printed_plain_inj (j1 j2 : JsonValue) :
  plain j1 = true -> plain j2 = true -> printed j1 = printed j2 -> j1 = j2.
Proof.
  intros H1 H2 Heq.
  by rewrite <- (unprinted_printed j1 H1), <- (unprinted_printed j2 H2), Heq.
Qed.

Lemma set_prop_Forall {B} (P : B -> Prop) (key : string) (v : B)
    (props : list (string * B)) :
  P v -> Forall (fun kv => P kv.2) props ->
  Forall (fun kv => P kv.2) (set_prop key v props).
Proof.
  intros Hv. induction 1 as [|[k w] props Hw Hprops IH]; cbn.
  - by repeat constructor.
  - destruct (String.eqb k key); constructor; done.
Qed.

Lemma fromEntries_Forall {B} (P : B -> Prop) (entries : list (string * B)) :
  Forall (fun kv => P kv.2) entries ->
  Forall (fun kv => P kv.2) (fromEntries entries).
Proof.
  intros Hall. unfold fromEntries, enumeration_order.
  assert (forall acc : list (string * B),
             Forall (fun kv => P kv.2) acc ->
             Forall (fun kv => P kv.2)
               (fold_left (fun obj kv => set_prop kv.1 kv.2 obj) entries acc))
    as Hfold.
  { induction Hall as [|kv entries Hkv _ IH]; intros acc Hacc; cbn [fold_left];
      [done|]. by apply IH, set_prop_Forall. }
  specialize (Hfold [] (Forall_nil_2 _)).
  apply Forall_app. split.
  - apply Forall_forall. intros kv Hkv. apply elem_of_stable_sort in Hkv.
    apply list_elem_of_filter in Hkv as [_ Hkv].
    rewrite Forall_forall in Hfold. by apply Hfold.
  - apply Forall_forall. intros kv Hkv.
    apply list_elem_of_filter in Hkv as [_ Hkv].
    rewrite Forall_forall in Hfold. by apply Hfold.
Qed.

Lemma sortedEntries_Forall {B} (P : B -> Prop) (absent : B)
    (entries : list (string * B)) :
  P absent -> Forall (fun kv => P kv.2) entries ->
  Forall (fun kv => P kv.2) (sortedEntries absent entries).
Proof.
  intros Habsent Hall. unfold sortedEntries. apply Forall_map, Forall_forall.
  intros key _. cbn [snd].
  destruct (get_prop key entries) as [v|] eqn:Hget; cbn [default]; [|done].
  clear -Hall Hget. induction Hall as [|[k w] entries Hw _ IH]; cbn in Hget;
    [done|].
  destruct (String.eqb k key); [by injection Hget as <- | by apply IH].
Qed.

(** The canonical value of a value with integer numbers only holds no
    rewritten number. *)
Lemma sortJsonValue_plain (v : value) :
  integer_numbers v = true -> plain (sortJsonValue v) = true.
Proof.
  induction v as [ | |b|x|s|n|iso|items IH|props IH] using value_ind_nested;
    cbn [integer_numbers sortJsonValue plain]; try done.
  - intros Hint. rewrite forallb_forall in Hint. apply forallb_forall.
    intros j Hj. apply in_map_iff in Hj as (v & <- & Hv).
    rewrite Forall_forall in IH.
    apply IH; [by apply list_elem_of_In | by apply Hint].
  - intros Hint. rewrite forallb_forall in Hint. apply forallb_forall.
    assert (Forall (fun kv : string * JsonValue => plain kv.2 = true)
              (fromEntries
                 (sortedEntries JNull
                    (map (fun kv => (kv.1, sortJsonValue kv.2)) props))))
      as Hall.
    { apply (fromEntries_Forall (fun j => plain j = true)).
      apply (sortedEntries_Forall (fun j => plain j = true)); [done|].
      apply Forall_map, Forall_forall. intros [key v] Hkv. cbn [snd].
      rewrite Forall_forall in IH.
      apply (IH (key, v) Hkv), (Hint (key, v)). by apply list_elem_of_In. }
    intros kv Hkv. rewrite Forall_forall in Hall.
    by apply Hall, list_elem_of_In.
Qed.

End StringifyInjective.

(* ===================================================================== *)
(** * Determinism of the canonical text and of the fingerprint *)
(* ===================================================================== *)

Section Determinism.
Import State JsLib Hashing CanonSpec JsonText Samples.

(** C7: two values that are equal up to the insertion order of object keys,
    at every nesting level, have the same canonical text and therefore the
    same fingerprint; the order of array elements stays significant: two
    arrays have the same text only if their elements are printed alike
    position by position (and, when all their numbers are integers, only
    if their elements have the same canonical values position by position),
    and swapping two elements can change the text. *)
Theorem C7_canonical_text_ignores_key_order :
  forall sha256Hex : string -> string,
    (forall v1 v2, key_order_equiv v1 v2 ->
       stableStringify v1 = stableStringify v2
       /\ sha256Hex (stableStringify v1) = sha256Hex (stableStringify v2))
    /\ (forall items1 items2,
         stableStringify (VArray items1) = stableStringify (VArray items2) ->
         map (fun v => printed (sortJsonValue v)) items1
         = map (fun v => printed (sortJsonValue v)) items2
         /\ (forallb integer_numbers items1 = true ->
             forallb integer_numbers items2 = true ->
             map sortJsonValue items1 = map sortJsonValue items2))
    /\ stableStringify (VArray [VNumber 1; VNumber 2])
       <> stableStringify (VArray [VNumber 2; VNumber 1]).
Proof.
  intros sha256Hex. split; [|split].
  - intros v1 v2 Hequiv.
    pose proof (stableStringify_key_order v1 v2 Hequiv) as Heq.
    split; [exact Heq | by rewrite Heq].
  - intros items1 items2 Heq. apply stableStringify_inj in Heq.
    split.
    + cbn in Heq. injection Heq as Heq. by rewrite !map_map in Heq.
    + intros H1 H2.
      assert (sortJsonValue (VArray items1) = sortJsonValue (VArray items2))
        as Hsame.
      { apply printed_plain_inj; [by apply sortJsonValue_plain
                                 | by apply sortJsonValue_plain | done]. }
      cbn in Hsame. by injection Hsame.
  - intros Heq. apply stableStringify_inj in Heq. cbn in Heq. discriminate Heq.
Qed.

Lemma nested_key_order_equiv : key_order_equiv nestedAB nestedBA.
Proof.
  unfold nestedAB, nestedBA.
  eapply (koe_object _ _
            [ ("a", VNumber 1);
              ("b", VObject [ ("y", VNull); ("x", VString "p") ]) ]).
  - apply (bool_decide_unpack _). by vm_compute.
  - constructor; [split; [done | constructor]|].
    constructor; [|constructor]. split; [done|].
    eapply (koe_object _ _ [ ("x", VString "p"); ("y", VNull) ]).
    + apply (bool_decide_unpack _). by vm_compute.
    + repeat constructor.
    + apply Permutation_swap.
  - apply Permutation_swap.
Qed.

Lemma C7_canonical_text_ignores_key_order_witness :
  stableStringify nestedAB = stableStringify nestedBA.
Proof.
  destruct (C7_canonical_text_ignores_key_order (fun text => text))
    as (Hsame & _ & _).
  by destruct (Hsame nestedAB nestedBA nested_key_order_equiv) as [Htext _].
Defined.

End Determinism.

(* ===================================================================== *)
(** * Sensitivity of the schema hash *)
(* ===================================================================== *)

Section SchemaHash.
Import State JsLib Hashing CanonSpec JsonText Samples.

Lemma projectColumn_same (c1 c2 : ColumnInfo) :
  same_definition c1 c2 -> projectColumn c1 = projectColumn c2.
Proof.
  intros (Hn & Ht & Hnull & Hd & Hpk). unfold projectColumn.
  by rewrite Hn, Ht, Hnull, Hd, Hpk.
Qed.

(** The canonical value of a projected column shows each projected field. *)
Lemma projectColumn_canonical (c : ColumnInfo) :
  sortJsonValue (projectColumn c)
  = JObject [ ("column_default", sortJsonValue (opt_string (columnDefault c)));
              ("column_name", JString (columnName c));
              ("data_type", JString (dataType c));
              ("is_nullable", JBoolean (isNullable c));
              ("pk_position", sortJsonValue (opt_number (pkPosition c))) ].
Proof. reflexivity. Qed.

Lemma projectColumn_canonical_inj (c1 c2 : ColumnInfo) :
  printed (sortJsonValue (projectColumn c1))
  = printed (sortJsonValue (projectColumn c2)) ->
  same_definition c1 c2.
Proof.
  rewrite !projectColumn_canonical. intros Heq. cbn [printed map fst snd] in Heq.
  injection Heq as Hd Hn Ht Hnull Hpk.
  repeat split; try done.
  - by destruct (columnDefault c1), (columnDefault c2); simplify_eq/=.
  - by destruct (pkPosition c1), (pkPosition c2); simplify_eq/=.
Qed.

(** Two lists sorted side by side: when the comparisons of the left
    components agree with those of the right components, sorting either
    list applies the same rearrangement. *)
Lemma sort_side_by_side (ps : list (ColumnInfo * ColumnInfo)) :
  (forall p q, p ∈ ps -> q ∈ ps -> ordinal_le p.1 q.1 = ordinal_le p.2 q.2) ->
  exists sorted,
    sorted ≡ₚ ps
    /\ stable_sort ordinal_le (map fst ps) = map fst sorted
    /\ stable_sort ordinal_le (map snd ps) = map snd sorted.
Proof.
  intros Hagree.
  exists (stable_sort (fun p q => ordinal_le p.1 q.1) ps).
  split; [apply stable_sort_Permutation|]. split.
  - apply stable_sort_map.
  - rewrite stable_sort_map. f_equal. symmetry. by apply stable_sort_ext.
Qed.

Lemma Forall2_pairs {X Y} (R : X -> Y -> Prop) (l : list X) (k : list Y) :
  Forall2 R l k ->
  exists ps, l = map fst ps /\ k = map snd ps /\ Forall (fun p => R p.1 p.2) ps.
Proof.
  induction 1 as [|x y l k Hxy Hall (ps & -> & -> & Hps)].
  - by exists [].
  - exists ((x, y) :: ps). repeat split; by try constructor.
Qed.

Lemma map_eq_pointwise {X Y} (f g : X -> Y) (l : list X) :
  map f l = map g l -> forall x, x ∈ l -> f x = g x.
Proof.
  induction l as [|a l IH]; intros Heq x Hx; [by apply elem_of_nil in Hx|].
  injection Heq as Ha Hl. apply elem_of_cons in Hx as [->|Hx]; [done | by apply IH].
Qed.

Lemma ordinal_le_agree (a b a' b' : ColumnInfo) :
  (ordinalPosition a <= ordinalPosition b
   <-> ordinalPosition a' <= ordinalPosition b') ->
  ordinal_le a b = ordinal_le a' b'.
Proof.
  intros Hiff. unfold ordinal_le.
  destruct (Z.leb_spec (ordinalPosition a - ordinalPosition b) 0),
           (Z.leb_spec (ordinalPosition a' - ordinalPosition b') 0);
    try done; lia.
Qed.

(** C8: the schema hash does not change when ordinal positions are
    renumbered in a way that keeps the relative order of the columns, the
    ordinal being the sort key only; and changing a projected field of a
    single column (data type, nullability, default, primary-key position, or
    name) changes the canonical text that is hashed, and with it the schema
    hash: the two hashes can be equal only if [sha256Hex] gives two
    different texts the same hash, and they differ whenever [sha256Hex]
    tells texts apart. *)
Theorem C8_schema_hash_sensitivity :
  forall sha256Hex : string -> string,
    (forall columns renumbered : list ColumnInfo,
       Forall2 same_definition columns renumbered ->
       (forall i j ci cj ri rj,
          columns !! i = Some ci -> columns !! j = Some cj ->
          renumbered !! i = Some ri -> renumbered !! j = Some rj ->
          (ordinalPosition ci <= ordinalPosition cj
           <-> ordinalPosition ri <= ordinalPosition rj)) ->
       computeSchemaHash sha256Hex columns
       = computeSchemaHash sha256Hex renumbered)
    /\ (forall (before after : list ColumnInfo) (c changed : ColumnInfo),
         ordinalPosition changed = ordinalPosition c ->
         ~ same_definition c changed ->
         stableStringify (canonicalSchema (before ++ c :: after))
         <> stableStringify (canonicalSchema (before ++ changed :: after))
         /\ (computeSchemaHash sha256Hex (before ++ c :: after)
             = computeSchemaHash sha256Hex (before ++ changed :: after) ->
             exists text1 text2,
               text1 <> text2 /\ sha256Hex text1 = sha256Hex text2)
         /\ ((forall text1 text2,
                 sha256Hex text1 = sha256Hex text2 -> text1 = text2) ->
             computeSchemaHash sha256Hex (before ++ c :: after)
             <> computeSchemaHash sha256Hex (before ++ changed :: after))).
Proof.
  intros sha256Hex. split.
  - intros columns renumbered Hsame Horder.
    destruct (Forall2_pairs _ _ _ Hsame) as (ps & -> & -> & Hps).
    destruct (sort_side_by_side ps) as (sorted & Hperm & Hl & Hr).
    { intros p q Hp Hq. apply ordinal_le_agree.
      apply list_elem_of_lookup in Hp as [i Hi].
      apply list_elem_of_lookup in Hq as [j Hj].
      apply (Horder i j); rewrite list_lookup_fmap; by (rewrite Hi || rewrite Hj). }
    unfold computeSchemaHash, canonicalSchema. rewrite Hl, Hr.
    do 3 f_equal. rewrite !map_map. apply map_ext_in.
    intros p Hp. apply projectColumn_same.
    rewrite Forall_forall in Hps. apply Hps.
    rewrite <- Hperm. by apply list_elem_of_In.
  - intros before after c changed Hord Hdiff.
    assert (stableStringify (canonicalSchema (before ++ c :: after))
            <> stableStringify (canonicalSchema (before ++ changed :: after)))
      as Htexts; [|split; [exact Htexts|split]].
    2:{ intros Hhash. unfold computeSchemaHash in Hhash. by eexists _, _. }
    2:{ intros Hinj Hhash. unfold computeSchemaHash in Hhash.
        by apply Htexts, Hinj. }
    intros Heq. apply stableStringify_inj in Heq.
    set (ps := map (fun x => (x, x)) before ++ (c, changed)
                 :: map (fun x => (x, x)) after).
    assert (map fst ps = before ++ c :: after) as Hfst.
    { subst ps. rewrite map_app. cbn. rewrite !map_map. cbn. by rewrite !map_id. }
    assert (map snd ps = before ++ changed :: after) as Hsnd.
    { subst ps. rewrite map_app. cbn. rewrite !map_map. cbn. by rewrite !map_id. }
    assert (forall p, p ∈ ps -> ordinalPosition p.1 = ordinalPosition p.2) as Hsameord.
    { intros p Hp. subst ps. apply elem_of_app in Hp as [Hp|Hp].
      - apply list_elem_of_fmap in Hp as (x & -> & _). done.
      - apply elem_of_cons in Hp as [->|Hp]; [done|].
        apply list_elem_of_fmap in Hp as (x & -> & _). done. }
    destruct (sort_side_by_side ps) as (sorted & Hperm & Hl & Hr).
    { intros p q Hp Hq. apply ordinal_le_agree.
      by rewrite (Hsameord p Hp), (Hsameord q Hq). }
    rewrite Hfst in Hl. rewrite Hsnd in Hr.
    unfold canonicalSchema in Heq. rewrite Hl, Hr in Heq.
    cbn in Heq. injection Heq as Heq. rewrite !map_map in Heq.
    apply Hdiff, projectColumn_canonical_inj.
    apply (map_eq_pointwise _ _ _ Heq (c, changed)).
    rewrite Hperm. subst ps. apply elem_of_app. right. by left.
Qed.

Lemma C8_schema_hash_sensitivity_witness :
  computeSchemaHash (fun text => text)
    [column "name" "text" 2; column "id" "integer" 1]
  = computeSchemaHash (fun text => text)
    [column "name" "text" 20; column "id" "integer" 10]
  /\ computeSchemaHash (fun text => text)
       [column "id" "integer" 1; column "name" "text" 2]
     <> computeSchemaHash (fun text => text)
          [column "id" "integer" 1; column "name" "varchar" 2].
Proof.
  destruct (C8_schema_hash_sensitivity (fun text => text)) as [Hrenumber Hchange].
  split.
  - apply Hrenumber.
    + repeat constructor.
    + intros [|[|i]] [|[|j]] ci cj ri rj Hci Hcj Hri Hrj; simplify_eq/=; lia.
  - destruct (Hchange [column "id" "integer" 1] [] (column "name" "text" 2)
                (column "name" "varchar" 2)) as (_ & _ & Hhash);
      [reflexivity | |].
    + intros (_ & Htype & _). discriminate Htype.
    + apply Hhash. by intros text1 text2.
Defined.

End SchemaHash.

(* ===================================================================== *)
(** * The document id *)
(* ===================================================================== *)

Section DocumentId.
Import State JsLib Hashing Transform CanonSpec JsonText Samples.

Lemma docIdInput_schema_inj (schema1 schema2 table : string)
    (primaryKey : list (string * value)) :
  docIdInput schema1 table primaryKey = docIdInput schema2 table primaryKey ->
  schema1 = schema2.
Proof. unfold docIdInput. apply str_app_inv_tail. Qed.

Lemma docIdInput_table_inj (schema table1 table2 : string)
    (primaryKey : list (string * value)) :
  docIdInput schema table1 primaryKey = docIdInput schema table2 primaryKey ->
  table1 = table2.
Proof.
  unfold docIdInput. intros Heq.
  apply (inj (String.app schema)) in Heq.
  apply (inj (String.app ".")) in Heq.
  by apply str_app_inv_tail in Heq.
Qed.

Lemma docIdInput_key_iff (schema table : string)
    (primaryKey1 primaryKey2 : list (string * value)) :
  docIdInput schema table primaryKey1 = docIdInput schema table primaryKey2
  <-> printed (sortJsonValue (VObject primaryKey1))
      = printed (sortJsonValue (VObject primaryKey2)).
Proof.
  unfold docIdInput. rewrite <- stableStringify_inj. split.
  - intros Heq.
    apply (inj (String.app schema)) in Heq.
    apply (inj (String.app ".")) in Heq.
    apply (inj (String.app table)) in Heq.
    by apply (inj (String.app "|")) in Heq.
  - by intros ->.
Qed.




End DocumentId.

(* ===================================================================== *)
(** * Excluded columns and the page content *)
(* ===================================================================== *)

Section PageContent.
Import State JsLib Hashing Transform CanonSpec Samples.

(** The columns selected for the page content are never excluded ones. *)
Lemma selected_columns_not_excluded (tableInfo : TableInfo)
    (textColumnsMode : TextColumnsMode) (excludedColumns : gset string)
    (name : string) :
  name ∈ selectPageContentColumns tableInfo textColumnsMode excludedColumns ->
  toLowerCase name ∉ excludedColumns.
Proof.
  unfold selectPageContentColumns. intros Hin.
  apply list_elem_of_fmap in Hin as (column & -> & Hin).
  apply list_elem_of_In, filter_In in Hin as [Hin _].
  apply filter_In in Hin as [_ Hexcl].
  apply negb_true_iff in Hexcl. unfold is_excluded in Hexcl.
  by apply bool_decide_eq_false in Hexcl.
Qed.

(** C4 fails on the fallback: when no selected column yields a line, the
    page content is the canonical text of the whole row, which holds the
    excluded column and its value. *)
Theorem C4_excluded_column_in_fallback_content :
  forall sha256Hex : string -> string,
    exists doc,
      transformRowToDocument sha256Hex secretRow usersInfo "run_1" auto ["secret"]
      = inr doc
      /\ pageContent (document doc)
         = "[public.users] " +:+ stableStringify (VObject secretRow)
      /\ includes (pageContent (document doc)) "secret" = true
      /\ includes (pageContent (document doc)) "token" = true.
Proof.
  intros sha256Hex. eexists. split; [reflexivity|].
  cbn [document pageContent]. by vm_compute.
Qed.

End PageContent.

(* ===================================================================== *)
(** * The repository's tests, replayed on the embedding *)
(* ===================================================================== *)

Section RepositoryTests.
Import State JsLib Hashing Transform Graph Spec Samples.

(** "returns full for table with no previous catalog" *)
Example planner_no_previous_catalog :
  (decideTableMode None "schema" "table" true).1 = full.
Proof. reflexivity. Qed.

(** "returns full when schema hash changes" *)
Example planner_schema_hash_changed :
  decideTableMode (Some (sampleCatalog "other_schema_hash" "table_hash_a"))
    "schema_hash_a" "table_hash_a" true
  = (full, "schema_hash_changed").
Proof. reflexivity. Qed.

(** "keeps running when one table fails and ends partial_success" *)
Example integration_partial_success :
  let plans := [plan "users" full; plan "orders" full] in
  let '(_, tableResults, _) := executePlansWithHandler testHandler plans tt in
  map status tableResults = [reindexed; failed]
  /\ map rowsUpserted tableResults = [5; 0]
  /\ computeRunStatus None tableResults = partial_success
  /\ tablesReindexed (summarizeRun plans tableResults) = 1
  /\ length (errors (summarizeRun plans tableResults)) = 1%nat.
Proof. cbn. repeat split. Qed.

(** "excludes configured columns from page content" *)
Example transform_excludes_configured_columns (sha256Hex : string -> string) :
  match transformRowToDocument sha256Hex aliceRow usersInfo "run_1" auto ["secret"] with
  | inr doc => pageContent (document doc) = "name: Alice"
  | inl _ => False
  end.
Proof. reflexivity. Qed.

(** A missing primary-key column is reported by a thrown error. *)
Example transform_missing_primary_key (sha256Hex : string -> string) :
  transformRowToDocument sha256Hex [("name", VString "Alice")] usersInfo
    "run_1" auto []
  = inl "Missing PK column id in public.users".
Proof. reflexivity. Qed.

End RepositoryTests.

(* ===================================================================== *)
(** * Further properties of the canonicaliser and of the hashes *)
(* ===================================================================== *)

Section CanonicalTextMore.
Import State JsLib Hashing CanonSpec JsonText Samples MoreSpec.

(** X1: the canonical text determines how the canonical value is printed,
    and no more: two values have the same canonical text exactly when their
    canonical values are printed alike, a number that is not finite being
    printed as [null] and negative zero as [0]; so [NaN], the infinities and
    [null] share a text.  For values all of whose numbers are integers the
    text determines the canonical value itself. *)
Theorem X1_canonical_text_determines_value :
  (forall j1 j2 : JsonValue,
      stringify j1 = stringify j2 <-> printed j1 = printed j2)
  /\ (forall v1 v2 : value,
        stableStringify v1 = stableStringify v2
        <-> printed (sortJsonValue v1) = printed (sortJsonValue v2))
  /\ (forall v1 v2 : value,
        integer_numbers v1 = true -> integer_numbers v2 = true ->
        (stableStringify v1 = stableStringify v2
         <-> sortJsonValue v1 = sortJsonValue v2))
  /\ stableStringify (VArray [VNumber NaN]) = stableStringify (VArray [VNull])
  /\ stableStringify (VNumber Infinity) = stableStringify (VNumber NaN)
  /\ stableStringify (VNumber NegZero) = stableStringify (VNumber 0).
Proof.
  split; [apply stringify_inj|]. split; [apply stableStringify_inj|].
  split; [|by repeat split].
  intros v1 v2 H1 H2. rewrite stableStringify_inj. split.
  - apply printed_plain_inj; by apply sortJsonValue_plain.
  - by intros ->.
Qed.

Lemma X1_canonical_text_determines_value_witness :
  sortJsonValue (VArray [VUndefined; VDate "2026-02-10T10:00:00.000Z"])
  = sortJsonValue (VArray [VNull; VString "2026-02-10T10:00:00.000Z"]).
Proof.
  destruct X1_canonical_text_determines_value as (_ & _ & Htext & _).
  apply Htext; reflexivity.
Defined.

(** [obj[key] = v] over entries with fresh, pairwise distinct keys only
    appends. *)
Lemma fold_set_prop_fresh {B} (entries : list (string * B)) :
  forall acc : list (string * B),
    NoDup (map fst acc ++ map fst entries) ->
    fold_left (fun obj kv => set_prop kv.1 kv.2 obj) entries acc = acc ++ entries.
Proof.
  induction entries as [|[k v] entries IH]; intros acc Hnd; cbn.
  - by rewrite app_nil_r.
  - rewrite set_prop_fresh.
    + rewrite IH; [by rewrite <- app_assoc|].
      rewrite map_app. cbn. by rewrite <- app_assoc.
    + cbn in Hnd. apply NoDup_app in Hnd as (_ & Hdisj & _).
      intros Hin. apply (Hdisj _ Hin). by left.
Qed.

Lemma enumeration_order_no_index {B} (props : list (string * B)) :
  Forall (fun kv => array_index kv.1 = None) props ->
  enumeration_order props = props.
Proof.
  intros Hall. unfold enumeration_order.
  assert (filter (fun kv : string * B => is_index_prop kv = true) props = []) as ->.
  { induction Hall as [|kv l Hkv Hall IH]; [done|].
    rewrite filter_cons_False; [done|].
    unfold is_index_prop. rewrite Hkv. by cbn. }
  cbn. induction Hall as [|kv l Hkv Hall IH]; [done|].
  rewrite filter_cons_True; [by rewrite IH|].
  unfold is_index_prop. rewrite Hkv. by cbn.
Qed.

Lemma fromEntries_plain {B} (entries : list (string * B)) :
  NoDup (map fst entries) ->
  Forall (fun kv => array_index kv.1 = None) entries ->
  fromEntries entries = entries.
Proof.
  intros Hnd Hall. unfold fromEntries.
  rewrite (fold_set_prop_fresh entries []) by done.
  by apply enumeration_order_no_index.
Qed.

Lemma get_prop_own {B} (props : list (string * B)) (k : string) (v : B) :
  NoDup (map fst props) -> (k, v) ∈ props -> get_prop k props = Some v.
Proof.
  induction props as [|[k' v'] props IH]; intros Hnd Hin.
  - by apply elem_of_nil in Hin.
  - cbn in *. apply NoDup_cons in Hnd as [Hfresh Hnd].
    apply elem_of_cons in Hin as [Heq|Hin].
    + injection Heq as -> ->. by rewrite String.eqb_refl.
    + destruct (String.eqb_spec k' k) as [->|_]; [|by apply IH].
      exfalso. apply Hfresh. apply list_elem_of_fmap. by exists (k, v).
Qed.

Lemma sortedEntries_Permutation_self {B} (absent : B) (entries : list (string * B)) :
  NoDup (map fst entries) -> sortedEntries absent entries ≡ₚ entries.
Proof.
  intros Hnd. unfold sortedEntries.
  rewrite (stable_sort_Permutation String.leb (map fst entries)).
  rewrite map_map. erewrite map_ext_in; [by rewrite map_id|].
  intros [k v] Hin. cbn.
  by rewrite (get_prop_own entries k v Hnd) by (by apply list_elem_of_In).
Qed.

Lemma sortedEntries_keys {B} (absent : B) (entries : list (string * B)) :
  map fst (sortedEntries absent entries) = stable_sort String.leb (map fst entries).
Proof. unfold sortedEntries. rewrite map_map. cbn. by rewrite map_id. Qed.

(** X2: an object whose keys are pairwise distinct and none of which is an
    array index is canonicalised to an object with the same keys in
    ascending code-unit order, each with the canonical form of its value. *)
Theorem X2_canonical_object_keys_sorted :
  forall props : list (string * value),
    NoDup (map fst props) ->
    Forall (fun key => array_index key = None) (map fst props) ->
    exists entries,
      sortJsonValue (VObject props) = JObject entries
      /\ Sorted String.le (map fst entries)
      /\ entries ≡ₚ map sortedProp props.
Proof.
  intros props Hnd Hplain.
  set (processed := map (fun kv => (kv.1, sortJsonValue kv.2)) props).
  assert (map fst processed = map fst props) as Hkeys
    by (subst processed; by rewrite map_map).
  exists (sortedEntries JNull processed).
  assert (sortedEntries JNull processed ≡ₚ processed) as Hperm
    by (apply sortedEntries_Permutation_self; by rewrite Hkeys).
  split; [|split].
  - cbn. fold processed. f_equal. apply fromEntries_plain.
    + rewrite sortedEntries_keys, Hkeys.
      by rewrite (stable_sort_Permutation String.leb (map fst props)).
    + rewrite Forall_forall. intros kv Hin.
      assert (kv.1 ∈ map fst props) as Hk.
      { rewrite <- Hkeys, <- Hperm. apply list_elem_of_fmap. by exists kv. }
      rewrite Forall_forall in Hplain. by apply Hplain.
  - rewrite sortedEntries_keys.
    apply (stable_sort_Sorted String.leb String.le String_leb_le).
  - exact Hperm.
Qed.

Lemma X2_canonical_object_keys_sorted_witness :
  exists entries,
    sortJsonValue (VObject [("b", VNumber 2); ("a", VBigInt 1)]) = JObject entries
    /\ Sorted String.le (map fst entries)
    /\ entries ≡ₚ [("b", JNumber 2); ("a", JString "1")].
Proof.
  apply (X2_canonical_object_keys_sorted [("b", VNumber 2); ("a", VBigInt 1)]).
  - apply (bool_decide_unpack _). by vm_compute.
  - repeat constructor.
Defined.

(** X3: the text hashed by [computeTableHash] determines its four fields:
    a change of the schema hash, of the row count, of the latest update
    timestamp or of the maximal primary key changes the hashed text. *)
Theorem X3_table_hash_text_determines_fields :
  forall (schemaHash1 schemaHash2 : string) (rowCount1 rowCount2 : Z)
         (maxUpdatedAt1 maxUpdatedAt2 maxPk1 maxPk2 : option string),
    computeTableHash (fun text => text) schemaHash1 rowCount1 maxUpdatedAt1 maxPk1
    = computeTableHash (fun text => text) schemaHash2 rowCount2 maxUpdatedAt2 maxPk2
    <-> schemaHash1 = schemaHash2 /\ rowCount1 = rowCount2
        /\ maxUpdatedAt1 = maxUpdatedAt2 /\ maxPk1 = maxPk2.
Proof.
  intros. unfold computeTableHash. rewrite stableStringify_inj. split.
  - intros Heq.
    assert (forall o1 o2 : option string,
              printed (sortJsonValue (opt_string o1))
              = printed (sortJsonValue (opt_string o2)) ->
              o1 = o2) as Hopt.
    { intros [s1|] [s2|] H; by simplify_eq/=. }
    change (PObject
              [ ("max_pk_lexicographic",
                 printed (sortJsonValue (opt_string maxPk1)));
                ("max_updated_at",
                 printed (sortJsonValue (opt_string maxUpdatedAt1)));
                ("row_count", PNumber rowCount1);
                ("schema_hash", PString schemaHash1) ]
            = PObject
                [ ("max_pk_lexicographic",
                   printed (sortJsonValue (opt_string maxPk2)));
                  ("max_updated_at",
                   printed (sortJsonValue (opt_string maxUpdatedAt2)));
                  ("row_count", PNumber rowCount2);
                  ("schema_hash", PString schemaHash2) ]) in Heq.
    injection Heq as Hpk Hup Hrows Hschema.
    repeat split; auto.
  - by intros (-> & -> & -> & ->).
Qed.

Lemma X3_table_hash_text_determines_fields_witness :
  computeTableHash (fun text => text) "s" 10 None (Some "10")
  <> computeTableHash (fun text => text) "s" 11 None (Some "10").
Proof.
  intros Heq.
  apply X3_table_hash_text_determines_fields in Heq as (_ & Hrows & _).
  discriminate Hrows.
Defined.

Lemma ordinal_le_order (c1 c2 : ColumnInfo) :
  ordinal_le c1 c2 = true <-> ordinal_order c1 c2.
Proof. unfold ordinal_le, ordinal_order. rewrite Z.leb_le. lia. Qed.

Lemma same_ordinal_same_column (columns : list ColumnInfo) (c1 c2 : ColumnInfo) :
  NoDup (map ordinalPosition columns) -> c1 ∈ columns -> c2 ∈ columns ->
  ordinalPosition c1 = ordinalPosition c2 -> c1 = c2.
Proof.
  intros Hnd H1 H2 Hord. induction columns as [|c l IH]; [by apply elem_of_nil in H1|].
  cbn in Hnd. apply NoDup_cons in Hnd as [Hfresh Hnd].
  apply elem_of_cons in H1 as [->|H1], H2 as [->|H2]; try done.
  - exfalso. apply Hfresh. rewrite Hord. apply list_elem_of_fmap. by exists c2.
  - exfalso. apply Hfresh. rewrite <- Hord. apply list_elem_of_fmap. by exists c1.
  - by apply IH.
Qed.

(** X4: with pairwise distinct ordinal positions the schema hash does not
    depend on the order in which the columns are listed. *)
Theorem X4_schema_hash_ignores_listing_order :
  forall (sha256Hex : string -> string) (columns listed : list ColumnInfo),
    NoDup (map ordinalPosition columns) ->
    columns ≡ₚ listed ->
    computeSchemaHash sha256Hex columns = computeSchemaHash sha256Hex listed.
Proof.
  intros sha256Hex columns listed Hnd Hperm.
  unfold computeSchemaHash, canonicalSchema. do 4 f_equal.
  assert (Total ordinal_order) as Htotal
    by (intros c1 c2; unfold ordinal_order; lia).
  assert (Transitive ordinal_order) as Htrans
    by (intros c1 c2 c3; unfold ordinal_order; lia).
  apply (Sorted_unique_strong ordinal_order).
  - intros c1 c2 H1 H2 H12 H21.
    apply elem_of_stable_sort in H1, H2. rewrite <- Hperm in H2.
    apply (same_ordinal_same_column columns); try done.
    unfold ordinal_order in *. lia.
  - apply (stable_sort_Sorted ordinal_le ordinal_order ordinal_le_order).
  - apply (stable_sort_Sorted ordinal_le ordinal_order ordinal_le_order).
  - by rewrite !stable_sort_Permutation.
Qed.

Lemma X4_schema_hash_ignores_listing_order_witness :
  computeSchemaHash (fun text => text)
    [column "id" "integer" 1; column "name" "text" 2]
  = computeSchemaHash (fun text => text)
    [column "name" "text" 2; column "id" "integer" 1].
Proof.
  apply X4_schema_hash_ignores_listing_order.
  - apply (bool_decide_unpack _). by vm_compute.
  - apply Permutation_swap.
Defined.

End CanonicalTextMore.

(* ===================================================================== *)
(** * Further properties of the row transformer *)
(* ===================================================================== *)

Section TransformMore.
Import State JsLib Hashing Transform CanonSpec Samples MoreSpec.

#[local] Arguments String.append : simpl nomatch.

Lemma length_pos_nonempty (s : string) :
  (0 <? String.length s)%nat = negb (String.eqb s "").
Proof. by destruct s. Qed.

Lemma join_nonempty_head (sep line : string) (rest : list string) :
  line <> "" -> join sep (line :: rest) <> "".
Proof. destruct line; [done|]. intros _. by destruct rest. Qed.

(** X5: the page content is never empty: either some line is produced, or
    the fallback writes the bracketed table name before the row. *)
Theorem X5_page_content_never_empty :
  forall (sha256Hex : string -> string) (row : list (string * value))
         (tableInfo : TableInfo) (runId : string)
         (textColumnsMode : TextColumnsMode) (excludedColumns : list string),
    createPageContent row tableInfo textColumnsMode
      (list_to_set (map toLowerCase excludedColumns)) <> ""
    /\ match transformRowToDocument sha256Hex row tableInfo runId
               textColumnsMode excludedColumns with
       | inr doc => pageContent (document doc) <> ""
       | inl _ => True
       end.
Proof.
  intros sha256Hex row tableInfo runId textColumnsMode excludedColumns.
  assert (forall excluded, createPageContent row tableInfo textColumnsMode excluded <> "")
    as Hcontent.
  { intros excluded. unfold createPageContent.
    destruct (List.filter _ _) as [|line rest] eqn:Hlines; cbn [length Nat.ltb Nat.leb].
    - done.
    - apply join_nonempty_head.
      assert (In line (line :: rest)) as Hin by (by left).
      rewrite <- Hlines in Hin. apply filter_In in Hin as [_ Hlen].
      rewrite length_pos_nonempty in Hlen.
      by apply negb_true_iff, String.eqb_neq in Hlen. }
  split; [apply Hcontent|].
  unfold transformRowToDocument.
  destruct (extractPrimaryKey row tableInfo); [done|]. cbn. apply Hcontent.
Qed.

(** The set built from the excluded names holds a lower-cased column name
    exactly when some excluded name has the same lower-case form. *)
Lemma is_excluded_forallb (excludedColumns : list string) (column : ColumnInfo) :
  negb (is_excluded (list_to_set (map toLowerCase excludedColumns)) column)
  = forallb (fun e => negb (String.eqb (toLowerCase e)
                                       (toLowerCase (columnName column))))
            excludedColumns.
Proof.
  unfold is_excluded. apply eq_true_iff_eq.
  rewrite negb_true_iff, bool_decide_eq_false, elem_of_list_to_set, forallb_forall.
  split.
  - intros Hnot e He. apply negb_true_iff, String.eqb_neq. intros Heq.
    apply Hnot. rewrite <- Heq. apply list_elem_of_fmap. exists e.
    split; [done | by apply list_elem_of_In].
  - intros Hall Hin. apply list_elem_of_fmap in Hin as (e & Heq & He).
    apply list_elem_of_In in He. specialize (Hall e He).
    apply negb_true_iff, String.eqb_neq in Hall. by apply Hall.
Qed.

Lemma pageLine_nonempty (row : list (string * value)) (name : string) :
  (0 <? String.length (pageLine row name))%nat
  = negb (String.eqb (normalizeValue (row_get row name)) "").
Proof.
  unfold pageLine. cbv zeta.
  rewrite (length_pos_nonempty (normalizeValue (row_get row name))).
  destruct (String.eqb_spec (normalizeValue (row_get row name)) "") as [->|Hne];
    cbn [negb]; [done|].
  by destruct name.
Qed.

(** The lines of the page content, read off the columns directly. *)
Lemma page_lines_of_columns (row : list (string * value))
    (textColumnsMode : TextColumnsMode) (excludedColumns : list string)
    (columns : list ColumnInfo) :
  List.filter (fun line => (0 <? String.length line)%nat)
    (map (pageLine row)
       (map columnName
          (List.filter
             (fun column =>
                match textColumnsMode with
                | all => true
                | auto => isTextualColumn (dataType column)
                end)
             (List.filter
                (fun column =>
                   negb (is_excluded (list_to_set (map toLowerCase excludedColumns))
                           column))
                columns))))
  = map (line_of row)
        (List.filter (yields_line row textColumnsMode excludedColumns) columns).
Proof.
  induction columns as [|c l IH]; [done|].
  cbn [List.filter]. unfold yields_line at 1.
  rewrite <- is_excluded_forallb.
  destruct (negb (is_excluded _ c)); cbn [andb List.filter]; [|exact IH].
  destruct (match textColumnsMode with all => true | auto => _ end);
    cbn [andb List.filter map]; [|exact IH].
  rewrite pageLine_nonempty.
  destruct (negb (String.eqb _ "")) eqn:Hval; cbn [map]; [|exact IH].
  rewrite <- IH. f_equal. unfold pageLine, line_of.
  rewrite length_pos_nonempty, Hval. done.
Qed.



Lemma has_prop_present (row : list (string * value)) (column : string) :
  has_prop column row = true <-> present row column.
Proof. unfold has_prop, present. apply bool_decide_eq_true. Qed.

Lemma has_prop_absent (row : list (string * value)) (column : string) :
  has_prop column row = false <-> get_prop column row = None.
Proof.
  unfold has_prop. rewrite bool_decide_eq_false.
  destruct (get_prop column row); split; try done.
  intros H. exfalso. by apply H.
Qed.

Lemma extractPrimaryKeyLoop_found (row : list (string * value))
    (tableInfo : TableInfo) (pkColumns : list string) :
  forall acc,
    Forall (present row) pkColumns ->
    extractPrimaryKeyLoop row tableInfo pkColumns acc
    = inr (fold_left (fun pk c => set_prop c (row_get row c) pk) pkColumns acc).
Proof.
  induction pkColumns as [|c l IH]; intros acc Hall; cbn; [done|].
  apply Forall_cons in Hall as [Hc Hl].
  apply has_prop_present in Hc. rewrite Hc. cbn. by apply IH.
Qed.

Lemma extractPrimaryKeyLoop_missing (row : list (string * value))
    (tableInfo : TableInfo) (before : list string) (c : string)
    (after : list string) :
  forall acc,
    Forall (present row) before -> get_prop c row = None ->
    extractPrimaryKeyLoop row tableInfo (before ++ c :: after) acc
    = inl (missing_pk_message tableInfo c).
Proof.
  induction before as [|b l IH]; intros acc Hall Hc; cbn.
  - apply has_prop_absent in Hc. by rewrite Hc.
  - apply Forall_cons in Hall as [Hb Hl].
    apply has_prop_present in Hb. rewrite Hb. cbn. by apply IH.
Qed.

(** Either every column is in the row, or there is a first one that is not. *)
Lemma first_missing (row : list (string * value)) (pkColumns : list string) :
  Forall (present row) pkColumns
  \/ exists before c after,
       pkColumns = before ++ c :: after
       /\ Forall (present row) before /\ get_prop c row = None.
Proof.
  induction pkColumns as [|c l [IH|(before & m & after & -> & Hb & Hm)]].
  - by left.
  - destruct (get_prop c row) as [v|] eqn:Hc.
    + left. constructor; [|done]. unfold present. by rewrite Hc.
    + right. by exists [], c, l.
  - destruct (get_prop c row) as [v|] eqn:Hc.
    + right. exists (c :: before), m, after. split; [done|]. split; [|done].
      constructor; [|done]. unfold present. by rewrite Hc.
    + right. by exists [], c, (before ++ m :: after).
Qed.



Lemma get_prop_set_prop (key k : string) (v : value) (props : list (string * value)) :
  get_prop k (set_prop key v props)
  = if decide (key = k) then Some v else get_prop k props.
Proof.
  induction props as [|[k' w] props IH]; cbn.
  - destruct (String.eqb_spec key k), (decide (key = k)); done.
  - destruct (String.eqb_spec k' key) as [->|Hne]; cbn.
    + destruct (String.eqb_spec key k), (decide (key = k)); done.
    + destruct (String.eqb_spec k' k) as [->|Hne'].
      * by destruct (decide (key = k)).
      * exact IH.
Qed.

Lemma get_prop_extracted (row : list (string * value)) (pkColumns : list string)
    (k : string) :
  forall acc,
    get_prop k (fold_left (fun pk c => set_prop c (row_get row c) pk) pkColumns acc)
    = if decide (k ∈ pkColumns) then Some (row_get row k) else get_prop k acc.
Proof.
  induction pkColumns as [|c l IH]; intros acc; cbn [fold_left].
  - destruct (decide (k ∈ [])) as [Hin|]; [|done]. by apply elem_of_nil in Hin.
  - rewrite IH, get_prop_set_prop.
    destruct (decide (k ∈ l)) as [Hl|Hl].
    + destruct (decide (k ∈ c :: l)) as [|Hn]; [done|].
      exfalso. apply Hn. by right.
    + destruct (decide (c = k)) as [->|Hne].
      * destruct (decide (k ∈ k :: l)) as [|Hn]; [done|].
        exfalso. apply Hn. by left.
      * destruct (decide (k ∈ c :: l)) as [Hin|]; [|done].
        apply elem_of_cons in Hin as [->|Hin]; done.
Qed.

Lemma keys_extracted (row : list (string * value)) (pkColumns : list string) :
  forall acc,
    NoDup (map fst acc ++ pkColumns) ->
    map fst (fold_left (fun pk c => set_prop c (row_get row c) pk) pkColumns acc)
    = map fst acc ++ pkColumns.
Proof.
  induction pkColumns as [|c l IH]; intros acc Hnd; cbn [fold_left].
  - by rewrite app_nil_r.
  - rewrite IH.
    + rewrite set_prop_fresh.
      * rewrite map_app. cbn. by rewrite <- app_assoc.
      * apply NoDup_app in Hnd as (_ & Hdisj & _).
        intros Hin. apply (Hdisj _ Hin). by left.
    + rewrite set_prop_fresh.
      * rewrite map_app. cbn. by rewrite <- app_assoc.
      * apply NoDup_app in Hnd as (_ & Hdisj & _).
        intros Hin. apply (Hdisj _ Hin). by left.
Qed.

(** X8: for a table none of whose primary-key columns is named like a
    member of [Object.prototype], the primary key extracted from a row
    holds, for every primary-key column, the row's value of that column, and
    no other property; with pairwise distinct column names its keys are the
    primary-key columns, each once. *)
Theorem X8_primary_key_is_the_rows :
  forall (row : list (string * value)) (tableInfo : TableInfo)
         (primaryKey : list (string * value)),
    Forall (fun column => own_name column = true) (pkColumns tableInfo) ->
    extractPrimaryKey row tableInfo = inr primaryKey ->
    (forall c, In c (pkColumns tableInfo) ->
               is_Some (get_prop c row)
               /\ get_prop c primaryKey = get_prop c row)
    /\ (forall c, ~ In c (pkColumns tableInfo) -> get_prop c primaryKey = None)
    /\ (NoDup (pkColumns tableInfo) ->
        Permutation (map fst primaryKey) (pkColumns tableInfo)).
Proof.
  intros row tableInfo primaryKey _ Hextract.
  unfold extractPrimaryKey in Hextract.
  destruct (first_missing row (pkColumns tableInfo))
    as [Hall|(before & c & after & Hpk & Hb & Hc)].
  2:{ rewrite Hpk, (extractPrimaryKeyLoop_missing row tableInfo before c after)
        in Hextract by done. discriminate Hextract. }
  rewrite (extractPrimaryKeyLoop_found row tableInfo _ [] Hall) in Hextract.
  injection Hextract as <-. split; [|split].
  - intros c Hc. rewrite Forall_forall in Hall.
    assert (present row c) as [v Hv] by (by apply Hall, list_elem_of_In).
    split; [by exists v|].
    rewrite get_prop_extracted.
    destruct (decide (c ∈ pkColumns tableInfo)) as [|Hn].
    + unfold row_get. by rewrite Hv.
    + exfalso. by apply Hn, list_elem_of_In.
  - intros c Hc. rewrite get_prop_extracted.
    destruct (decide (c ∈ pkColumns tableInfo)) as [Hin|]; [|done].
    exfalso. by apply Hc, list_elem_of_In.
  - intros Hnd. by rewrite (keys_extracted row _ []).
Qed.

Lemma X8_primary_key_is_the_rows_witness :
  get_prop "id" [("id", VNumber 1)] = get_prop "id" aliceRow.
Proof.
  destruct (X8_primary_key_is_the_rows aliceRow usersInfo [("id", VNumber 1)])
    as [Hvalues _]; [by repeat constructor | reflexivity |].
  apply (Hvalues "id"). by left.
Defined.

Lemma extractPrimaryKeyLoop_agree (row1 row2 : list (string * value))
    (tableInfo : TableInfo) (pkColumns : list string) :
  (forall c, In c pkColumns -> get_prop c row1 = get_prop c row2) ->
  forall acc,
    extractPrimaryKeyLoop row1 tableInfo pkColumns acc
    = extractPrimaryKeyLoop row2 tableInfo pkColumns acc.
Proof.
  induction pkColumns as [|c l IH]; intros Hagree acc; cbn; [done|].
  unfold has_prop, row_get. rewrite (Hagree c) by (by left).
  destruct (bool_decide _); cbn; [|done].
  apply IH. intros k Hk. apply Hagree. by right.
Qed.



End TransformMore.

(* ===================================================================== *)
(** * Further properties of the planning stage and of the run summary *)
(* ===================================================================== *)

Section PlanningMore.
Import State JsLib Graph Planning Spec PlanSpec MoreSpec Samples.
#[local] Arguments String.append : simpl nomatch.

Lemma fold_insert_last {A B : Type} (key_of : A -> string) (val : A -> B)
    (key : string) (items : list A) :
  forall m : gmap string B,
    fold_left (fun m item => <[key_of item := val item]> m) items m !! key
    = match last (filter (fun item => key_of item = key) items) with
      | Some item => Some (val item)
      | None => m !! key
      end.
Proof.
  induction items as [|item rest IH]; intros m; cbn [fold_left]; [done|].
  rewrite IH. destruct (decide (key_of item = key)) as [Hk|Hk].
  - rewrite filter_cons_True by done. rewrite last_cons.
    destruct (last (filter _ rest)); [done|]. by rewrite <- Hk, lookup_insert_eq.
  - rewrite filter_cons_False by done.
    destruct (last (filter _ rest)); [done|]. by rewrite lookup_insert_ne.
Qed.

Lemma snapshotByTable_lookup (key : string) (tableSnapshots : list TableSnapshot) :
  snapshotByTable tableSnapshots !! key = snapshot_of key tableSnapshots.
Proof.
  unfold snapshotByTable, snapshot_of.
  rewrite (fold_insert_last
             (fun snapshot => tableKey (ts_schema snapshot) (ts_table snapshot))
             (fun snapshot => snapshot)).
  by destruct (last _).
Qed.

Lemma has_primary_key_test (tableInfo : TableInfo) :
  (0 <? Z.of_nat (length (pkColumns tableInfo))) = true
  <-> pkColumns tableInfo <> [].
Proof.
  rewrite Z.ltb_lt. destruct (pkColumns tableInfo); cbn; split; try done; lia.
Qed.

(** X10: [buildTablePlans] answers with one plan per discovered table, in
    the order of the tables and under their names; the plan is [full]
    exactly when the table has a primary key and a snapshot, and the catalog
    holds no record of it or one that differs from the last snapshot of the
    table in the schema hash or the table hash; a table without a snapshot
    is skipped as [snapshot_missing]. *)
Theorem X10_plans_follow_tables :
  forall (tableInfos : list TableInfo) (tableSnapshots : list TableSnapshot)
         (catalogByTable : gmap string (option ControlCatalogRecord)),
    Forall2
      (fun tableInfo plan =>
         let key := tableKey (ti_schema tableInfo) (ti_table tableInfo) in
         tp_schema plan = ti_schema tableInfo
         /\ tp_table plan = ti_table tableInfo
         /\ (tp_mode plan = full <->
             pkColumns tableInfo <> []
             /\ exists snapshot,
                 snapshot_of key tableSnapshots = Some snapshot
                 /\ forall previous,
                     mjoin (catalogByTable !! key) = Some previous ->
                     hashes_differ previous snapshot)
         /\ (snapshot_of key tableSnapshots = None ->
             tp_mode plan = skip /\ tp_reason plan = "snapshot_missing"))
      tableInfos
      (buildTablePlans tableInfos tableSnapshots catalogByTable).
Proof.
  intros tableInfos tableSnapshots catalogByTable. unfold buildTablePlans.
  induction tableInfos as [|tableInfo rest IH]; cbn [map]; constructor; [|exact IH].
  cbv zeta. rewrite snapshotByTable_lookup.
  destruct (snapshot_of _ tableSnapshots) as [snapshot|] eqn:Hsnap; cbn.
  2:{ repeat split; try done. by intros (_ & snapshot & ? & _). }
  split; [done|]. split; [done|]. split; [|done].
  unfold decideTableMode, getTableModeReason, hashes_differ.
  destruct (0 <? Z.of_nat (length (pkColumns tableInfo))) eqn:Hpk; cbn.
  2:{ split; [done|]. intros [Hne _]. apply has_primary_key_test in Hne.
      by rewrite Hpk in Hne. }
  apply has_primary_key_test in Hpk.
  destruct (mjoin (catalogByTable !! _)) as [previous|]; cbn.
  2:{ split; [|done]. intros _. split; [done|]. by exists snapshot. }
  destruct (String.eqb_spec (schema_hash previous) (schemaHash snapshot))
    as [Hs|Hs]; cbn.
  - destruct (String.eqb_spec (table_hash previous) (tableHash snapshot))
      as [Ht|Ht]; cbn.
    + split; [done|]. intros (_ & snapshot' & [= <-] & Hdiff).
      by destruct (Hdiff previous eq_refl).
    + split; [|done]. intros _. split; [done|]. exists snapshot.
      split; [done|]. intros ? [= <-]. by right.
  - split; [|done]. intros _. split; [done|]. exists snapshot.
    split; [done|]. intros ? [= <-]. by left.
Qed.

Lemma X10_plans_follow_tables_witness :
  map tp_mode (buildTablePlans [usersInfo] [sampleSnapshot] ∅) = [full].
Proof.
  pose proof (X10_plans_follow_tables [usersInfo] [sampleSnapshot] ∅) as Hplans.
  apply Forall2_cons_inv_l in Hplans
    as (plan & rest & (_ & _ & Hfull & _) & Hrest & ->).
  apply Forall2_nil_inv_l in Hrest as ->.
  cbn [map]. f_equal. apply Hfull. split; [done|].
  exists sampleSnapshot. split; [reflexivity|].
  intros previous Hprevious. discriminate Hprevious.
Defined.

(** X11: a catalog record always takes the two hashes of the snapshot it
    is built from, whatever the outcome of the run was for the table.  So
    when the catalog holds, for every table with a snapshot, a record built
    in an earlier run from a snapshot with the same two hashes, no table is
    planned [full]: an unchanged table is skipped, also after a run in
    which it failed. *)
Theorem X11_unchanged_table_not_reindexed :
  forall (tableInfos : list TableInfo) (tableSnapshots : list TableSnapshot)
         (catalogByTable : gmap string (option ControlCatalogRecord)),
    (forall key snapshot,
        snapshot_of key tableSnapshots = Some snapshot ->
        exists recorded result existing runId finishedAt fatalError,
          catalogByTable !! key
          = Some (Some (buildCatalogRecord recorded result existing runId
                          finishedAt fatalError))
          /\ schemaHash recorded = schemaHash snapshot
          /\ tableHash recorded = tableHash snapshot) ->
    Forall (fun plan => tp_mode plan = skip)
      (buildTablePlans tableInfos tableSnapshots catalogByTable).
Proof.
  intros tableInfos tableSnapshots catalogByTable Hcatalog.
  unfold buildTablePlans. apply Forall_map, Forall_forall. intros tableInfo _.
  cbv zeta. rewrite snapshotByTable_lookup.
  destruct (snapshot_of _ tableSnapshots) as [snapshot|] eqn:Hsnap; cbn; [|done].
  destruct (Hcatalog _ _ Hsnap)
    as (recorded & result & existing & runId & finishedAt & fatalError
        & -> & Hs & Ht).
  unfold decideTableMode, getTableModeReason.
  destruct (0 <? Z.of_nat (length (pkColumns tableInfo))); cbn; [|done].
  by rewrite Hs, Ht, !String.eqb_refl.
Qed.

Lemma X11_unchanged_table_not_reindexed_witness :
  Forall (fun plan => tp_mode plan = skip)
    (buildTablePlans [usersInfo] [sampleSnapshot]
       {[ "public.users" :=
            Some (buildCatalogRecord sampleSnapshot (Some failedFullResult) None
                    "run_1" "2026-01-01T00:00:00.000Z" None) ]}).
Proof.
  apply X11_unchanged_table_not_reindexed.
  intros key snapshot Hsnap. unfold snapshot_of in Hsnap.
  destruct (decide (tableKey (ts_schema sampleSnapshot) (ts_table sampleSnapshot)
                    = key)) as [<-|Hne].
  - rewrite filter_cons_True in Hsnap by done. injection Hsnap as <-.
    exists sampleSnapshot, (Some failedFullResult), None, "run_1",
      "2026-01-01T00:00:00.000Z", None.
    split; [reflexivity|]. split; reflexivity.
  - rewrite filter_cons_False in Hsnap by done. discriminate Hsnap.
Defined.

Section Accounting.
Context {S : Type}.
Variable onFullTable : TablePlan -> S -> S * (Thrown + Z).

Lemma plan_results_counts (tablePlans : list TablePlan)
    (tableResults : list TableRunResult) (st st' : S) :
  plan_results onFullTable st tablePlans tableResults st' ->
  length (List.filter (has_status skipped) tableResults)
  = length (List.filter is_skip tablePlans)
  /\ (length (List.filter (has_status reindexed) tableResults)
      + length (List.filter (has_status failed) tableResults))%nat
     = length (List.filter is_full tablePlans).
Proof.
  intros Hall.
  induction Hall as [|st0 st1 st2 p ps r rs Hpr _ [IHs IHf]]; [done|].
  destruct Hpr as (_ & _ & _ & Hmode).
  assert (forall s, List.filter (has_status s) (r :: rs)
                    = if bool_decide (status r = s)
                      then r :: List.filter (has_status s) rs
                      else List.filter (has_status s) rs) as Hr by done.
  assert (List.filter is_skip (p :: ps)
          = if bool_decide (tp_mode p = skip)
            then p :: List.filter is_skip ps else List.filter is_skip ps)
    as Hskip by done.
  assert (List.filter is_full (p :: ps)
          = if bool_decide (tp_mode p = full)
            then p :: List.filter is_full ps else List.filter is_full ps)
    as Hfull by done.
  rewrite !Hr, Hskip, Hfull. clear Hr Hskip Hfull.
  destruct (tp_mode p).
  - destruct Hmode as [_ Hmode].
    destruct ((onFullTable p st0).2); destruct Hmode as (-> & _);
      repeat case_bool_decide; try done; cbn; lia.
  - destruct Hmode as (_ & -> & _). repeat case_bool_decide; try done; cbn; lia.
Qed.

(** X12: the summary of the results that [executePlansWithHandler] returns
    accounts for every plan once: the reindexed, the skipped and the failed
    tables add up to the total; the skipped tables are the plans in mode
    [skip]; the reindexed and the failed ones together are the calls of the
    handler; and, without a fatal error, the run is a [success] exactly
    when the summary lists no error. *)
Theorem X12_summary_accounts_for_every_plan :
  forall (tablePlans : list TablePlan) (st : S),
    let '(_, tableResults, calls) :=
      executePlansWithHandler onFullTable tablePlans st in
    let summary := summarizeRun tablePlans tableResults in
    tablesTotal summary
    = tablesReindexed summary + tablesSkipped summary
      + Z.of_nat (length (errors summary))
    /\ tablesSkipped summary
       = Z.of_nat (length (List.filter is_skip tablePlans))
    /\ tablesReindexed summary + Z.of_nat (length (errors summary))
       = Z.of_nat (length calls)
    /\ (computeRunStatus None tableResults = success <-> errors summary = [])
    /\ (computeRunStatus None tableResults = partial_success
        <-> errors summary <> []).
Proof.
  intros tablePlans st.
  destruct (executeLoop_spec onFullTable tablePlans st [] [])
    as (st' & tableResults & Heq & Hall).
  unfold executePlansWithHandler. rewrite Heq. cbn [app].
  destruct (plan_results_counts _ _ _ _ Hall) as (Hskipped & Hfull).
  destruct (summarizeRun_counts tablePlans tableResults)
    as (Ht & Hr & Hs & _ & He).
  cbv zeta in *. rewrite Ht, Hr, Hs, He, length_map.
  assert (length tablePlans
          = (length (List.filter is_skip tablePlans)
             + length (List.filter is_full tablePlans))%nat) as Hsplit.
  { clear. induction tablePlans as [|p ps IH]; [done|]. cbn.
    unfold is_skip at 1, is_full at 1.
    destruct (tp_mode p); repeat case_bool_decide; try done; cbn; lia. }
  split; [lia|]. split; [lia|]. split; [lia|].
  assert (existsb is_failed tableResults = false
          <-> List.filter (has_status failed) tableResults = []) as Hnone.
  { clear. induction tableResults as [|r rs IH]; [done|]. cbn.
    unfold is_failed at 1, has_status at 1.
    destruct (bool_decide (status r = failed)); cbn; [done | exact IH]. }
  unfold computeRunStatus. cbn [Js.truthy].
  destruct (existsb is_failed tableResults) eqn:Hex.
  - assert (List.filter (has_status failed) tableResults <> []) as Hne.
    { intros Hnil. apply Hnone in Hnil. discriminate Hnil. }
    split; split; try done.
    + intros Hnil. apply map_eq_nil in Hnil. done.
    + intros _ Hnil. apply map_eq_nil in Hnil. done.
  - assert (List.filter (has_status failed) tableResults = []) as ->
      by (by apply Hnone).
    split; split; done.
Qed.

End Accounting.

Lemma append_cancel_l (p a b : string) : p +:+ a = p +:+ b -> a = b.
Proof. induction p as [|c p IH]; cbn; [done|]. intros [= H]. by apply IH. Qed.

Lemma dot_free_prefix (s1 s2 t1 t2 : string) :
  has_char "." s1 = false -> has_char "." s2 = false ->
  s1 +:+ "." +:+ t1 = s2 +:+ "." +:+ t2 -> s1 = s2 /\ t1 = t2.
Proof.
  revert s2. induction s1 as [|c s1 IH]; intros [|c2 s2]; cbn.
  - by intros _ _ [= ->].
  - intros _ H2 [= <- _]. cbn in H2. done.
  - intros H1 _ [= -> _]. cbn in H1. done.
  - intros H1 H2 [= -> Heq].
    apply orb_false_iff in H1 as [_ H1]. apply orb_false_iff in H2 as [_ H2].
    destruct (IH s2 H1 H2 Heq) as [-> ->]. done.
Qed.

(** X13: two tables of one schema have the same key only if they have the
    same name, and so do any two tables whose schema names hold no dot;
    a schema name with a dot can collide: [a.b] with table [c] and [a]
    with table [b.c] share the key [a.b.c]. *)
Theorem X13_table_key_identifies_table :
  (forall schema table1 table2,
      tableKey schema table1 = tableKey schema table2 -> table1 = table2)
  /\ (forall schema1 table1 schema2 table2,
        has_char "." schema1 = false -> has_char "." schema2 = false ->
        tableKey schema1 table1 = tableKey schema2 table2 ->
        schema1 = schema2 /\ table1 = table2)
  /\ tableKey "a.b" "c" = tableKey "a" "b.c".
Proof.
  split; [|split; [|reflexivity]].
  - intros schema table1 table2 Heq. unfold tableKey in Heq.
    apply append_cancel_l in Heq. by injection Heq.
  - intros schema1 table1 schema2 table2 H1 H2 Heq.
    by apply dot_free_prefix.
Qed.

Lemma X13_table_key_identifies_table_witness :
  has_char "." "public" = false
  /\ tableKey "public" "users" = "public.users"
  /\ ("public" = "public" /\ "users" = "users").
Proof.
  split; [reflexivity|]. split; [reflexivity|].
  destruct X13_table_key_identifies_table as (_ & Hkey & _).
  apply (Hkey "public" "users" "public" "users"); reflexivity.
Defined.

End PlanningMore.

(* ===================================================================== *)
(** * Properties of the database helpers *)
(* ===================================================================== *)

Section PostgresMore.
Import State JsLib Hashing Graph Postgres PlanSpec DiscoverSpec Samples.
#[local] Arguments String.append : simpl nomatch.

Lemma read_replace_quotes (identifier rest : string) :
  starts_with_quote rest = false ->
  read_quoted_body (replace_quotes identifier +:+ String dquote rest)
  = Some (identifier, rest).
Proof.
  intros Hrest. induction identifier as [|c identifier IH]; cbn.
  - destruct rest as [|c' rest']; [done|]. cbn in Hrest. by rewrite Hrest.
  - destruct (Ascii.eqb_spec c dquote) as [->|Hne]; cbn.
    + by rewrite IH.
    + destruct (Ascii.eqb_spec c dquote) as [|_]; [done|]. by rewrite IH.
Qed.

Lemma quoteIdentifier_app (identifier rest : string) :
  quoteIdentifier identifier +:+ rest
  = String dquote (replace_quotes identifier +:+ String dquote rest).
Proof.
  unfold quoteIdentifier. cbn. f_equal.
  induction (replace_quotes identifier) as [|c s IH]; cbn; [done|]. by rewrite IH.
Qed.

(** X14: a quoted identifier reads back as the identifier: whatever text
    follows it (not starting with a double quote), reading a quoted
    identifier at the head of the text gives back the name that was quoted,
    with all its characters, and the text that follows.  No name can close
    the quotes early, and two names are quoted alike only if they are
    equal. *)
Theorem X14_quoted_identifier_reads_back :
  (forall identifier rest,
      starts_with_quote rest = false ->
      read_quoted (quoteIdentifier identifier +:+ rest)
      = Some (identifier, rest))
  /\ (forall identifier1 identifier2,
        quoteIdentifier identifier1 = quoteIdentifier identifier2 ->
        identifier1 = identifier2).
Proof.
  assert (forall identifier rest,
             starts_with_quote rest = false ->
             read_quoted (quoteIdentifier identifier +:+ rest)
             = Some (identifier, rest)) as Hread.
  { intros identifier rest Hrest. rewrite quoteIdentifier_app. cbn.
    destruct (Ascii.eqb_spec dquote dquote) as [_|]; [|done].
    by apply read_replace_quotes. }
  split; [exact Hread|].
  intros identifier1 identifier2 Heq.
  pose proof (Hread identifier1 EmptyString eq_refl) as H1.
  pose proof (Hread identifier2 EmptyString eq_refl) as H2.
  rewrite Heq, H2 in H1. by injection H1.
Qed.

Lemma X14_quoted_identifier_reads_back_witness :
  read_quoted
    (quoteIdentifier (String "a" (String dquote "; DROP TABLE t")) +:+ ".x")
  = Some (String "a" (String dquote "; DROP TABLE t"), ".x").
Proof.
  destruct X14_quoted_identifier_reads_back as [Hread _].
  apply Hread. reflexivity.
Defined.

Lemma toLowerCase_empty (s : string) : toLowerCase s = "" -> s = "".
Proof. by destruct s. Qed.

Lemma byLowerName_lookup (columns : list ColumnInfo) (key : string) :
  byLowerName columns !! key
  = columnName
      <$> last (filter (fun column => toLowerCase (columnName column) = key)
                  columns).
Proof.
  unfold byLowerName.
  rewrite (fold_insert_last (fun column => toLowerCase (columnName column))
             columnName).
  by destruct (last _).
Qed.

Lemma resolved_truthy (columns : list ColumnInfo) (candidate : string) :
  Js.truthy (byLowerName columns !! toLowerCase candidate) = true ->
  exists column,
    byLowerName columns !! toLowerCase candidate = Some (columnName column)
    /\ column ∈ columns /\ matches candidate column.
Proof.
  rewrite byLowerName_lookup.
  destruct (last _) as [column|] eqn:Hlast; cbn; [|done].
  intros Hname. exists column. split; [done|].
  apply last_Some in Hlast as [l Hl].
  assert (column ∈ filter (fun column => toLowerCase (columnName column)
                                       = toLowerCase candidate) columns) as Hin.
  { rewrite Hl. apply elem_of_app. right. by left. }
  apply list_elem_of_filter in Hin as [Hlow Hin].
  split; [done|]. split; [done|].
  intros Hempty. rewrite Hempty in Hname. done.
Qed.

Lemma resolved_falsy (columns : list ColumnInfo) (candidate : string) :
  Js.truthy (byLowerName columns !! toLowerCase candidate) = false ->
  forall column, column ∈ columns -> ~ matches candidate column.
Proof.
  rewrite byLowerName_lookup. intros Hfalsy column Hin [Hlow Hname].
  destruct (last _) as [found|] eqn:Hlast; cbn in Hfalsy.
  - apply negb_false_iff, String.eqb_eq in Hfalsy.
    apply last_Some in Hlast as [l Hl].
    assert (found ∈ filter (fun column => toLowerCase (columnName column)
                                        = toLowerCase candidate) columns) as Hf.
    { rewrite Hl. apply elem_of_app. right. by left. }
    apply list_elem_of_filter in Hf as [Hflow _].
    rewrite Hfalsy in Hflow. cbn in Hflow. rewrite <- Hflow in Hlow.
    by apply toLowerCase_empty in Hlow.
  - apply last_None in Hlast.
    assert (column ∈ filter (fun column => toLowerCase (columnName column)
                                         = toLowerCase candidate) columns) as Hf
      by (by apply list_elem_of_filter).
    rewrite Hlast in Hf. by apply elem_of_nil in Hf.
Qed.

(** X15: the column [findUpdatedAtColumn] answers with is a column of the
    table, under the table's own spelling, with a name that is not empty;
    it matches, up to case, the first candidate that matches any column of
    the table.  The answer is [null] exactly when no candidate matches a
    column. *)
Theorem X15_updated_at_column_is_a_column :
  forall (columns : list ColumnInfo) (updatedAtCandidates : list string),
    (forall name,
        findUpdatedAtColumn columns updatedAtCandidates = Some name ->
        exists column before candidate after,
          column ∈ columns /\ columnName column = name
          /\ updatedAtCandidates = before ++ candidate :: after
          /\ matches candidate column
          /\ forall earlier other,
               earlier ∈ before -> other ∈ columns -> ~ matches earlier other)
    /\ (findUpdatedAtColumn columns updatedAtCandidates = None <->
        forall candidate column,
          candidate ∈ updatedAtCandidates -> column ∈ columns ->
          ~ matches candidate column).
Proof.
  intros columns updatedAtCandidates. unfold findUpdatedAtColumn.
  induction updatedAtCandidates as [|candidate rest [IHsome IHnone]]; cbn.
  - split; [done|]. split; [|done]. intros _ candidate column Hin.
    by apply elem_of_nil in Hin.
  - destruct (Js.truthy (byLowerName columns !! toLowerCase candidate)) eqn:Ht.
    + destruct (resolved_truthy _ _ Ht) as (column & Hres & Hin & Hmatch).
      split.
      * intros name Hname. rewrite Hres in Hname. injection Hname as <-.
        exists column, [], candidate, rest. repeat split; try done; try apply Hmatch.
        intros earlier other Hearlier. by apply elem_of_nil in Hearlier.
      * rewrite Hres. split; [done|]. intros Hnone. exfalso.
        apply (Hnone candidate column); [by left | done | done].
    + pose proof (resolved_falsy _ _ Ht) as Hno. split.
      * intros name Hname.
        destruct (IHsome name Hname)
          as (column & before & found & after & Hin & Hcol & -> & Hmatch & Hfirst).
        exists column, (candidate :: before), found, after.
        repeat split; try done; try apply Hmatch.
        intros earlier other Hearlier Hother.
        apply elem_of_cons in Hearlier as [->|Hearlier];
          [by apply Hno | by apply Hfirst].
      * rewrite IHnone. split.
        -- intros Hrest c column Hc Hcolumn.
           apply elem_of_cons in Hc as [->|Hc]; [by apply Hno | by apply Hrest].
        -- intros Hall c column Hc. apply Hall. by right.
Qed.

Lemma X15_updated_at_column_is_a_column_witness :
  exists column before candidate after,
    column ∈ columns usersInfo /\ columnName column = "name"
    /\ ["updated_at"; "NAME"] = before ++ candidate :: after
    /\ matches candidate column
    /\ forall earlier other,
         earlier ∈ before -> other ∈ columns usersInfo ->
         ~ matches earlier other.
Proof.
  destruct (X15_updated_at_column_is_a_column (columns usersInfo)
              ["updated_at"; "NAME"]) as [Hsome _].
  apply (Hsome "name"). reflexivity.
Defined.

Section Discover.
Variable queryTables : string -> Thrown + list string.
Variable queryColumns : string -> string -> Thrown + list ColumnRow.
Variable queryPrimaryKey : string -> string -> Thrown + list PrimaryKeyRow.

Lemma pkPositions_lookup (primaryKeyRows : list PrimaryKeyRow) (name : string) :
  is_Some (pkPositions primaryKeyRows !! name)
  <-> name ∈ map pk_column_name primaryKeyRows.
Proof.
  unfold pkPositions.
  rewrite (fold_insert_last pk_column_name pk_position).
  destruct (last _) as [pk|] eqn:Hlast.
  - split; [intros _ | by intros _; eexists].
    apply last_Some in Hlast as [l Hl].
    assert (pk ∈ filter (fun pk => pk_column_name pk = name) primaryKeyRows) as Hin.
    { rewrite Hl. apply elem_of_app. right. by left. }
    apply list_elem_of_filter in Hin as [<- Hin].
    apply list_elem_of_fmap. by exists pk.
  - rewrite lookup_empty. split; [by intros [? ?]|].
    intros Hin. apply list_elem_of_fmap in Hin as (pk & -> & Hin).
    apply last_None in Hlast.
    assert (pk ∈ filter (fun pk' => pk_column_name pk' = pk_column_name pk)
                   primaryKeyRows) as Hf by (by apply list_elem_of_filter).
    rewrite Hlast in Hf. by apply elem_of_nil in Hf.
Qed.

Lemma selected_test (tableAllowlist : list string)
    (tableBlocklist : option (list string)) (table_name : string) :
  let includeAll := bool_decide ("*" ∈ tableAllowlist) in
  let allowlist : gset string := list_to_set (map toLowerCase tableAllowlist) in
  let blocklist : gset string :=
    list_to_set (map toLowerCase (default [] tableBlocklist)) in
  selected tableAllowlist tableBlocklist table_name
  = negb (negb includeAll
          && negb (bool_decide (toLowerCase table_name ∈ allowlist)))
    && negb (bool_decide (toLowerCase table_name ∈ blocklist)).
Proof.
  assert (forall names : list string,
             existsb (fun name => String.eqb (toLowerCase name)
                                    (toLowerCase table_name)) names
             = bool_decide (toLowerCase table_name
                            ∈ (list_to_set (map toLowerCase names) : gset string)))
    as Hmember.
  { intros names. apply eq_true_iff_eq.
    rewrite existsb_exists, bool_decide_eq_true, elem_of_list_to_set,
      list_elem_of_fmap.
    split.
    - intros (name & Hin & Heq). exists name. apply String.eqb_eq in Heq.
      split; [done | by apply list_elem_of_In].
    - intros (name & Heq & Hin). exists name.
      split; [by apply list_elem_of_In | by apply String.eqb_eq]. }
  cbv zeta. unfold selected. rewrite !Hmember.
  by destruct (bool_decide ("*" ∈ tableAllowlist)), (bool_decide _), (bool_decide _).
Qed.

Lemma discoverLoop_spec (sourceSchema : string) (tableAllowlist : list string)
    (tableBlocklist : option (list string)) (updatedAtCandidates : list string)
    (tableRows : list string) :
  forall acc tableInfos,
    discoverLoop queryColumns queryPrimaryKey sourceSchema
      (bool_decide ("*" ∈ tableAllowlist))
      (list_to_set (map toLowerCase tableAllowlist))
      (list_to_set (map toLowerCase (default [] tableBlocklist)))
      updatedAtCandidates tableRows acc
    = inr tableInfos ->
    exists found,
      tableInfos = acc ++ found
      /\ map ti_table found
         = List.filter (selected tableAllowlist tableBlocklist) tableRows
      /\ Forall (describes queryColumns queryPrimaryKey sourceSchema updatedAtCandidates) found.
Proof.
  induction tableRows as [|table_name rest IH]; intros acc tableInfos; cbn.
  - intros [= <-]. exists []. by rewrite app_nil_r.
  - pose proof (selected_test tableAllowlist tableBlocklist table_name) as Hsel.
    cbv zeta in Hsel. rewrite Hsel. clear Hsel.
    set (notAllowed :=
           negb (bool_decide ("*" ∈ tableAllowlist))
           && negb (bool_decide
                      (toLowerCase table_name
                       ∈ (list_to_set (map toLowerCase tableAllowlist)
                          : gset string)))).
    set (blocked :=
           bool_decide
             (toLowerCase table_name
              ∈ (list_to_set (map toLowerCase (default [] tableBlocklist))
                 : gset string))).
    destruct notAllowed; cbn [negb andb]; [apply IH|].
    destruct blocked; cbn [negb andb]; [apply IH|].
    destruct (queryColumns sourceSchema table_name) as [|columnRows] eqn:Hcols;
      [done|].
    destruct (queryPrimaryKey sourceSchema table_name) as [|primaryKeyRows]
      eqn:Hpk; [done|].
    intros Hloop. destruct (IH _ _ Hloop) as (found & -> & Htables & Hall).
    eexists (_ :: found). rewrite <- app_assoc. split; [reflexivity|].
    split; [cbn; by rewrite Htables|].
    constructor; [|done]. split; [done|].
    exists columnRows, primaryKeyRows. cbn.
    split; [done|]. split; [done|].
    split.
    { apply Forall2_fmap_r, Forall_Forall2_diag, Forall_forall.
      intros columnRow _. unfold reports; cbn.
      repeat split; try done; try apply String.eqb_eq.
      unfold pkPositions, key_rows_of.
      by rewrite (fold_insert_last pk_column_name pk_position). }
    split; [done|]. split; [|done].
    intros column Hin. apply list_elem_of_fmap in Hin as (columnRow & -> & _).
    cbn. apply pkPositions_lookup.
Qed.

(** X16: when [discoverTables] succeeds, its tables are the base tables
    the database lists for the schema, in the database's order and
    spelling, without those that are not selected: a table is kept when the
    allowlist holds ["*"] or its name up to case, and the blocklist does not
    hold its name up to case; the blocklist wins.  Each table comes with the
    columns and the primary key the database reports for it: one column for
    each column row, in the rows' order, with the row's name, data type,
    default and ordinal position, nullable exactly when the row says [YES],
    and with the position of the column's last primary-key row, if any; a
    column has a primary-key position exactly when it is one of the
    primary-key columns; and the updated-at column is the one
    [findUpdatedAtColumn] finds. *)
Theorem X16_discovered_tables_are_the_selected_ones :
  forall (sourceSchema : string) (tableAllowlist : list string)
         (tableBlocklist : option (list string))
         (updatedAtCandidates : list string) (tableInfos : list TableInfo),
    discoverTables queryTables queryColumns queryPrimaryKey sourceSchema
      tableAllowlist tableBlocklist updatedAtCandidates
    = inr tableInfos ->
    exists discoveredTables,
      queryTables sourceSchema = inr discoveredTables
      /\ map ti_table tableInfos
         = List.filter (selected tableAllowlist tableBlocklist) discoveredTables
      /\ Forall (describes queryColumns queryPrimaryKey sourceSchema updatedAtCandidates) tableInfos.
Proof.
  intros sourceSchema tableAllowlist tableBlocklist updatedAtCandidates
    tableInfos.
  unfold discoverTables.
  destruct (queryTables sourceSchema) as [|discoveredTables]; [done|].
  cbv zeta. intros Hloop.
  destruct (discoverLoop_spec _ _ _ _ _ _ _ Hloop) as (found & -> & Htables & Hall).
  by exists discoveredTables.
Qed.

End Discover.

Lemma X16_discovered_tables_are_the_selected_ones_witness :
  exists discoveredTables,
    (inr ["Users"; "orders"; "audit"] : Thrown + list string)
    = inr discoveredTables
    /\ ["Users"]
       = List.filter (selected ["users"; "AUDIT"] (Some ["Audit"]))
           discoveredTables.
Proof.
  destruct (X16_discovered_tables_are_the_selected_ones
              (fun _ => inr ["Users"; "orders"; "audit"])
              (fun _ _ => inr [] : Thrown + list ColumnRow)
              (fun _ _ => inr [] : Thrown + list PrimaryKeyRow)
              "public" ["users"; "AUDIT"] (Some ["Audit"]) ["updated_at"]
              [ {| ti_schema := "public"; ti_table := "Users"; columns := [];
                   pkColumns := []; updatedAtColumn := None |} ]
              eq_refl)
    as (discoveredTables & Hquery & Htables & _).
  exists discoveredTables. split; [exact Hquery | exact Htables].
Defined.

End PostgresMore.

(* ===================================================================== *)
(** * Properties of the estimate worker and of the chunks of a table *)
(* ===================================================================== *)

Section WorkerMore.
Import State JsLib Hashing Graph Transform ThreadPool EstimateWorker Dispatch.
Import Spec SchedulerSpec PlanSpec MoreSpec Samples.
#[local] Arguments String.append : simpl nomatch.

Variable sha256Hex : string -> string.
Variable fetchTableRows :
  TableInfo -> Z -> Z -> Thrown + list (list (string * value)).
Variable encodeLength : string -> Z.
Variable tableInfo : TableInfo.
Variable textColumnsMode : TextColumnsMode.
Variable excludedColumns : list string.

Local Abbreviation transformAll :=
  (transformRows sha256Hex tableInfo textColumnsMode excludedColumns).

Lemma transformRows_app (rows1 rows2 : list (list (string * value))) :
  forall pageContents,
    transformAll (rows1 ++ rows2) pageContents
    = match transformAll rows1 pageContents with
      | inl thrown => inl thrown
      | inr pageContents => transformAll rows2 pageContents
      end.
Proof.
  induction rows1 as [|row rows1 IH]; intros pageContents; cbn; [done|].
  destruct (transformRowToDocument _ _ _ _ _ _); [done|]. apply IH.
Qed.

Lemma transformRows_with_primary_keys (rows : list (list (string * value))) :
  Forall (has_primary_key tableInfo) rows ->
  forall pageContents,
    transformAll rows pageContents
    = inr (pageContents
           ++ map (page_content_of tableInfo textColumnsMode excludedColumns)
                rows).
Proof.
  induction 1 as [|row rows Hrow _ IH]; intros pageContents; cbn.
  - by rewrite app_nil_r.
  - unfold transformRowToDocument, extractPrimaryKey.
    rewrite (extractPrimaryKeyLoop_found row tableInfo _ [] Hrow). cbn.
    rewrite IH, <- app_assoc. done.
Qed.

Section Window.
Variables (batchSize offsetStart : Z) (rowLimit : option Z).
Variable W : list (list (string * value)).
Hypothesis batch_positive : 0 < batchSize.
Hypothesis window_length :
  match rowLimit with
  | Some rowLimit => (length W <= Z.to_nat rowLimit)%nat
  | None => True
  end.
Hypothesis fetch_window :
  forall (f : nat) (limit : Z),
    0 < limit ->
    match rowLimit with
    | Some rowLimit => limit <= rowLimit - Z.of_nat f
    | None => True
    end ->
    fetchTableRows tableInfo limit (offsetStart + Z.of_nat f)
    = inr (take (Z.to_nat limit) (drop f W)).

Lemma fetchAndTransformLoop_window (fuel : nat) :
  forall (f : nat) (pageContents : list string),
    (length W - f + 1 < fuel)%nat -> (f <= length W)%nat ->
    transformAll (take f W) [] = inr pageContents ->
    fetchAndTransformLoop sha256Hex fetchTableRows fuel tableInfo
      textColumnsMode excludedColumns batchSize rowLimit
      (offsetStart + Z.of_nat f) (Z.of_nat f) pageContents
    = Some (transformAll W []).
Proof.
  induction fuel as [|fuel IH]; intros f pageContents Hfuel Hf Hdone; [lia|].
  cbn [fetchAndTransformLoop].
  set (limit := match rowLimit with
                | Some rowLimit => Z.min batchSize (rowLimit - Z.of_nat f)
                | None => batchSize
                end).
  destruct (Z.leb_spec limit 0) as [Hstop|Hlimit].
  { assert (take f W = W) as Hall.
    { apply take_ge. subst limit. destruct rowLimit as [rl|]; lia. }
    by rewrite <- Hdone, Hall. }
  rewrite fetch_window.
  2:{ exact Hlimit. }
  2:{ subst limit. destruct rowLimit; [lia|done]. }
  set (rows := take (Z.to_nat limit) (drop f W)).
  assert (take (f + length rows) W = take f W ++ rows) as Htake.
  { subst rows. rewrite take_take_drop, length_take, length_drop.
    destruct (decide (Z.to_nat limit <= length W - f)%nat).
    - by rewrite Nat.min_l.
    - rewrite Nat.min_r by lia. rewrite !take_ge by lia. done. }
  destruct (Z.eqb_spec (Z.of_nat (length rows)) 0) as [Hempty|Hrows].
  { assert (take f W = W) as Hall.
    { apply take_ge. assert (rows = []) as Hnil by (apply length_zero_iff_nil; lia).
      subst rows. apply take_nil_inv in Hnil as [Hz|Hnil]; [lia|].
      apply drop_nil_inv in Hnil. done. }
    by rewrite <- Hdone, Hall. }
  assert (transformAll (take (f + length rows) W) []
          = transformAll rows pageContents) as Hpage.
  { by rewrite Htake, transformRows_app, Hdone. }
  assert (length rows <= length W - f)%nat as Hle.
  { subst rows. rewrite length_take, length_drop. lia. }
  destruct (transformAll rows pageContents) as [thrown|pageContents'] eqn:Htr.
  { rewrite <- (take_drop (f + length rows) W), transformRows_app, Hpage. done. }
  assert (Z.of_nat f + Z.of_nat (length rows) = Z.of_nat (f + length rows))
    as Hfetched by lia.
  rewrite Hfetched.
  assert (offsetStart + Z.of_nat f + Z.of_nat (length rows)
          = offsetStart + Z.of_nat (f + length rows)) as -> by lia.
  destruct (match rowLimit with
            | Some rowLimit => rowLimit <=? Z.of_nat (f + length rows)
            | None => false
            end) eqn:Hbreak.
  { destruct rowLimit as [rl|]; [|done]. apply Z.leb_le in Hbreak.
    rewrite take_ge in Hpage by lia. by rewrite Hpage. }
  apply IH; [lia | lia | done].
Qed.

End Window.

Variable table : list (list (string * value)).
Hypothesis static : static_table fetchTableRows tableInfo table.

Lemma fetchAndTransform_window (fuel : nat) (batchSize offsetStart : Z)
    (rowLimit : option Z) :
  0 < batchSize -> 0 <= offsetStart ->
  (length (window table offsetStart rowLimit) + 1 < fuel)%nat ->
  fetchAndTransform sha256Hex fetchTableRows fuel tableInfo textColumnsMode
    excludedColumns batchSize offsetStart rowLimit
  = Some (transformAll (window table offsetStart rowLimit) []).
Proof.
  intros Hbatch Hoffset Hfuel. unfold fetchAndTransform.
  pose proof (fetchAndTransformLoop_window batchSize offsetStart rowLimit
                (window table offsetStart rowLimit) Hbatch) as Hloop.
  rewrite <- (Z.add_0_r offsetStart) at 1.
  change 0 with (Z.of_nat 0). apply Hloop; [| |lia|lia|done].
  - destruct rowLimit as [rl|]; [|done]. cbn. rewrite length_take. lia.
  - intros f limit Hlimit Hle.
    rewrite static by lia.
    replace (Z.to_nat (offsetStart + Z.of_nat f))
      with (Z.to_nat offsetStart + f)%nat by lia.
    f_equal. destruct rowLimit as [rl|]; cbn.
    + rewrite (take_drop_commute (take _ _)), take_take.
      rewrite Nat.min_l by lia.
      by rewrite <- take_drop_commute, drop_drop.
    + by rewrite drop_drop.
Qed.


End WorkerMore.


Section ChunkCoverage.
Import State JsLib Hashing Graph Transform ThreadPool EstimateWorker Dispatch.
Import Spec SchedulerSpec PlanSpec MoreSpec Samples.
#[local] Arguments String.append : simpl nomatch.

Variable sha256Hex : string -> string.
Variable fetchTableRows :
  TableInfo -> Z -> Z -> Thrown + list (list (string * value)).
Variable encodeLength : string -> Z.
Variable tableInfo : TableInfo.
Variable textColumnsMode : TextColumnsMode.
Variable excludedColumns : list string.
Variable table : list (list (string * value)).
Hypothesis static : static_table fetchTableRows tableInfo table.
Hypothesis keyed : Forall (has_primary_key tableInfo) table.

Local Abbreviation contents :=
  (map (page_content_of tableInfo textColumnsMode excludedColumns)).

Lemma countTokens_fold (texts : list string) :
  forall total,
    fold_left (fun total text => total + encodeLength text) texts total
    = total + countTokens encodeLength texts.
Proof.
  unfold countTokens.
  induction texts as [|text texts IH]; intros total; cbn; [lia|].
  rewrite IH, (IH (0 + _)). lia.
Qed.

Lemma countTokens_app (texts1 texts2 : list string) :
  countTokens encodeLength (texts1 ++ texts2)
  = countTokens encodeLength texts1 + countTokens encodeLength texts2.
Proof.
  unfold countTokens at 1. rewrite fold_left_app.
  fold (countTokens encodeLength texts1). by rewrite countTokens_fold.
Qed.

Lemma sum_Z_snoc (l : list Z) (x : Z) : sum_Z (l ++ [x]) = sum_Z l + x.
Proof. unfold sum_Z. induction l as [|y l IH]; cbn; lia. Qed.

Lemma chunk_window (chunkSize : Z) (i : nat) :
  0 < chunkSize ->
  window table (Z.of_nat i * chunkSize) (Some chunkSize)
  = take (Z.to_nat chunkSize) (drop (i * Z.to_nat chunkSize) table).
Proof.
  intros Hsize. unfold window. do 2 f_equal. nia.
Qed.

(** The row and token counts of the first [n] chunks are those of the
    first [n * chunkSize] rows. *)
Lemma chunk_prefix_sums (chunkSize : Z) (n : nat) :
  0 < chunkSize ->
  sum_Z (map (fun i : nat =>
                Z.of_nat (length (contents
                  (window table (Z.of_nat i * chunkSize) (Some chunkSize)))))
           (seq 0 n))
  = Z.of_nat (length (contents (take (n * Z.to_nat chunkSize) table)))
  /\ sum_Z (map (fun i : nat =>
                   countTokens encodeLength
                     (contents
                        (window table (Z.of_nat i * chunkSize) (Some chunkSize))))
              (seq 0 n))
     = countTokens encodeLength
         (contents (take (n * Z.to_nat chunkSize) table)).
Proof.
  intros Hsize. induction n as [|n [IHrows IHtokens]]; [done|].
  rewrite seq_S, !map_app. cbn [map Nat.add].
  rewrite !sum_Z_snoc, IHrows, IHtokens.
  rewrite chunk_window by done.
  replace (Datatypes.S n * Z.to_nat chunkSize)%nat
    with (n * Z.to_nat chunkSize + Z.to_nat chunkSize)%nat by lia.
  rewrite <- (take_take_drop table (n * Z.to_nat chunkSize) (Z.to_nat chunkSize)).
  rewrite map_app, countTokens_app, length_app. split; lia.
Qed.

Lemma chunk_id_inj (key : string) (i j : nat) :
  key +:+ "#" +:+ number_toString (Z.of_nat i)
  = key +:+ "#" +:+ number_toString (Z.of_nat j) ->
  i = j.
Proof.
  intros Heq. apply append_cancel_l in Heq. cbn in Heq. injection Heq as Heq.
  rewrite <- (str_app_nil_r (number_toString (Z.of_nat i))) in Heq.
  rewrite <- (str_app_nil_r (number_toString (Z.of_nat j))) in Heq.
  apply number_toString_prefix_inj in Heq as [Heq _]; [lia|done|done].
Qed.


End ChunkCoverage.


(* ===================================================================== *)
(** * Further properties of the work queue *)
(* ===================================================================== *)

Section QueueMore.
Import State JsLib ThreadPool Spec SchedulerSpec QueueSpec Samples.

Variable rowCounts : gmap string Z.
Variables largeTableThreshold chunkSize : Z.

Local Abbreviation rows_of tableInfo :=
  (default 0 (rowCounts !! key_of_table tableInfo)).
Local Abbreviation is_split tableInfo :=
  ((largeTableThreshold <=? rows_of tableInfo) && (0 <? chunkSize)).
Local Abbreviation chunks_of tableInfo :=
  (ceil_div (rows_of tableInfo) chunkSize).

(** The items and the chunk count one table adds. *)
Local Abbreviation items_for tableInfo :=
  (if is_split tableInfo
   then chunkItems tableInfo (key_of_table tableInfo) (chunks_of tableInfo)
          chunkSize
   else [QTable tableInfo]).
Local Abbreviation count_for chunkCounts tableInfo :=
  (if is_split tableInfo
   then <[key_of_table tableInfo := chunks_of tableInfo]> chunkCounts
   else chunkCounts).

Lemma buildQueue_fold (tables : list TableInfo) :
  forall (queue : list QueueItem) (chunkCounts : gmap string Z),
    fold_left (buildQueueStep rowCounts largeTableThreshold chunkSize) tables
      (queue, chunkCounts)
    = (queue ++ concat (map (fun tableInfo => items_for tableInfo) tables),
       fold_left (fun chunkCounts tableInfo => count_for chunkCounts tableInfo)
         tables chunkCounts).
Proof.
  induction tables as [|tableInfo rest IH]; intros queue chunkCounts;
    cbn [fold_left map concat].
  - by rewrite app_nil_r.
  - unfold buildQueueStep at 2. fold (key_of_table tableInfo).
    destruct (is_split tableInfo); rewrite IH, <- app_assoc; done.
Qed.

Lemma items_for_key (tableInfo : TableInfo) (key : string) :
  items_of key (items_for tableInfo)
  = if decide (key_of_table tableInfo = key) then items_for tableInfo else [].
Proof.
  unfold items_of.
  assert (Forall (fun item => item_key item = key_of_table tableInfo)
            (items_for tableInfo)) as Hkeys.
  { destruct (is_split tableInfo).
    - unfold chunkItems. apply Forall_map, Forall_forall. by intros i _.
    - by constructor. }
  induction Hkeys as [|item items Hitem _ IH].
  - rewrite filter_nil. by destruct (decide _).
  - destruct (decide (key_of_table tableInfo = key)) as [Hk|Hk].
    + rewrite filter_cons_True by congruence. by rewrite IH.
    + rewrite filter_cons_False by congruence. exact IH.
Qed.

Lemma items_of_other_tables (tables : list TableInfo) (key : string) :
  key ∉ map key_of_table tables ->
  items_of key (concat (map (fun tableInfo => items_for tableInfo) tables)) = [].
Proof.
  induction tables as [|tableInfo rest IH]; intros Hfresh; [done|].
  cbn [map concat]. unfold items_of in *. rewrite filter_app.
  fold (items_of key (items_for tableInfo)). rewrite items_for_key.
  destruct (decide (key_of_table tableInfo = key)) as [Hk|Hk].
  - exfalso. apply Hfresh. cbn. rewrite Hk. by left.
  - cbn. apply IH. intros Hin. apply Hfresh. cbn. by right.
Qed.

Lemma counts_of_other_tables (tables : list TableInfo) (key : string) :
  key ∉ map key_of_table tables ->
  forall chunkCounts : gmap string Z,
    fold_left (fun chunkCounts tableInfo => count_for chunkCounts tableInfo)
      tables chunkCounts !! key
    = chunkCounts !! key.
Proof.
  induction tables as [|tableInfo rest IH]; intros Hfresh chunkCounts; [done|].
  cbn [fold_left]. rewrite IH.
  2:{ intros Hin. apply Hfresh. cbn. by right. }
  destruct (is_split tableInfo); [|done].
  apply lookup_insert_ne. intros Hk. apply Hfresh. cbn. rewrite Hk. by left.
Qed.

(** X19: with pairwise distinct table keys, the items of a table in the
    queue are: one whole-table item, with no chunk count recorded, for a
    table that is not split; for a split table its chunks and nothing else,
    with the number of chunks recorded as its chunk count.  The chunks are
    [ceil(rowCount / chunkSize)] many: with a positive row count there is at
    least one, they reach the last row and the last one starts before it;
    with a row count of at most 0, which a threshold of at most 0 lets
    through, a split table has no item in the queue at all and a chunk
    count of at most 0. *)
Theorem X19_queue_items_of_each_table :
  forall tables : list TableInfo,
    NoDup (map key_of_table tables) ->
    let '(queue, chunkCounts) :=
      buildQueue tables rowCounts largeTableThreshold chunkSize in
    forall tableInfo,
      tableInfo ∈ tables ->
      let key := key_of_table tableInfo in
      let rowCount := default 0 (rowCounts !! key) in
      if (largeTableThreshold <=? rowCount) && (0 <? chunkSize) then
        let numChunks := ceil_div rowCount chunkSize in
        items_of key queue = chunkItems tableInfo key numChunks chunkSize
        /\ chunkCounts !! key = Some numChunks
        /\ length (items_of key queue) = Z.to_nat numChunks
        /\ (numChunks - 1) * chunkSize < rowCount <= numChunks * chunkSize
        /\ (0 < rowCount -> 0 < numChunks /\ items_of key queue <> [])
        /\ (rowCount <= 0 -> numChunks <= 0 /\ items_of key queue = [])
      else
        items_of key queue = [QTable tableInfo] /\ chunkCounts !! key = None.
Proof.
  intros tables Hnodup. unfold buildQueue. rewrite buildQueue_fold. cbn [app].
  intros tableInfo Hin. cbv zeta.
  assert (items_of (key_of_table tableInfo)
            (concat (map (fun tableInfo => items_for tableInfo) tables))
          = items_for tableInfo
          /\ fold_left
               (fun chunkCounts tableInfo => count_for chunkCounts tableInfo)
               tables (∅ : gmap string Z) !! key_of_table tableInfo
             = if is_split tableInfo then Some (chunks_of tableInfo) else None)
    as [Hitems Hcount].
  { assert (forall chunkCounts : gmap string Z,
               chunkCounts !! key_of_table tableInfo = None ->
               items_of (key_of_table tableInfo)
                 (concat (map (fun tableInfo => items_for tableInfo) tables))
               = items_for tableInfo
               /\ fold_left
                    (fun chunkCounts tableInfo => count_for chunkCounts tableInfo)
                    tables chunkCounts !! key_of_table tableInfo
                  = if is_split tableInfo
                    then Some (chunks_of tableInfo) else None) as Hgen.
    { induction tables as [|first rest IH]; intros chunkCounts Hnone.
      { by apply elem_of_nil in Hin. }
      cbn [map] in Hnodup. apply NoDup_cons in Hnodup as [Hfresh Hnodup].
      cbn [map concat fold_left]. unfold items_of. rewrite filter_app.
      fold (items_of (key_of_table tableInfo) (items_for first)).
      fold (items_of (key_of_table tableInfo)
              (concat (map (fun tableInfo => items_for tableInfo) rest))).
      rewrite items_for_key.
      apply elem_of_cons in Hin as [->|Hin].
      - destruct (decide (key_of_table first = key_of_table first)); [|done].
        rewrite items_of_other_tables, counts_of_other_tables by done.
        rewrite app_nil_r. split; [done|].
        destruct (is_split first); [by rewrite lookup_insert_eq | done].
      - assert (key_of_table first <> key_of_table tableInfo) as Hne.
        { intros Hk. apply Hfresh. rewrite Hk.
          apply list_elem_of_fmap. by exists tableInfo. }
        destruct (decide (key_of_table first = key_of_table tableInfo)); [done|].
        cbn [app]. apply IH; [done|done|].
        destruct (is_split first); [by rewrite lookup_insert_ne | done]. }
    apply Hgen, lookup_empty. }
  rewrite Hitems, Hcount.
  destruct (is_split tableInfo) eqn:Hsplit; [|done].
  split; [done|]. split; [done|]. split; [apply length_chunkItems|].
  apply andb_true_iff in Hsplit as [_ Hsize]. apply Z.ltb_lt in Hsize.
  set (rowCount := default 0 (rowCounts !! key_of_table tableInfo)).
  set (numChunks := ceil_div rowCount chunkSize).
  pose proof (ceil_div_spec rowCount chunkSize Hsize) as Hceil.
  fold numChunks in Hceil.
  pose proof (length_chunkItems chunkSize tableInfo (key_of_table tableInfo)
                numChunks)
    as Hlength.
  split; [apply Hceil|]. split.
  - intros Hrows. split; [nia|].
    intros Hnil. rewrite Hnil in Hlength. cbn in Hlength. nia.
  - intros Hrows. split; [nia|].
    apply length_zero_iff_nil. rewrite Hlength. nia.
Qed.

End QueueMore.

Lemma X19_queue_items_of_each_table_witness :
  (ThreadPool.buildQueue [Samples.usersInfo] {[ "public.users" := 25 ]} 10 10).2
    !! "public.users"
  = Some 3.
Proof.
  pose proof (X19_queue_items_of_each_table {[ "public.users" := 25 ]} 10 10
                [Samples.usersInfo]) as Hqueue.
  destruct (ThreadPool.buildQueue [Samples.usersInfo]
              {[ "public.users" := 25 ]} 10 10) as [queue chunkCounts].
  assert (NoDup (map QueueSpec.key_of_table [Samples.usersInfo])) as Hnodup
    by apply NoDup_singleton.
  assert (Samples.usersInfo ∈ [Samples.usersInfo]) as Hin by (by left).
  specialize (Hqueue Hnodup Samples.usersInfo Hin). cbv zeta in Hqueue.
  assert (((10 <=? default 0
                    (({[ "public.users" := 25 ]} : gmap string Z)
                       !! QueueSpec.key_of_table Samples.usersInfo))
           && (0 <? 10)) = true) as Hsplit by reflexivity.
  rewrite Hsplit in Hqueue.
  exact (proj1 (proj2 Hqueue)).
Defined.

(* ===================================================================== *)
(** * Properties of the handler of a full table *)
(* ===================================================================== *)

Section FullTableMore.
Import State JsLib Hashing Graph Transform FullTable FullTableSpec UpsertSpec.
Import PlanSpec MoreSpec Samples.
#[local] Arguments String.append : simpl nomatch.

Context {S : Type}.
Variable sha256Hex : string -> string.
Variable fetchTableRows :
  TableInfo -> Z -> Z -> Thrown + list (list (string * value)).
Variable deleteIfExists : string -> S -> S * option Thrown.
Variable addDocuments :
  string -> list Document -> list string -> S -> S * option Thrown.
Variable configuration : Configuration.
Variable runId : string.
Variable tableInfo : TableInfo.
Variable table : list (list (string * value)).
Hypothesis static : static_table fetchTableRows tableInfo table.
Hypothesis batch_positive : 0 < batchSize configuration.

Local Abbreviation pageSize := (Z.to_nat (batchSize configuration)).

Lemma pages_upto_fuel {A : Type} (size : nat) (fuel1 : nat) :
  (0 < size)%nat ->
  forall (fuel2 : nat) (l : list A),
    (length l <= fuel1)%nat -> (length l <= fuel2)%nat ->
    pages_upto fuel1 size l = pages_upto fuel2 size l.
Proof.
  intros Hsize. induction fuel1 as [|fuel1 IH]; intros fuel2 l H1 H2.
  - destruct l; [|cbn in H1; lia]. by destruct fuel2.
  - destruct l as [|x l]; [by destruct fuel2|].
    destruct fuel2 as [|fuel2]; [cbn in H2; lia|].
    cbn [pages_upto]. f_equal.
    apply IH; rewrite length_drop; cbn in *; lia.
Qed.

Lemma pages_cons {A : Type} (size : nat) (l : list A) :
  (0 < size)%nat -> l <> [] ->
  pages size l = take size l :: pages size (drop size l).
Proof.
  intros Hsize Hne. unfold pages. destruct l as [|x l]; [done|].
  cbn [length pages_upto]. f_equal.
  apply pages_upto_fuel; [done| |done].
  rewrite length_drop. cbn. lia.
Qed.

Lemma concat_pages {A : Type} (size : nat) (l : list A) :
  (0 < size)%nat -> concat (pages size l) = l.
Proof.
  intros Hsize. unfold pages.
  assert (forall fuel (l : list A),
             (length l <= fuel)%nat -> concat (pages_upto fuel size l) = l)
    as Hgen.
  { induction fuel as [|fuel IH]; intros l' Hlen.
    - destruct l'; [done|cbn in Hlen; lia].
    - destruct l' as [|x l']; [done|]. cbn [pages_upto concat].
      rewrite IH; [apply take_drop|]. rewrite length_drop. cbn in *. lia. }
  by apply Hgen.
Qed.

(** The loop handles the rest of the table page by page. *)
Lemma upsertLoop_pages (indexName : string) (fuel : nat) :
  forall (f : nat) (st : S),
    (length table - f + 1 < fuel)%nat ->
    upsertLoop sha256Hex fetchTableRows addDocuments configuration runId fuel
      indexName tableInfo (Z.of_nat f) (Z.of_nat f) st
    = Some (upsert_pages sha256Hex addDocuments configuration runId indexName
              tableInfo (pages pageSize (drop f table)) (Z.of_nat f) st).
Proof.
  induction fuel as [|fuel IH]; intros f st Hfuel; [lia|].
  cbn [upsertLoop]. rewrite static by lia. rewrite Nat2Z.id.
  destruct (drop f table) as [|row rest] eqn:Hdrop.
  { rewrite take_nil. done. }
  assert (length (drop f table) = length table - f)%nat as Hlen
    by apply length_drop.
  rewrite <- Hdrop. rewrite pages_cons; [|lia|by rewrite Hdrop].
  set (rows := take pageSize (drop f table)).
  assert (length rows = Nat.min pageSize (length table - f)) as Hrows.
  { subst rows. by rewrite length_take, Hlen. }
  assert (0 < length table - f)%nat as Hsome.
  { rewrite <- Hlen, Hdrop. cbn. lia. }
  destruct (Z.eqb_spec (Z.of_nat (length rows)) 0) as [Hzero|_]; [lia|].
  cbn [upsert_pages].
  destruct (transformPage _ _ _ _ rows) as [thrown|docs] eqn:Hpage; [done|].
  destruct (addDocuments indexName _ _ st) as [st' [thrown|]]; [done|].
  assert (length docs = length rows) as Hdocs.
  { clear -Hpage. revert docs Hpage.
    induction rows as [|r rows IHr]; intros docs; cbn.
    - by intros [= <-].
    - destruct (transformRowToDocument _ _ _ _ _ _); [done|].
      destruct (transformPage _ _ _ _ rows); [done|].
      intros [= <-]. cbn. f_equal. by apply IHr. }
  rewrite Hdocs.
  replace (Z.of_nat f + Z.of_nat (length rows))
    with (Z.of_nat (f + length rows)) by lia.
  rewrite IH by lia. do 3 f_equal.
  rewrite drop_drop.
  destruct (decide (pageSize <= length table - f)%nat).
  - by rewrite Hrows, Nat.min_l.
  - rewrite Hrows, Nat.min_r by lia. rewrite !drop_ge by lia. done.
Qed.

Lemma transformPage_documents (rows : list (list (string * value))) :
  Forall (has_primary_key tableInfo) rows ->
  exists docs,
    transformPage sha256Hex configuration runId tableInfo rows = inr docs
    /\ documents_of sha256Hex configuration runId tableInfo rows docs.
Proof.
  induction 1 as [|row rows Hrow _ (docs & Hdocs & Hall)]; cbn.
  - exists []. split; [done | constructor].
  - destruct (transformRowToDocument sha256Hex row tableInfo runId
                (textColumnsMode configuration) (excludedColumns configuration))
      as [thrown|item] eqn:Hitem.
    + exfalso. revert Hitem. unfold transformRowToDocument, extractPrimaryKey.
      by rewrite (extractPrimaryKeyLoop_found row tableInfo _ [] Hrow).
    + rewrite Hdocs. exists (item :: docs). split; [done|]. by constructor.
Qed.

Lemma upsert_pages_accepted (indexName : string)
    (rowPages : list (list (list (string * value)))) :
  (forall indexName docs ids st, (addDocuments indexName docs ids st).2 = None) ->
  Forall (Forall (has_primary_key tableInfo)) rowPages ->
  forall (count : Z) (st : S),
    exists docPages,
      Forall2 (documents_of sha256Hex configuration runId tableInfo)
        rowPages docPages
      /\ upsert_pages sha256Hex addDocuments configuration runId indexName
           tableInfo rowPages count st
         = (added addDocuments indexName docPages st,
            inr (count + Z.of_nat (length (concat rowPages)))).
Proof.
  intros Haccept. induction 1 as [|rows rowPages Hrows _ IH]; intros count st.
  - exists []. cbn. split; [constructor|]. do 2 f_equal. lia.
  - destruct (transformPage_documents rows Hrows) as (docs & Hdocs & Hall).
    cbn [upsert_pages]. rewrite Hdocs.
    pose proof (Haccept indexName (map document docs) (map docId docs) st) as Hadd.
    destruct (addDocuments indexName _ _ st) as [st' outcome] eqn:Hcall.
    cbn in Hadd. subst outcome.
    destruct (IH (count + Z.of_nat (length docs)) st') as (docPages & Hpages & ->).
    exists (docs :: docPages). split; [by constructor|].
    unfold added. cbn [fold_left]. rewrite Hcall. cbn [fst concat].
    do 2 f_equal. rewrite length_app.
    assert (length docs = length rows) as -> by (symmetry; by eapply Forall2_length).
    lia.
Qed.

Lemma pages_keyed (rows : list (list (string * value))) :
  Forall (has_primary_key tableInfo) rows ->
  Forall (Forall (has_primary_key tableInfo)) (pages pageSize rows).
Proof.
  intros Hall. unfold pages. generalize (length rows) as fuel.
  intros fuel. revert rows Hall.
  induction fuel as [|fuel IH]; intros rows Hall; cbn; [constructor|].
  destruct rows as [|row rows]; [constructor|].
  constructor; [by apply Forall_take | by apply IH, Forall_drop].
Qed.



End FullTableMore.



(* ===================================================================== *)
(** * Properties of the last stage of a run *)
(* ===================================================================== *)

Section FinalizeMore.
Import State Graph Finalize FinalizeSpec Spec Samples.

Context {S : Type}.
Variable connect : Thrown + ControlIndexes.
Variable putCatalogRecord :
  string -> ControlCatalogRecord -> S -> S * option Thrown.
Variable putRunRecord : string -> string -> RunRecord -> S -> S * option Thrown.

Lemma putCatalogRecords_accepted (indexName : string) (state : DbSyncState)
    (finishedAt : string) (tableSnapshots : list TableSnapshot) :
  (forall indexName record st, (putCatalogRecord indexName record st).2 = None) ->
  forall st : S,
    putCatalogRecords putCatalogRecord indexName state finishedAt
      (resultsByTable (st_tableResults state)) tableSnapshots st
    = (written putCatalogRecord indexName
         (finalizeCatalog tableSnapshots (st_tableResults state)
            (st_catalogByTable state) (st_runId state) finishedAt
            (st_fatalError state))
         st,
       None).
Proof.
  intros Haccept.
  induction tableSnapshots as [|snapshot rest IH]; intros st; [done|].
  cbn [putCatalogRecords finalizeCatalog map]. cbv zeta.
  set (record := buildCatalogRecord snapshot _ _ _ _ _).
  pose proof (Haccept indexName record st) as Hput.
  unfold written. cbn [fold_left]. fold record.
  destruct (putCatalogRecord indexName record st) as [st' outcome].
  cbn in Hput. subst outcome. cbn [fst]. apply IH.
Qed.

(** X22: when the control store is reached and accepts every write,
    [finalizeRun] writes one catalog record per snapshot, in the order of
    the snapshots (each built by [buildCatalogRecord] from the last result
    of the table and its existing record), and only then the run record;
    the status it returns is the one of the run record,
    [computeRunStatus] of the state; the errors of the summary are those of
    the failed tables, followed by a [bootstrap] entry when there is a
    fatal error; and the update leaves the fatal error of the state as it
    is. *)
Theorem X22_finalize_writes_catalog_then_run_record :
  forall (configuration : ControlIndexes) (state : DbSyncState)
         (finishedAt : string) (st : S),
    connect = inr configuration ->
    (forall indexName record st, (putCatalogRecord indexName record st).2 = None) ->
    (forall indexName runId record st,
        (putRunRecord indexName runId record st).2 = None) ->
    let '(st', update) :=
      finalizeRun connect putCatalogRecord putRunRecord state finishedAt st in
    let records := catalog_records state finishedAt in
    st' = (putRunRecord (controlRunsIndex configuration) (st_runId state)
             (runRecord state finishedAt)
             (written putCatalogRecord (controlCatalogIndex configuration)
                records st)).1
    /\ length records = length (st_tableSnapshots state)
    /\ u_status update = rr_status (runRecord state finishedAt)
    /\ u_status update
       = computeRunStatus (st_fatalError state) (st_tableResults state)
    /\ (exists summary,
          u_summary update = Some summary
          /\ map rr_table (rr_errors (runRecord state finishedAt))
             = map re_tableKey (errors summary)
          /\ errors summary
             = map error_entry
                 (List.filter (has_status failed) (st_tableResults state))
               ++ (if Js.truthy (st_fatalError state)
                   then [ {| re_tableKey := "bootstrap";
                             message := default "" (st_fatalError state) |} ]
                   else []))
    /\ reduceFatalError (st_fatalError state) (u_fatalError update)
       = st_fatalError state.
Proof.
  intros configuration state finishedAt st Hconnect Hcatalog Hrun.
  unfold finalizeRun. rewrite Hconnect. cbv zeta.
  rewrite putCatalogRecords_accepted by done.
  fold (catalog_records state finishedAt).
  pose proof (Hrun (controlRunsIndex configuration) (st_runId state)
                (runRecord state finishedAt)
                (written putCatalogRecord (controlCatalogIndex configuration)
                   (catalog_records state finishedAt) st)) as Hput.
  destruct (putRunRecord _ _ _ _) as [st' outcome]. cbn in Hput. subst outcome.
  split; [done|]. split.
  { unfold catalog_records, finalizeCatalog. by rewrite length_map. }
  split; [done|]. split; [done|]. split; [|done].
  eexists. split; [reflexivity|]. cbn [errors runRecord rr_errors].
  split; [by rewrite map_map|].
  unfold runErrors. f_equal.
  by destruct (summarizeRun_counts (st_tablePlans state) (st_tableResults state))
    as (_ & _ & _ & _ & ->).
Qed.

(** X23: whatever the control store does, [finalizeRun] never replaces a
    fatal error the state already has; it records a new one only when the
    configuration, the client or a write failed, together with the status
    [failed] and without a summary; a state with a fatal error (one that is
    not empty) is always finalized as [failed]; and a run that is not
    finalized as [failed] has written its run record with the status
    [computeRunStatus] gives. *)
Theorem X23_finalize_keeps_fatal_error :
  forall (state : DbSyncState) (finishedAt : string) (st : S),
    let '(_, update) :=
      finalizeRun connect putCatalogRecord putRunRecord state finishedAt st in
    let fatalError :=
      reduceFatalError (st_fatalError state) (u_fatalError update) in
    u_finishedAt update = finishedAt
    /\ (forall message, st_fatalError state = Some message ->
                        fatalError = Some message)
    /\ (fatalError <> st_fatalError state ->
        st_fatalError state = None /\ is_Some fatalError
        /\ u_status update = failed_run /\ u_summary update = None)
    /\ (Js.truthy (st_fatalError state) = true -> u_status update = failed_run)
    /\ (u_status update <> failed_run ->
        is_Some (u_summary update)
        /\ u_status update
           = computeRunStatus (st_fatalError state) (st_tableResults state)).
Proof.
  intros state finishedAt st. unfold finalizeRun.
  assert (forall error,
             let update := failedUpdate state finishedAt error in
             let fatalError :=
               reduceFatalError (st_fatalError state) (u_fatalError update) in
             u_finishedAt update = finishedAt
             /\ (forall message, st_fatalError state = Some message ->
                                 fatalError = Some message)
             /\ (fatalError <> st_fatalError state ->
                 st_fatalError state = None /\ is_Some fatalError
                 /\ u_status update = failed_run /\ u_summary update = None)
             /\ (Js.truthy (st_fatalError state) = true ->
                 u_status update = failed_run)
             /\ (u_status update <> failed_run ->
                 is_Some (u_summary update)
                 /\ u_status update
                    = computeRunStatus (st_fatalError state)
                        (st_tableResults state))) as Hfailed.
  { intros error. cbn. destruct (st_fatalError state) as [message|]; cbn.
    - repeat split; try done; try (by intros ? [= <-]).
    - repeat split; try done; try (by eexists). }
  destruct connect as [error|configuration]; [apply Hfailed|].
  cbv zeta. destruct (putCatalogRecords _ _ _ _ _ _ _) as [st1 [error|]];
    [apply Hfailed|].
  destruct (putRunRecord _ _ _ _) as [st2 [error|]]; [apply Hfailed|].
  cbn. split; [done|]. split; [done|]. split; [done|]. split.
  - intros Htruthy. unfold computeRunStatus. by rewrite Htruthy.
  - intros _. split; [by eexists | done].
Qed.

End FinalizeMore.

Lemma X22_finalize_writes_catalog_then_run_record_witness :
  let '(st', update) :=
    Finalize.finalizeRun (inr FinalizeSamples.defaultIndexes)
      FinalizeSamples.recordCatalog FinalizeSamples.recordRun
      FinalizeSamples.failedTableState "2026-01-01T00:05:00.000Z" [] in
  st' = ["db_sync_catalog/public.users"; "db_sync_runs/run_1"]
  /\ Finalize.u_status update = State.partial_success.
Proof.
  pose proof (X22_finalize_writes_catalog_then_run_record
                (inr FinalizeSamples.defaultIndexes)
                FinalizeSamples.recordCatalog FinalizeSamples.recordRun
                FinalizeSamples.defaultIndexes FinalizeSamples.failedTableState
                "2026-01-01T00:05:00.000Z" [] eq_refl
                (fun _ _ _ => eq_refl) (fun _ _ _ _ => eq_refl)) as Hrun.
  destruct (Finalize.finalizeRun _ _ _ _ _ _) as [st' update].
  destruct Hrun as (Hstore & _ & _ & Hstatus & _).
  split; [exact Hstore | exact Hstatus].
Defined.
